(** * The editor-styled résumé viewer: tab workspace, search, content loading

    A shallow embedding of [src/App.tsx].  The component keeps its state in
    React [useState] cells and changes it from event handlers.  Every handler
    runs to completion inside one event-loop turn, so a handler is embedded
    as a function from the state before the event to the state after it:
    the values a handler reads from its closure ([leftOpenTabs],
    [leftActiveTabId], ...) and the [prev] argument React hands to a
    functional updater are both the state before the event.

    JavaScript numbers are binary64 floats ([PrimFloat.float]); array indices
    are [nat] where the source can only produce a non-negative index and [Z]
    where it can produce [-1] ([findIndex]) or compute [idx - 1].  The
    strings of the catalog, of the tabs and of the rendered lines are byte
    strings, with [toLowerCase] and [trim] as they act on ASCII characters;
    the search is also embedded on sequences of UTF-16 code units, for the
    queries that are not ASCII.

    The one closure that outlives its render is the [mousemove] listener
    of the splitter: the state records what it captured.

    The file has two parts: the embedding (data model, handlers, event
    wiring, the vocabulary of the statements), then the properties. *)

From Stdlib Require Import Floats ZArith Ascii String.
From stdpp Require Import base decidable option list numbers strings.

Set Warnings "-inexact-float".

(** ** Data model (App.tsx, lines 4-62) *)

Inductive SectionId :=
  | home | about | experience | projects | skills | education | training | contact.

#[global] Instance SectionId_eq_dec : EqDecision SectionId.
Proof. solve_decision. Defined.

Record Section := mkSection {
  sec_id : SectionId;
  sec_title : string;
  sec_filePath : string;
}.

Record OpenTab := mkTab {
  tab_id : SectionId;
  tab_title : string;
}.

#[global] Instance Section_eq_dec : EqDecision Section.
Proof. solve_decision. Defined.

#[global] Instance OpenTab_eq_dec : EqDecision OpenTab.
Proof. solve_decision. Defined.

Definition SECTIONS : list Section :=
  [ mkSection home "Home" "home.md";
    mkSection about "About" "about.md";
    mkSection experience "Experience" "experience.ts";
    mkSection projects "Projects" "projects.json";
    mkSection skills "Skills" "skills.ts";
    mkSection education "Education" "education.md";
    mkSection training "Training & Certs" "training.md";
    mkSection contact "Contact" "contact.tsx" ].

(** The two tab groups; also the [direction] argument of [splitTab]. *)
Inductive Group := GLeft | GRight.

#[global] Instance Group_eq_dec : EqDecision Group.
Proof. solve_decision. Defined.

Record ContextMenuState := mkMenu {
  menu_x : float;
  menu_y : float;
  menu_tabId : SectionId;
  menu_group : Group;
}.

(** The [useState] cells of [App] that the event handlers touch
    (lines 65-85).  [leftActiveTabId] is a [SectionId], never [null];
    [rightActiveTabId] may be [null].

    The last field is no [useState] cell.  It records the [mousemove] and
    [mouseup] listeners which the effect of lines 136-168 keeps on the
    document: [None] while there are none, and otherwise the value of
    [dragOffsetPx] that the closure of the installed [onMove] holds, which
    is the one of the render the effect ran in and not the current one. *)
Record AppState := mkApp {
  leftOpenTabs : list OpenTab;
  leftActiveTabId : SectionId;
  rightOpenTabs : list OpenTab;
  rightActiveTabId : option SectionId;
  query : string;
  contextMenu : option ContextMenuState;
  dragIndex : option nat;
  dragOverIndex : option nat;
  isResizing : bool;
  splitRatio : float;
  dragOffsetPx : option float;
  resizeListeners : option (option float);
}.

Definition homeTab : OpenTab := mkTab home "Home".

Definition initialState : AppState :=
  {| leftOpenTabs := [homeTab];
     leftActiveTabId := home;
     rightOpenTabs := [];
     rightActiveTabId := None;
     query := EmptyString;
     contextMenu := None;
     dragIndex := None;
     dragOverIndex := None;
     isResizing := false;
     splitRatio := 0.5%float;
     dragOffsetPx := None;
     resizeListeners := None |}.

(** *** State setters, one per [useState] cell *)

Definition setLeftOpenTabs (v : list OpenTab) (s : AppState) : AppState :=
  mkApp v (leftActiveTabId s) (rightOpenTabs s) (rightActiveTabId s) (query s)
        (contextMenu s) (dragIndex s) (dragOverIndex s) (isResizing s)
        (splitRatio s) (dragOffsetPx s) (resizeListeners s).

Definition setLeftActiveTabId (v : SectionId) (s : AppState) : AppState :=
  mkApp (leftOpenTabs s) v (rightOpenTabs s) (rightActiveTabId s) (query s)
        (contextMenu s) (dragIndex s) (dragOverIndex s) (isResizing s)
        (splitRatio s) (dragOffsetPx s) (resizeListeners s).

Definition setRightOpenTabs (v : list OpenTab) (s : AppState) : AppState :=
  mkApp (leftOpenTabs s) (leftActiveTabId s) v (rightActiveTabId s) (query s)
        (contextMenu s) (dragIndex s) (dragOverIndex s) (isResizing s)
        (splitRatio s) (dragOffsetPx s) (resizeListeners s).

Definition setRightActiveTabId (v : option SectionId) (s : AppState) : AppState :=
  mkApp (leftOpenTabs s) (leftActiveTabId s) (rightOpenTabs s) v (query s)
        (contextMenu s) (dragIndex s) (dragOverIndex s) (isResizing s)
        (splitRatio s) (dragOffsetPx s) (resizeListeners s).

Definition setQuery (v : string) (s : AppState) : AppState :=
  mkApp (leftOpenTabs s) (leftActiveTabId s) (rightOpenTabs s)
        (rightActiveTabId s) v (contextMenu s) (dragIndex s) (dragOverIndex s)
        (isResizing s) (splitRatio s) (dragOffsetPx s) (resizeListeners s).

Definition setContextMenu (v : option ContextMenuState) (s : AppState) : AppState :=
  mkApp (leftOpenTabs s) (leftActiveTabId s) (rightOpenTabs s)
        (rightActiveTabId s) (query s) v (dragIndex s) (dragOverIndex s)
        (isResizing s) (splitRatio s) (dragOffsetPx s) (resizeListeners s).

Definition setDragIndex (v : option nat) (s : AppState) : AppState :=
  mkApp (leftOpenTabs s) (leftActiveTabId s) (rightOpenTabs s)
        (rightActiveTabId s) (query s) (contextMenu s) v (dragOverIndex s)
        (isResizing s) (splitRatio s) (dragOffsetPx s) (resizeListeners s).

Definition setDragOverIndex (v : option nat) (s : AppState) : AppState :=
  mkApp (leftOpenTabs s) (leftActiveTabId s) (rightOpenTabs s)
        (rightActiveTabId s) (query s) (contextMenu s) (dragIndex s) v
        (isResizing s) (splitRatio s) (dragOffsetPx s) (resizeListeners s).

Definition setIsResizing (v : bool) (s : AppState) : AppState :=
  mkApp (leftOpenTabs s) (leftActiveTabId s) (rightOpenTabs s)
        (rightActiveTabId s) (query s) (contextMenu s) (dragIndex s)
        (dragOverIndex s) v (splitRatio s) (dragOffsetPx s) (resizeListeners s).

Definition setSplitRatio (v : float) (s : AppState) : AppState :=
  mkApp (leftOpenTabs s) (leftActiveTabId s) (rightOpenTabs s)
        (rightActiveTabId s) (query s) (contextMenu s) (dragIndex s)
        (dragOverIndex s) (isResizing s) v (dragOffsetPx s) (resizeListeners s).

Definition setDragOffsetPx (v : option float) (s : AppState) : AppState :=
  mkApp (leftOpenTabs s) (leftActiveTabId s) (rightOpenTabs s)
        (rightActiveTabId s) (query s) (contextMenu s) (dragIndex s)
        (dragOverIndex s) (isResizing s) (splitRatio s) v (resizeListeners s).

Definition setResizeListeners (v : option (option float)) (s : AppState) : AppState :=
  mkApp (leftOpenTabs s) (leftActiveTabId s) (rightOpenTabs s)
        (rightActiveTabId s) (query s) (contextMenu s) (dragIndex s)
        (dragOverIndex s) (isResizing s) (splitRatio s) (dragOffsetPx s) v.

(** A uniform view of the two groups, for statements that range over both. *)
Definition openTabs (g : Group) (s : AppState) : list OpenTab :=
  match g with GLeft => leftOpenTabs s | GRight => rightOpenTabs s end.

Definition activeTabId (g : Group) (s : AppState) : option SectionId :=
  match g with GLeft => Some (leftActiveTabId s) | GRight => rightActiveTabId s end.

Definition setOpen (g : Group) (v : list OpenTab) : AppState → AppState :=
  match g with GLeft => setLeftOpenTabs v | GRight => setRightOpenTabs v end.

(** ** JavaScript array primitives used by the handlers *)

(** [arr.findIndex(t => t.id === tabId)]: the first matching index, or [-1]. *)
Definition findIndex (tabId : SectionId) (arr : list OpenTab) : Z :=
  match list_find (λ t, tab_id t = tabId) arr with
  | Some (i, _) => Z.of_nat i
  | None => (-1)%Z
  end.

(** [arr[i]] for an integer [i]: [undefined] below zero and past the end. *)
Definition at_index {A} (arr : list A) (i : Z) : option A :=
  if decide (i < 0)%Z then None else arr !! Z.to_nat i.

(** [arr.some(t => t.id === tabId)] *)
Definition some_id (tabId : SectionId) (arr : list OpenTab) : bool :=
  bool_decide (Exists (λ t, tab_id t = tabId) arr).

(** [arr.filter(t => t.id !== tabId)] and [arr.filter(t => t.id === tabId)] *)
Definition without_id (tabId : SectionId) (arr : list OpenTab) : list OpenTab :=
  filter (λ t, tab_id t ≠ tabId) arr.

Definition only_id (tabId : SectionId) (arr : list OpenTab) : list OpenTab :=
  filter (λ t, tab_id t = tabId) arr.

(** [arr.find(t => t.id !== tabId)] *)
Definition find_other (tabId : SectionId) (arr : list OpenTab) : option OpenTab :=
  snd <$> list_find (λ t, tab_id t ≠ tabId) arr.

(** [arr.slice(0, e)] for an integer [e ≥ 0]. *)
Definition slice0 {A} (arr : list A) (e : Z) : list A := take (Z.to_nat e) arr.

(** [arr.splice(i, 1)]: the removed element ([undefined] past the end) and
    the array that is left. *)
Definition splice_out {A} (i : nat) (arr : list A) : option A * list A :=
  (arr !! i, delete i arr).

(** [arr.splice(i, 0, x)]: insertion before index [i], at the end when [i]
    is past it. *)
Definition splice_in {A} (i : nat) (x : A) (arr : list A) : list A :=
  take i arr ++ x :: drop i arr.

(** ** Workspace operations (App.tsx, lines 295-373 and 533-566) *)

Definition handleTabDragStart (index : nat) (s : AppState) : AppState :=
  setDragOverIndex (Some index) (setDragIndex (Some index) s).

Definition handleTabDragOver (index : nat) (s : AppState) : AppState :=
  if decide (dragOverIndex s ≠ Some index) then setDragOverIndex (Some index) s else s.

(** [handleTabDrop]: [None] stands for the one outcome that is no
    [OpenTab[]]: with [dragIndex] past the end, [splice] removes nothing,
    [moved] is [undefined] and is inserted into the array as such. *)
Definition handleTabDrop (index : nat) (s : AppState) : option AppState :=
  match dragIndex s with
  | None => Some s
  | Some d =>
      if decide (index = d) then Some (setDragOverIndex None (setDragIndex None s))
      else
        let '(moved, next) := splice_out d (leftOpenTabs s) in
        let insertIndex := if decide (d < index) then index - 1 else index in
        match moved with
        | Some m =>
            Some (setDragOverIndex None (setDragIndex None
                    (setLeftOpenTabs (splice_in insertIndex m next) s)))
        | None => None
        end
  end.

Definition handleTabDragEnd (s : AppState) : AppState :=
  setDragOverIndex None (setDragIndex None s).

Definition closeOthers (tabId : SectionId) (s : AppState) : AppState :=
  setLeftActiveTabId tabId (setLeftOpenTabs (only_id tabId (leftOpenTabs s)) s).

Definition closeToRight (tabId : SectionId) (s : AppState) : AppState :=
  let prev := leftOpenTabs s in
  let idx := findIndex tabId prev in
  let tabs := if decide (idx = (-1)%Z) then prev else slice0 prev (idx + 1) in
  setLeftActiveTabId tabId (setLeftOpenTabs tabs s).

Definition closeAllTabs (s : AppState) : AppState :=
  setRightActiveTabId None (setRightOpenTabs []
    (setLeftActiveTabId home (setLeftOpenTabs [homeTab] s))).

(** [prev.some(...) ? prev : [...prev, { id: tabId, title }]] *)
Definition append_if_absent (tabId : SectionId) (title : string)
    (prev : list OpenTab) : list OpenTab :=
  if some_id tabId prev then prev else prev ++ [mkTab tabId title].

Definition splitTab (tabId : SectionId) (direction fromGroup : Group)
    (s : AppState) : AppState :=
  match List.find (λ sec, bool_decide (sec_id sec = tabId)) SECTIONS with
  | None => s
  | Some section =>
      match direction with
      | GRight =>
          let s1 := setRightOpenTabs
                      (append_if_absent tabId (sec_title section) (rightOpenTabs s)) s in
          let s2 := setRightActiveTabId (Some tabId) s1 in
          match fromGroup with
          | GLeft =>
              let s3 := setLeftOpenTabs (without_id tabId (leftOpenTabs s2)) s2 in
              if decide (leftActiveTabId s = tabId)
              then setLeftActiveTabId
                     (default home (tab_id <$> find_other tabId (leftOpenTabs s))) s3
              else s3
          | GRight => s2
          end
      | GLeft =>
          let s1 := setLeftOpenTabs
                      (append_if_absent tabId (sec_title section) (leftOpenTabs s)) s in
          let s2 := setLeftActiveTabId tabId s1 in
          match fromGroup with
          | GRight =>
              let s3 := setRightOpenTabs (without_id tabId (rightOpenTabs s2)) s2 in
              if decide (rightActiveTabId s = Some tabId)
              then setRightActiveTabId
                     (tab_id <$> find_other tabId (rightOpenTabs s)) s3
              else s3
          | GLeft => s2
          end
      end
  end.

Definition openSection (section : Section) (target : Group) (s : AppState) : AppState :=
  match target with
  | GLeft =>
      setLeftActiveTabId (sec_id section)
        (setLeftOpenTabs
           (append_if_absent (sec_id section) (sec_title section) (leftOpenTabs s)) s)
  | GRight =>
      setRightActiveTabId (Some (sec_id section))
        (setRightOpenTabs
           (append_if_absent (sec_id section) (sec_title section) (rightOpenTabs s)) s)
  end.

(** [setActive(v)] as [closeTab] calls it: on the left group [v] is always a
    section id, on the right group it may be [null]. *)
Definition setActive (g : Group) (whenLeft : SectionId)
    (whenRight : option SectionId) : AppState → AppState :=
  match g with
  | GLeft => setLeftActiveTabId whenLeft
  | GRight => setRightActiveTabId whenRight
  end.

(** The list an emptied group is given: [[{ id: 'home', title: 'Home' }]]
    on the left, [[]] on the right. *)
Definition emptied (g : Group) : list OpenTab :=
  match g with GLeft => [homeTab] | GRight => [] end.

Definition closeTab (tabId : SectionId) (group : Group) (s : AppState) : AppState :=
  let activeId := activeTabId group s in
  let prev := openTabs group s in
  let idx := findIndex tabId prev in
  if decide (idx = (-1)%Z) then s
  else
    let next := without_id tabId prev in
    if decide (activeId = Some tabId) then
      (* fallback = next[idx - 1] || next[idx] || undefined *)
      let fallback :=
        match at_index next (idx - 1) with
        | Some t => Some t
        | None => at_index next idx
        end in
      match fallback with
      | Some fb =>
          setOpen group (if next is [] then emptied group else next)
            (setActive group (tab_id fb) (Some (tab_id fb)) s)
      | None =>
          setOpen group (emptied group)
            (setActive group home (tab_id <$> at_index next 0) s)
      end
    else setOpen group (if next is [] then emptied group else next) s.

(** ** Section catalog search (App.tsx, lines 90-94 and 787-797)

    The search is embedded twice.  The definitions that follow work on
    byte strings and are the search as it behaves on strings of ASCII
    characters, which every title and file path of the catalog is; the
    event wiring and the statements about such queries use them.  The
    module [JS] further down embeds the same lines on sequences of UTF-16
    code units, for every query a user can type, with the engine's
    [toLowerCase] as a parameter. *)

(** [String.prototype.toLowerCase] on a string of ASCII characters: [A-Z]
    are shifted, every other byte is kept. *)
Definition lower_ascii (c : ascii) : ascii :=
  let n := nat_of_ascii c in
  if (65 <=? n) && (n <=? 90) then ascii_of_nat (n + 32) else c.

Fixpoint toLowerCase (s : string) : string :=
  match s with
  | EmptyString => EmptyString
  | String c r => String (lower_ascii c) (toLowerCase r)
  end.

(** The white space and line terminators among the ASCII characters, as
    [trim] strips them: TAB, LF, VT, FF, CR and SPACE. *)
Definition is_js_space (c : ascii) : bool :=
  let n := nat_of_ascii c in
  ((9 <=? n) && (n <=? 13)) || (n =? 32).

Fixpoint trimStart (s : string) : string :=
  match s with
  | EmptyString => EmptyString
  | String c r => if is_js_space c then trimStart r else s
  end.

Definition trim (s : string) : string :=
  String.rev (trimStart (String.rev (trimStart s))).

(** [hay.includes(needle)] *)
Fixpoint includes (hay needle : string) : bool :=
  String.prefix needle hay ||
  match hay with
  | EmptyString => false
  | String _ r => includes r needle
  end.

(** The predicate of the [SECTIONS.filter] call, for the lowered query [q]. *)
Definition matches_query (q : string) (s : Section) : bool :=
  includes (toLowerCase (sec_title s)) q || includes (toLowerCase (sec_filePath s)) q.

(** [!query.trim()]: the empty string is the only falsy string. *)
Definition is_blank (q : string) : bool :=
  if trim q is EmptyString then true else false.

Definition filteredSections (query : string) : list Section :=
  if is_blank query then SECTIONS
  else
    let q := toLowerCase query in
    List.filter (matches_query q) SECTIONS.

Inductive Key := Escape | Enter | OtherKey.

(** The [onKeyDown] handler of the search input.  It reads the memo
    [filteredSections] of its render, here the argument [filtered]. *)
Definition searchKeyDownOn (filtered : list Section) (k : Key) (s : AppState) : AppState :=
  let s1 := if k is Escape then setQuery EmptyString s else s in
  if k is Enter then
    match filtered !! 0 with
    | Some first => setQuery EmptyString (openSection first GLeft s1)
    | None => s1
    end
  else s1.

(** The handler in a state whose query is a string of ASCII characters. *)
Definition searchKeyDown (k : Key) (s : AppState) : AppState :=
  searchKeyDownOn (filteredSections (query s)) k s.

(** *** The search on UTF-16 strings *)

Module JS.

(** A JavaScript string: the sequence of its UTF-16 code units. *)
Definition JSString : Type := list N.

(** The code units of a string of ASCII characters. *)
Definition ofAscii (s : string) : JSString := N_of_ascii <$> list_ascii_of_string s.

(** The code points [trim] strips: ECMAScript's WhiteSpace (TAB, VT, FF,
    ZWNBSP and the space separators of Unicode: SPACE, NO-BREAK SPACE,
    OGHAM SPACE MARK, EN QUAD to HAIR SPACE, NARROW NO-BREAK SPACE, MEDIUM
    MATHEMATICAL SPACE, IDEOGRAPHIC SPACE) and LineTerminator (LF, CR,
    LINE SEPARATOR, PARAGRAPH SEPARATOR).  Each is a single code unit. *)
Definition isWhiteSpace (c : N) : bool :=
  ((0x9 <=? c) && (c <=? 0xD) || (c =? 0x20) || (c =? 0xA0) || (c =? 0x1680)
   || (0x2000 <=? c) && (c <=? 0x200A) || (c =? 0x2028) || (c =? 0x2029)
   || (c =? 0x202F) || (c =? 0x205F) || (c =? 0x3000) || (c =? 0xFEFF))%N.

Fixpoint trimStart (s : JSString) : JSString :=
  match s with
  | [] => []
  | c :: r => if isWhiteSpace c then trimStart r else s
  end.

Definition trim (s : JSString) : JSString :=
  reverse (trimStart (reverse (trimStart s))).

Fixpoint startsWith (hay needle : JSString) {struct needle} : bool :=
  match needle, hay with
  | [], _ => true
  | c :: needle', d :: hay' => (c =? d)%N && startsWith hay' needle'
  | _ :: _, [] => false
  end.

(** [hay.includes(needle)] *)
Fixpoint includes (hay needle : JSString) : bool :=
  startsWith hay needle ||
  match hay with
  | [] => false
  | _ :: r => includes r needle
  end.

Section Engine.

(** [String.prototype.toLowerCase] is the engine's: it folds the letters of
    all of Unicode, some of them by their context and some into more than
    one code unit.  The embedding takes it as it is given. *)
Variable toLowerCase : JSString → JSString.

Definition matches_query (q : JSString) (s : Section) : bool :=
  includes (toLowerCase (ofAscii (sec_title s))) q
  || includes (toLowerCase (ofAscii (sec_filePath s))) q.

Definition filteredSections (query : JSString) : list Section :=
  if trim query is [] then SECTIONS
  else
    let q := toLowerCase query in
    List.filter (matches_query q) SECTIONS.

End Engine.

(** A lower-casing of code units one by one that folds the letters [A-Z]
    and the KELVIN SIGN and keeps every other code unit.  It agrees with
    the engine's on every string made of ASCII characters and KELVIN
    SIGNs, and stands in for it where a statement is run on such
    strings. *)
Definition foldUnit (c : N) : N :=
  (if (0x41 <=? c) && (c <=? 0x5A) then c + 0x20
   else if c =? 0x212A then 0x6B else c)%N.

Definition foldUnits (s : JSString) : JSString := foldUnit <$> s.

End JS.

(** ** Renderer: the static copy (App.tsx, lines 674-765) *)

Definition staticLines (id : SectionId) : list string :=
  match id with
  | home =>
      [ "# Lalit Sharma";
        "Software Engineer";
        EmptyString;
        "Detail‑oriented, organized and meticulous. Works at fast pace to meet tight deadlines.";
        "Enthusiastic team player ready to contribute to company success by achieving targets." ]
  | about =>
      [ "# About";
        EmptyString;
        "Full‑stack engineer focused on React, TypeScript, Node.js and modern tooling.";
        "Experience leading migration of legacy UI to modern React with performance gains,";
        "building Micro‑Frontend Architecture, and enforcing authentication/authorization and";
        "accessibility (WCAG). Strong interest in DX, testing, and scalable UI systems." ]
  | experience =>
      [ "# Work Experience";
        EmptyString;
        "Software Engineer — Magic EdTech (07/2022 – Present)";
        "• Led migration of old UI to modern React app with ~75% improvement in performance.";
        "• Created and worked on Micro‑Frontend Architecture.";
        "• Built complex React applications using ReactJS, TypeScript and StencilJS.";
        "• Integrated authentication with live validation and encryption; used OAuth 2.0 for SocialSignOn.";
        "• Built reusable web components in StencilJS; maintained a Storybook library.";
        "• Implemented TailwindCSS styling and WCAG‑compliant accessible UI.";
        "• Implemented responsive design and UI test cases across browsers.";
        "• Collaborated with Backend and UI/UX teams to deliver features.";
        EmptyString;
        "Project Engineer — Wipro Limited (03/2021 – 06/2022)";
        "• Delivered user‑facing features using ReactJS and reusable components.";
        "• Built reusable web methods/solutions used across business domains.";
        "• Designed responsive pages with HTML5, CSS3, JavaScript and ReactJS per W3C standards.";
        "• Managed firewall over internal network; provisioned/denied access to servers/apps.";
        "• Completed client requests under SLA." ]
  | projects =>
      [ "# Projects";
        EmptyString;
        "Comfy Sloth (2022) — E‑commerce store replica; product filters, categories, deep React integration.";
        "Backroads (2021) — Travel‑based responsive site using HTML, CSS and Vanilla JS.";
        "Static Website Hosting & Cross Account Access (2019) — Hosted on AWS with cross‑account access.";
        "Floppy Dude (2018) — Game built from scratch in Java (Flappy‑bird inspired).";
        "Box Moving Mechanism (2017) — Final year project in Mechanical Engineering." ]
  | skills =>
      [ "# Skills";
        EmptyString;
        "Web: HTML, CSS, JavaScript, TypeScript, TailwindCSS";
        "Frontend: React JS, StencilJS, Redux, Hooks, Routers";
        "Backend: Node.js";
        "Core: Data Structures, OOPs";
        "Languages: Java, C/C++";
        "Cloud: AWS" ]
  | education =>
      [ "# Education";
        EmptyString;
        "B.Tech | Computer Science — Ajay Kumar Garg Engineering College (08/2017 – 08/2020) — 69%";
        "Diploma | Mechanical Engineering — Aryabhat Institute of Technology (08/2014 – 05/2017) — 64%";
        "Secondary | Class X — Army Public School Dhaula Kuan (04/2013 – 03/2014) — CGPA 7.8" ]
  | training =>
      [ "# Training & Certifications";
        EmptyString;
        "Full Stack Web Development — MERN Stack (07/2023)";
        "JavaScript, HTML & CSS — Udemy (2020)";
        "Amazon Web Services — Udemy (2019)";
        "Core Java — CodeKamp (2018)";
        "C and C++ Programming — Aptech (2017)" ]
  | contact =>
      [ "# Contact";
        EmptyString;
        "Email:   lalitdev9013@gmail.com";
        "Phone:   +91 8130417929";
        "LinkedIn: linkedin.com/in/lalitbing";
        "GitHub:  github.com/lalitbing" ]
  end.

(** ** Content loading (App.tsx, lines 87-88 and 110-134)

    The résumé document is only ever stored and handed to the per-section
    formatters of [getSectionLines]; its type and those formatters
    ([linesFromLoaded], the [switch] of [linesFromResume] once [resume] is
    known to be non-null) are parameters of this part. *)

(** What the network answers to one [fetch]: the promise rejects, or it
    resolves to a response with its [ok] flag and the outcome of
    [res.json()] ([None] when that promise rejects). *)
Inductive FetchOutcome (Resume : Type) :=
  | NetworkError
  | Responded (ok : bool) (json : option Resume).
Arguments NetworkError {Resume}.
Arguments Responded {Resume} ok json.

Record ContentState (Resume : Type) := mkContent {
  resume : option Resume;
  resumeLoading : bool;
}.
Arguments mkContent {Resume} resume resumeLoading.
Arguments resume {Resume} c.
Arguments resumeLoading {Resume} c.

(** The world [load] runs in: the two content cells and the log of the
    URLs requested so far. *)
Record World (Resume : Type) := mkWorld {
  content : ContentState Resume;
  requested : list string;
}.
Arguments mkWorld {Resume} content requested.
Arguments content {Resume} w.
Arguments requested {Resume} w.

(** A computation that changes the world and either returns or throws. *)
Inductive Completion (A : Type) := Returned (a : A) | Thrown.
Arguments Returned {A} a.
Arguments Thrown {A}.

Definition Async (Resume A : Type) : Type :=
  World Resume → Completion A * World Resume.

#[global] Instance Async_ret {Resume} : MRet (Async Resume) :=
  λ A a w, (Returned a, w).

#[global] Instance Async_bind {Resume} : MBind (Async Resume) :=
  λ A B f m w,
    match m w with
    | (Returned a, w') => f a w'
    | (Thrown, w') => (Thrown, w')
    end.

Definition throw {Resume A} : Async Resume A := λ w, (Thrown, w).

(** [try { body } catch { handler }] *)
Definition try_catch {Resume A} (body handler : Async Resume A) : Async Resume A :=
  λ w, match body w with
       | (Returned a, w') => (Returned a, w')
       | (Thrown, w') => handler w'
       end.

(** [try { body } finally { cleanup }] *)
Definition try_finally {Resume A} (body : Async Resume A)
    (cleanup : Async Resume unit) : Async Resume A :=
  λ w, match body w with
       | (r, w') =>
           match cleanup w' with
           | (Returned _, w'') => (r, w'')
           | (Thrown, w'') => (Thrown, w'')
           end
       end.

Section Content.
Context {Resume : Type}.
Variable network : string → FetchOutcome Resume.
Variable linesFromLoaded : Resume → SectionId → option (list string).

Definition setResume (v : option Resume) : Async Resume unit :=
  λ w, (Returned tt,
        mkWorld (mkContent v (resumeLoading (content w))) (requested w)).

Definition setResumeLoading (v : bool) : Async Resume unit :=
  λ w, (Returned tt,
        mkWorld (mkContent (resume (content w)) v) (requested w)).

(** [await fetch(url, { cache: 'no-store' })]: the request is logged, and
    the response (its [ok] flag and the outcome of [json()]) is returned
    unless the promise rejects. *)
Definition fetch (url : string) : Async Resume (bool * option Resume) :=
  λ w,
    let w' := mkWorld (content w) (requested w ++ [url]) in
    match network url with
    | NetworkError => (Thrown, w')
    | Responded ok body => (Returned (ok, body), w')
    end.

(** [await res.json()] *)
Definition json (res : bool * option Resume) : Async Resume Resume :=
  match res.2 with
  | Some data => mret data
  | None => throw
  end.

Definition primary : string :=
  "https://raw.githubusercontent.com/lalitbing/LalitBing/main/details.json".
Definition fallback : string := "/resume.json".

Definition load : Async Resume unit :=
  setResumeLoading true ;;
  try_finally
    (try_catch
       (res ← fetch primary;
        (if negb res.1 then throw else mret tt) ;;
        data ← json res;
        setResume (Some data))
       (try_catch
          (res2 ← fetch fallback;
           (if negb res2.1 then throw else mret tt) ;;
           data2 ← json res2;
           setResume (Some data2))
          (setResume None)))
    (setResumeLoading false).

(** The content cells as [useState] initialises them. *)
Definition initialContent : ContentState Resume := mkContent None true.

(** The content cells once [load], started on the initial cells, has
    settled, and the URLs it requested. *)
Definition loaded : ContentState Resume * list string :=
  let w := (load (mkWorld initialContent [])).2 in (content w, requested w).

(** ** Renderer (App.tsx, lines 595-773) *)

Definition linesFromResume (c : ContentState Resume) (section : SectionId)
    : option (list string) :=
  match resume c with
  | None => None
  | Some r => linesFromLoaded r section
  end.

Definition getSectionLines (c : ContentState Resume) (id : SectionId) : list string :=
  match linesFromResume c id with
  | Some resumeLines => resumeLines
  | None => staticLines id
  end.

Definition loadingLines : list string :=
  ["# Loading…"; EmptyString; "Fetching resume data…"].

(** [renderEditorContent]: the [lines] handed to [<Editor>]. *)
Definition renderEditorContent (c : ContentState Resume) (id : SectionId) : list string :=
  let lines := getSectionLines c id in
  if resumeLoading c && bool_decide (id = home) then loadingLines else lines.
End Content.

(** ** Splitter drag (App.tsx, lines 136-145 and 905-917) *)

(** [Math.max] and [Math.min] on binary64 values: NaN is contagious, and of
    two zeros the positive one is the larger. *)
Definition Math_max (a b : float) : float :=
  if is_nan a || is_nan b then nan
  else if (a <? b)%float then b
  else if (b <? a)%float then a
  else if get_sign a then b else a.

Definition Math_min (a b : float) : float :=
  if is_nan a || is_nan b then nan
  else if (a <? b)%float then a
  else if (b <? a)%float then b
  else if get_sign a then a else b.

(** The two fields of [getBoundingClientRect()] the handlers read. *)
Record DOMRect := mkRect { rect_left : float; rect_width : float }.

Definition clampX (rawX width : float) : float :=
  Math_min (Math_max rawX 100) (width - 100)%float.

Definition clampRatio (ratio : float) : float :=
  Math_min (Math_max ratio 0.2) 0.8.

(** [onMove] is created inside the effect and reads [isResizing] and
    [dragOffsetPx] from the closure of that effect run: they are arguments
    here, apart from the state [setSplitRatio] updates.  [current] is
    [contentRef.current]'s bounding rectangle, [None] when the ref is
    unset. *)
Definition onMove (isResizing : bool) (dragOffsetPx : option float)
    (clientX : float) (current : option DOMRect) (s : AppState) : AppState :=
  match current with
  | Some rect =>
      if isResizing then
        let offset := default 0%float dragOffsetPx in
        let rawX := (clientX - rect_left rect - offset)%float in
        let clampedX := clampX rawX (rect_width rect) in
        let ratio := (clampedX / rect_width rect)%float in
        setSplitRatio (clampRatio ratio) s
      else s
  | None => s
  end.

Definition onUp (s : AppState) : AppState :=
  setDragOffsetPx None (setIsResizing false s).

(** The effect itself, with the dependency list [[isResizing]]: it runs
    after a render in which [isResizing] differs from the render before,
    first removing the listeners of its previous run; when [isResizing] is
    true it puts [onMove] and [onUp] on the document, closed over the
    values of this render. *)
Definition resizeEffect (before s : AppState) : AppState :=
  if bool_decide (isResizing before = isResizing s) then s
  else setResizeListeners (if isResizing s then Some (dragOffsetPx s) else None) s.

(** The splitter's [onMouseDown]. *)
Definition onSplitterMouseDown (clientX : float) (current : option DOMRect)
    (s : AppState) : AppState :=
  let s1 := setIsResizing true s in
  match current with
  | Some rect =>
      let currentSplitterX := (rect_left rect + splitRatio s * rect_width rect)%float in
      setDragOffsetPx (Some (clientX - currentSplitterX)%float) s1
  | None => s1
  end.

(** ** The event wiring of the JSX (App.tsx, lines 96-108, 170-181, 775-986)

    One constructor per user gesture that reaches a handler.  A gesture on
    an element that is not rendered in the state at hand cannot happen and
    leaves the state as it is. *)

Inductive MenuAction :=
  | MenuClose | MenuCloseOthers | MenuCloseRight | MenuCloseAll
  | MenuSplitLeft | MenuSplitRight.

Inductive Event :=
  | ExplorerClick (i : nat)                       (* a file of the side bar *)
  | SearchInput (v : string)                      (* onChange of the search box *)
  | SearchKey (k : Key)                           (* onKeyDown of the search box *)
  | SearchResultClick (i : nat)                   (* an entry of the result list *)
  | TabClick (g : Group) (i : nat)
  | TabCloseClick (g : Group) (i : nat)           (* the × button of a tab *)
  | TabContextMenu (g : Group) (i : nat) (x y : float)
  | MenuClick (a : MenuAction)
  | Dismiss                                       (* click elsewhere, scroll, resize, Escape *)
  | TabDragStart (i : nat)
  | TabDragOver (i : nat)
  | TabDrop (i : nat)
  | TabDragEnd
  | SplitterMouseDown (clientX : float) (current : option DOMRect)
  | MouseMove (clientX : float) (current : option DOMRect)
  | MouseUp.

(** The [click] listener on [document] that is installed while a menu is
    open; a click reaches it unless its handler stops the propagation. *)
Definition closeMenu (s : AppState) : AppState := setContextMenu None s.

(** [showSplit] as the context menu is given it. *)
Definition showSplit (m : ContextMenuState) (s : AppState) : bool :=
  bool_decide (2 ≤ length (openTabs (menu_group m) s)).

Definition menuClick (a : MenuAction) (s : AppState) : AppState :=
  match contextMenu s with
  | None => s
  | Some m =>
      match a with
      | MenuClose => closeMenu (closeTab (menu_tabId m) (menu_group m) s)
      | MenuCloseOthers => closeMenu (closeOthers (menu_tabId m) s)
      | MenuCloseRight => closeMenu (closeToRight (menu_tabId m) s)
      | MenuCloseAll => closeMenu (closeAllTabs s)
      | MenuSplitLeft =>
          if showSplit m s
          then closeMenu (splitTab (menu_tabId m) GLeft (menu_group m) s) else s
      | MenuSplitRight =>
          if showSplit m s
          then closeMenu (splitTab (menu_tabId m) GRight (menu_group m) s) else s
      end
  end.

Definition dispatch (e : Event) (s : AppState) : option AppState :=
  match e with
  | ExplorerClick i =>
      Some (if SECTIONS !! i is Some sec then closeMenu (openSection sec GLeft s) else s)
  | SearchInput v => Some (setQuery v s)
  | SearchKey k =>
      let s1 := searchKeyDown k s in
      Some (if k is Escape then closeMenu s1 else s1)
  | SearchResultClick i =>
      Some (if is_blank (query s) then s
            else if filteredSections (query s) !! i is Some sec
                 then closeMenu (setQuery EmptyString (openSection sec GLeft s))
                 else s)
  | TabClick g i =>
      Some (match openTabs g s !! i with
            | Some tab =>
                closeMenu (match g with
                           | GLeft => setLeftActiveTabId (tab_id tab) s
                           | GRight => setRightActiveTabId (Some (tab_id tab)) s
                           end)
            | None => s
            end)
  | TabCloseClick g i =>
      Some (if openTabs g s !! i is Some tab then closeTab (tab_id tab) g s else s)
  | TabContextMenu g i x y =>
      Some (if openTabs g s !! i is Some tab
            then setContextMenu (Some (mkMenu x y (tab_id tab) g)) s else s)
  | MenuClick a => Some (menuClick a s)
  | Dismiss => Some (closeMenu s)
  | TabDragStart i =>
      Some (if leftOpenTabs s !! i is Some _ then handleTabDragStart i s else s)
  | TabDragOver i =>
      Some (if leftOpenTabs s !! i is Some _ then handleTabDragOver i s else s)
  | TabDrop i =>
      if leftOpenTabs s !! i is Some _ then handleTabDrop i s else Some s
  | TabDragEnd => Some (handleTabDragEnd s)
  | SplitterMouseDown clientX current =>
      Some (if rightOpenTabs s is [] then s else onSplitterMouseDown clientX current s)
  | MouseMove clientX current =>
      Some (if resizeListeners s is Some offset
            then onMove true offset clientX current s else s)
  | MouseUp => Some (if resizeListeners s is Some _ then onUp s else s)
  end.

(** One event: the handler runs, the component renders again, and the
    effects whose dependencies changed run. *)
Definition handle (e : Event) (s : AppState) : option AppState :=
  resizeEffect s <$> dispatch e s.

(** A session: the events in the order they happen, from left to right. *)
Fixpoint run (es : list Event) (s : AppState) : option AppState :=
  match es with
  | [] => Some s
  | e :: es' => s' ← handle e s; run es' s'
  end.

(** The two operations of the workspace that open and close tabs, as a
    sequence of calls with arbitrary arguments. *)
Inductive TabOp :=
  | OpOpen (section : Section) (target : Group)
  | OpClose (tabId : SectionId) (group : Group).

Definition applyOp (o : TabOp) (s : AppState) : AppState :=
  match o with
  | OpOpen section target => openSection section target s
  | OpClose tabId group => closeTab tabId group s
  end.

Definition applyOps (os : list TabOp) (s : AppState) : AppState :=
  foldl (λ st o, applyOp o st) s os.

(** The invariant of a group: the active tab, when there is one, is one of
    the open tabs. *)
Definition active_is_open (g : Group) (s : AppState) : Prop :=
  ∀ a, activeTabId g s = Some a → a ∈ tab_id <$> openTabs g s.

(** ** File icons (App.tsx, lines 375-531)

    [FileIcon] draws one of twelve icons; the embedding returns which one.
    The [size] and [className] props only reach the [<svg>] element. *)

Inductive Icon :=
  | IconReact | IconTypeScript | IconVite | IconHtml | IconCss | IconEslint
  | IconNpm | IconTsconfig | IconGit | IconMarkdown | IconJson
  | IconDefault (label : string) (fontSize : float).

(** [s.split('.')]: the segments between the dots, at least one. *)
Fixpoint split_dot (s : string) : list string :=
  match s with
  | EmptyString => [EmptyString]
  | String c r =>
      if Ascii.eqb c "."%char then EmptyString :: split_dot r
      else match split_dot r with
           | h :: t => String c h :: t
           | [] => [String c EmptyString]
           end
  end.

(** [name.split('.').pop() || ''] *)
Definition fileExt (name : string) : string :=
  default EmptyString (last (split_dot name)).

(** [s.endsWith(suffix)] *)
Fixpoint endsWith (s suffix : string) : bool :=
  String.eqb s suffix ||
  match s with
  | EmptyString => false
  | String _ r => endsWith r suffix
  end.

(** [String.prototype.toUpperCase] on a string of ASCII characters: [a-z]
    are shifted, every other byte is kept. *)
Definition upper_ascii (c : ascii) : ascii :=
  let n := nat_of_ascii c in
  if (97 <=? n) && (n <=? 122) then ascii_of_nat (n - 32) else c.

Fixpoint toUpperCase (s : string) : string :=
  match s with
  | EmptyString => EmptyString
  | String c r => String (upper_ascii c) (toUpperCase r)
  end.

Definition FileIcon (filePath : string) : Icon :=
  let name := toLowerCase filePath in
  let ext := fileExt name in
  if String.eqb ext "tsx" || endsWith name ".jsx" then IconReact
  else if String.eqb ext "ts" then IconTypeScript
  else if String.eqb name "vite.config.ts" || String.eqb name "vite.config.js"
  then IconVite
  else if String.eqb ext "html" then IconHtml
  else if String.eqb ext "css" then IconCss
  else if includes name "eslint"
          && (String.eqb ext "js" || String.eqb ext "cjs" || String.eqb ext "mjs")
  then IconEslint
  else if String.eqb name "package.json" || String.eqb name "package-lock.json"
  then IconNpm
  else if String.prefix "tsconfig" name && String.eqb ext "json" then IconTsconfig
  else if String.eqb name ".gitignore" then IconGit
  else if String.eqb ext "md" then IconMarkdown
  else if String.eqb ext "json" then IconJson
  else IconDefault (toUpperCase ext)
                   (if 3 <? String.length ext then 5.5%float else 6.5%float).

(** ** Placement of the context menu (App.tsx, lines 206-209) *)

(** The [left] and [top] of the menu's [style], from the pointer position
    and [window.innerWidth], [window.innerHeight]. *)
Definition menuStyle (x y innerWidth innerHeight : float) : float * float :=
  (Math_min x (innerWidth - 200)%float, Math_min y (innerHeight - 160)%float).

(** ** The résumé document and its formatters (App.tsx, lines 17-51, 595-669)

    [load] stores what [res.json()] returned as a [Resume] without
    checking it.  The records here are the documents of the shape that
    type declares: a field is optional where the type marks it so ([?],
    [| null]) and also where the formatters guard its use
    ([resume.work?.], [?? ''], [|| []]); the fields the formatters read
    unguarded are present, as declared.  A body of another shape (a
    number, a string, a skill without [keywords]) is not among them. *)

Record Profile := mkProfile {
  prof_network : string;
  prof_username : option string;
  prof_url : option string;
}.

Record Basics := mkBasics {
  basics_name : option string;
  basics_label : option string;
  basics_summary : option string;
  basics_profiles : option (list Profile);
}.

Record Skill := mkSkill { skill_name : string; skill_keywords : list string }.

Record Work := mkWork {
  work_name : string;
  work_position : string;
  work_startDate : string;
  work_endDate : option string;
  work_highlights : option (list string);
}.

Record Project := mkProject {
  proj_name : string;
  proj_year : option float;
  proj_summary : option string;
  proj_technologies : option (list string);
}.

Record Education := mkEducation {
  edu_institution : string;
  edu_studyType : option string;
  edu_area : option string;
  edu_startDate : option string;
  edu_endDate : option string;
  edu_score : option string;
}.

Record Certificate := mkCertificate {
  cert_name : string;
  cert_issuer : option string;
  cert_date : option string;
}.

Record Resume := mkResume {
  res_basics : option Basics;
  res_skills : option (list Skill);
  res_work : option (list Work);
  res_projects : option (list Project);
  res_education : option (list Education);
  res_certificates : option (list Certificate);
}.

(** A string used as a condition: [undefined], [null] and [''] are falsy. *)
Definition truthy (o : option string) : bool :=
  match o with
  | Some (String _ _) => true
  | _ => false
  end.

(** [arr.filter(Boolean)] on strings. *)
Definition filter_Boolean (arr : list string) : list string :=
  List.filter (λ x, truthy (Some x)) arr.

(** [fmtDate]: [(d) => (d ? d : 'Present')] *)
Definition fmtDate (d : option string) : string :=
  if truthy d then default EmptyString d else "Present".

(** [arr.join(sep)] *)
Definition join (sep : string) (arr : list string) : string := String.concat sep arr.

Section LiveLines.
(** [`${n}`] for a number, JavaScript's [Number::toString]. *)
Variable numberToString : float → string.

(** [out.push(...)] inside the [forEach] over [resume.work]. *)
Definition pushWork (out : list string) (w : Work) : list string :=
  let out1 :=
    out ++ [work_position w +:+ " — " +:+ work_name w +:+ " (" +:+ work_startDate w
            +:+ " – " +:+ fmtDate (work_endDate w) +:+ ")"] in
  let out2 := foldl (λ o h, o ++ ["• " +:+ h]) out1 (default [] (work_highlights w)) in
  out2 ++ [EmptyString].

Definition pushProject (out : list string) (p : Project) : list string :=
  let tech :=
    match proj_technologies p with
    | Some (t :: ts) => " — " +:+ join ", " (t :: ts)
    | _ => EmptyString
    end in
  let yr :=
    match proj_year p with
    | Some y => if is_zero y || is_nan y then EmptyString
                else " (" +:+ numberToString y +:+ ")"
    | None => EmptyString
    end in
  out ++ [trim (proj_name p +:+ yr +:+ " — " +:+ default EmptyString (proj_summary p)
                +:+ tech)].

Definition pushSkill (out : list string) (k : Skill) : list string :=
  out ++ [skill_name k +:+ ": " +:+ join ", " (skill_keywords k)].

Definition pushEducation (out : list string) (e : Education) : list string :=
  let meta1 :=
    if truthy (edu_startDate e) || truthy (edu_endDate e)
    then [trim (default EmptyString (edu_startDate e) +:+ " – "
                +:+ default EmptyString (edu_endDate e))]
    else [] in
  let meta := if truthy (edu_score e) then meta1 ++ [default EmptyString (edu_score e)]
              else meta1 in
  let metaStr := if meta is [] then EmptyString else " (" +:+ join " — " meta +:+ ")" in
  out ++ [trim ((if truthy (edu_studyType e)
                 then default EmptyString (edu_studyType e) +:+ " | " else EmptyString)
                +:+ default EmptyString (edu_area e) +:+ " — " +:+ edu_institution e
                +:+ metaStr)].

Definition pushCertificate (out : list string) (c : Certificate) : list string :=
  let issuer := if truthy (cert_issuer c)
                then " — " +:+ default EmptyString (cert_issuer c) else EmptyString in
  let date := if truthy (cert_date c)
              then " (" +:+ default EmptyString (cert_date c) +:+ ")" else EmptyString in
  out ++ [cert_name c +:+ issuer +:+ date].

Definition pushProfile (out : list string) (p : Profile) : list string :=
  let value :=
    match prof_url p with
    | Some u => u
    | None => default EmptyString (prof_username p)
    end in
  out ++ [prof_network p +:+ ": " +:+ value].

(** The [switch] of [linesFromResume], for a document that is not [null]. *)
Definition liveLines (r : Resume) (section : SectionId) : option (list string) :=
  match section with
  | home =>
      let name := default "Lalit Sharma" (res_basics r ≫= basics_name) in
      let label := default "Software Engineer" (res_basics r ≫= basics_label) in
      let summary := default EmptyString (res_basics r ≫= basics_summary) in
      Some (filter_Boolean ["# " +:+ name; label; EmptyString; summary])
  | about =>
      let summary := default EmptyString (res_basics r ≫= basics_summary) in
      Some (filter_Boolean ["# About"; EmptyString; summary])
  | experience =>
      Some (foldl pushWork ["# Work Experience"; EmptyString] (default [] (res_work r)))
  | projects =>
      Some (foldl pushProject ["# Projects"; EmptyString] (default [] (res_projects r)))
  | skills =>
      Some (foldl pushSkill ["# Skills"; EmptyString] (default [] (res_skills r)))
  | education =>
      Some (foldl pushEducation ["# Education"; EmptyString]
                  (default [] (res_education r)))
  | training =>
      Some (foldl pushCertificate ["# Training & Certifications"; EmptyString]
                  (default [] (res_certificates r)))
  | contact =>
      Some (foldl pushProfile ["# Contact"; EmptyString]
                  (default [] (res_basics r ≫= basics_profiles)))
  end.
End LiveLines.

(** The heading a section's live rendering opens with. *)
Definition heading (id : SectionId) : string :=
  match id with
  | home => "# Lalit Sharma"
  | about => "# About"
  | experience => "# Work Experience"
  | projects => "# Projects"
  | skills => "# Skills"
  | education => "# Education"
  | training => "# Training & Certifications"
  | contact => "# Contact"
  end.

(** A document with every guarded field missing, as [{}] parses to. *)
Definition emptyResume : Resume := mkResume None None None None None None.

(** ** Vocabulary of the further statements *)

(** The lines one job contributes: its header, one bullet per highlight
    and a blank line. *)
Definition jobLines (w : Work) : list string :=
  (work_position w +:+ " — " +:+ work_name w +:+ " (" +:+ work_startDate w
   +:+ " – " +:+ fmtDate (work_endDate w) +:+ ")")
  :: (String.append "• " <$> default [] (work_highlights w)) ++ [EmptyString].

(** A document whose only content is one job that is still held. *)
Definition oneJob : Resume :=
  mkResume None None
    (Some [mkWork "Magic EdTech" "Software Engineer" "07/2022" None
             (Some ["Led the migration"; "Built components"])])
    None None None.

Definition otherGroup (g : Group) : Group :=
  match g with GLeft => GRight | GRight => GLeft end.

(** A split ratio within the bounds of the second clamp; NaN is not. *)
Definition ratio_in_range (r : float) : Prop :=
  (0.2 <=? r)%float = true ∧ (r <=? 0.8)%float = true.

(** No ASCII white space at either end. *)
Definition trimmed (s : string) : Prop :=
  (∀ c r, s = String c r → is_js_space c = false)
  ∧ (∀ c r, String.rev s = String c r → is_js_space c = false).

(** ** Well-formedness of the workspace *)

(** A group is well formed when its tabs have distinct ids and its active
    tab is one of them; the workspace is well formed when both groups are
    and the left one has a tab. *)
Definition group_ok (g : Group) (s : AppState) : Prop :=
  NoDup (tab_id <$> openTabs g s) ∧ active_is_open g s.

Definition workspace_ok (s : AppState) : Prop :=
  leftOpenTabs s ≠ [] ∧ group_ok GLeft s ∧ group_ok GRight s.

(** The menu entries Close Others and Close to the Right chosen while the
    tab the menu was opened on is not a tab of the left group: a tab of the
    right group, or a left tab that was closed while the menu was open. *)
Definition stray_left_action (e : Event) (s : AppState) : Prop :=
  match e, contextMenu s with
  | MenuClick MenuCloseOthers, Some m
  | MenuClick MenuCloseRight, Some m => menu_tabId m ∉ tab_id <$> leftOpenTabs s
  | _, _ => False
  end.

(** A session in which no such entry is chosen. *)
Fixpoint no_stray (es : list Event) (s : AppState) : Prop :=
  match es with
  | [] => True
  | e :: es' =>
      ¬ stray_left_action e s ∧ ∀ s', handle e s = Some s' → no_stray es' s'
  end.

(** The quotient [clampedX / rect.width] which [onMove] computes for the
    event [e] in the state [s]: there is one when [e] is a [mousemove], the
    listener is on the document and the ref is set. *)
Definition moveQuotient (e : Event) (s : AppState) : option float :=
  match e, resizeListeners s with
  | MouseMove clientX (Some rect), Some offset =>
      let rawX := (clientX - rect_left rect - default 0 offset)%float in
      Some (clampX rawX (rect_width rect) / rect_width rect)%float
  | _, _ => None
  end.

(** A session in which every such quotient is a number. *)
Fixpoint numeric_moves (es : list Event) (s : AppState) : Prop :=
  match es with
  | [] => True
  | e :: es' =>
      (∀ q, moveQuotient e s = Some q → is_nan q = false)
      ∧ ∀ s', handle e s = Some s' → numeric_moves es' s'
  end.

(** ** Vocabulary of the statements about search *)

(** Every character of the byte string [q] is one of the white-space
    characters of ASCII; the empty string qualifies. *)
Definition whitespace_only (q : string) : Prop :=
  ∀ c, c ∈ list_ascii_of_string q → is_js_space c = true.

(** A string of ASCII characters. *)
Definition is_ascii (s : string) : Prop :=
  ∀ c, c ∈ list_ascii_of_string s → (N_of_ascii c < 128)%N.

(** Every code unit of the query [q] is white space of ECMAScript; the
    empty query qualifies. *)
Definition whitespace_only16 (q : JS.JSString) : Prop :=
  Forall (λ c, JS.isWhiteSpace c = true) q.

(** [hay] contains [q] as a substring once both are lower-cased by the
    engine's [toLowerCase], here [lower]. *)
Definition contains_ci16 (lower : JS.JSString → JS.JSString)
    (hay q : JS.JSString) : Prop :=
  ∃ pre post, lower hay = pre ++ lower q ++ post.

(** What is known of the engine's [toLowerCase], here [lower]: on a string
    of ASCII characters it shifts [A-Z] and keeps the rest. *)
Definition folds_ascii (lower : JS.JSString → JS.JSString) : Prop :=
  ∀ s, is_ascii s → lower (JS.ofAscii s) = JS.ofAscii (toLowerCase s).

(** ** Vocabulary of the statements about content loading *)

(** The document one source delivers: the [fetch] must resolve, the
    response must be [ok] and its body must parse; everything else is a
    failure of that source. *)
Definition delivers {Resume} (o : FetchOutcome Resume) : option Resume :=
  match o with
  | Responded true (Some data) => Some data
  | _ => None
  end.

(** A network on which every request is rejected. *)
Definition offline : string → FetchOutcome Empty_set := λ _, NetworkError.

(** ** Scenario states *)

(** Left group [home, about, skills] with [skills] active, as two calls of
    [openSection] produce it. *)
Definition threeTabs : AppState :=
  applyOps [OpOpen (mkSection about "About" "about.md") GLeft;
            OpOpen (mkSection skills "Skills" "skills.ts") GLeft] initialState.

(** Left group [contact] alone: [home] was closed after [contact] was opened. *)
Definition contactOnly : list TabOp :=
  [OpOpen (mkSection contact "Contact" "contact.tsx") GLeft; OpClose home GLeft].

(** [home, about, skills] with the first tab being dragged. *)
Definition draggingFirst : AppState := handleTabDragStart 0 threeTabs.

(** The splitter grabbed at its place (ratio 0.5 of a 1000 px container
    that starts at x = 0) after [about] was split to the right, and the
    pointer then moved to x = 50. *)
Definition grabSplitter : list Event :=
  [ ExplorerClick 1; TabContextMenu GLeft 1 40 10; MenuClick MenuSplitRight;
    SplitterMouseDown 500 (Some (mkRect 0 1000)) ].

Definition pointerAt50 : Event := MouseMove 50 (Some (mkRect 0 1000)).

(** The state in which the context menu is open on [about], the only tab
    of the right group, after [about] was opened and split to the right;
    the left group holds [home] alone. *)
Definition menuOnRightAbout : list Event :=
  [ ExplorerClick 1; TabContextMenu GLeft 1 40 10; MenuClick MenuSplitRight;
    TabContextMenu GRight 0 700 10 ].

(** * Properties *)

(** ** The handlers on the scenarios of the specification *)

Example open_then_close_scenario :
  let contactSec := mkSection contact "Contact" "contact.tsx" in
  let s1 := openSection contactSec GLeft initialState in
  let s2 := closeTab home GLeft s1 in
  let s3 := closeTab contact GLeft s2 in
  (tab_id <$> leftOpenTabs s1, leftActiveTabId s1) = ([home; contact], contact)
  ∧ (tab_id <$> leftOpenTabs s2, leftActiveTabId s2) = ([contact], contact)
  ∧ (leftOpenTabs s3, leftActiveTabId s3) = ([homeTab], home).
Proof. by vm_compute. Qed.

Example close_variants_on_three_tabs :
  (tab_id <$> leftOpenTabs (closeToRight about threeTabs),
   leftActiveTabId (closeToRight about threeTabs)) = ([home; about], about)
  ∧ (tab_id <$> leftOpenTabs (closeOthers about threeTabs),
     leftActiveTabId (closeOthers about threeTabs)) = ([about], about)
  ∧ closeTab about GRight threeTabs = threeTabs.
Proof. by vm_compute. Qed.

Example search_examples :
  sec_id <$> filteredSections "ts" = [experience; projects; skills; training; contact]
  ∧ sec_id <$> filteredSections "HOME" = [home]
  ∧ sec_id <$> filteredSections " md" = []
  ∧ trim "  a b  " = "a b".
Proof. by vm_compute. Qed.

Example Math_max_min_examples :
  (Math_max (-0) 0 = 0 ∧ Math_max 0 (-0) = 0 ∧ Math_min 0 (-0) = -0
   ∧ Math_max nan 1 = nan ∧ Math_min 1 nan = nan
   ∧ Math_max 3 7 = 7 ∧ Math_min 3 7 = 3)%float.
Proof. by vm_compute. Qed.

(** ** Array primitives *)

Lemma findIndex_absent (tabId : SectionId) (arr : list OpenTab) :
  tabId ∉ tab_id <$> arr → findIndex tabId arr = (-1)%Z.
Proof.
  intros Hnot. unfold findIndex.
  destruct (list_find _ arr) as [[i t]|] eqn:Hfind; [|done].
  apply list_find_Some in Hfind as (Hi & Ht & _).
  destruct Hnot. apply list_elem_of_fmap. exists t. split; [done|].
  by eapply list_elem_of_lookup_2.
Qed.

Lemma findIndex_present (tabId : SectionId) (arr : list OpenTab) :
  tabId ∈ tab_id <$> arr →
  ∃ i t, findIndex tabId arr = Z.of_nat i ∧ arr !! i = Some t ∧ tab_id t = tabId
         ∧ Forall (λ u, tab_id u ≠ tabId) (take i arr).
Proof.
  intros (t & Ht & Hin)%list_elem_of_fmap. unfold findIndex.
  destruct (list_find_elem_of (λ u, tab_id u = tabId) arr t Hin) as [[i u] Hfind]; [done|].
  rewrite Hfind. apply list_find_Some in Hfind as (Hi & Hu & Hleast).
  exists i, u. split_and!; [done..|].
  apply Forall_lookup. intros j v Hj.
  apply lookup_take_Some in Hj as [Hj Hlt]. by eapply Hleast.
Qed.

Lemma findIndex_neg (tabId : SectionId) (arr : list OpenTab) :
  findIndex tabId arr = (-1)%Z → tabId ∉ tab_id <$> arr.
Proof.
  intros Hidx Hin. destruct (findIndex_present _ _ Hin) as (i & t & Hi & _). lia.
Qed.

Lemma without_id_all (tabId : SectionId) (arr : list OpenTab) :
  Forall (λ u, tab_id u ≠ tabId) arr → without_id tabId arr = arr.
Proof.
  unfold without_id. induction 1 as [|u arr Hu _ IH]; [done|].
  rewrite filter_cons_True by done. by rewrite IH.
Qed.

(** Removing the tabs with a given id keeps everything before the first of
    them in place. *)
Lemma without_id_split (tabId : SectionId) (arr : list OpenTab) (i : nat) (t : OpenTab) :
  arr !! i = Some t → tab_id t = tabId →
  Forall (λ u, tab_id u ≠ tabId) (take i arr) →
  without_id tabId arr = take i arr ++ without_id tabId (drop (S i) arr).
Proof.
  intros Hi Ht Hbefore.
  rewrite <- (take_drop_middle arr i t Hi) at 1.
  unfold without_id. rewrite filter_app, filter_cons_False by naive_solver.
  f_equal. by apply without_id_all.
Qed.

Lemma without_id_not_elem (tabId : SectionId) (arr : list OpenTab) :
  tabId ∉ tab_id <$> without_id tabId arr.
Proof.
  intros (t & Ht & Hin)%list_elem_of_fmap.
  apply list_elem_of_filter in Hin as [Hne _]. by destruct Hne.
Qed.

Lemma without_id_elem (tabId a : SectionId) (arr : list OpenTab) :
  a ∈ tab_id <$> arr → a ≠ tabId → a ∈ tab_id <$> without_id tabId arr.
Proof.
  intros (t & -> & Hin)%list_elem_of_fmap Hne.
  apply list_elem_of_fmap. exists t. split; [done|].
  by apply list_elem_of_filter.
Qed.

Lemma at_index_nat {A} (arr : list A) (i : nat) :
  at_index arr (Z.of_nat i) = arr !! i.
Proof. unfold at_index. case_decide; [lia|]. by rewrite Nat2Z.id. Qed.

Lemma at_index_elem (arr : list OpenTab) (i : Z) (t : OpenTab) :
  at_index arr i = Some t → tab_id t ∈ tab_id <$> arr.
Proof.
  unfold at_index. case_decide; [done|]. intros Hi.
  apply list_elem_of_fmap. exists t. split; [done|]. by eapply list_elem_of_lookup_2.
Qed.

(** *** Accessors after the setters *)

Lemma openTabs_setOpen (g : Group) (v : list OpenTab) (s : AppState) :
  openTabs g (setOpen g v s) = v.
Proof. by destruct g. Qed.

Lemma activeTabId_setOpen (g : Group) (v : list OpenTab) (s : AppState) :
  activeTabId g (setOpen g v s) = activeTabId g s.
Proof. by destruct g. Qed.

Lemma openTabs_setActive (g : Group) (l : SectionId) (r : option SectionId) (s : AppState) :
  openTabs g (setActive g l r s) = openTabs g s.
Proof. by destruct g. Qed.

(** ** Closing a tab *)

(** What [closeTab] does when the tab is open: the case analysis of the
    source with [findIndex] resolved. *)
Lemma closeTab_present (tabId : SectionId) (g : Group) (s : AppState) :
  tabId ∈ tab_id <$> openTabs g s →
  let next := without_id tabId (openTabs g s) in
  let idx := findIndex tabId (openTabs g s) in
  closeTab tabId g s =
    if decide (activeTabId g s = Some tabId) then
      match (match at_index next (idx - 1) with
             | Some t => Some t
             | None => at_index next idx
             end) with
      | Some fb =>
          setOpen g (if next is [] then emptied g else next)
            (setActive g (tab_id fb) (Some (tab_id fb)) s)
      | None =>
          setOpen g (emptied g) (setActive g home (tab_id <$> at_index next 0) s)
      end
    else setOpen g (if next is [] then emptied g else next) s.
Proof.
  intros Hin next idx. unfold closeTab. fold idx. fold next.
  destruct (findIndex_present _ _ Hin) as (i & t & Hi & _).
  fold idx in Hi. case_decide; [lia|done].
Qed.

Lemma closeTab_absent (tabId : SectionId) (g : Group) (s : AppState) :
  tabId ∉ tab_id <$> openTabs g s → closeTab tabId g s = s.
Proof.
  intros Hnot. unfold closeTab. rewrite (findIndex_absent _ _ Hnot). by case_decide.
Qed.

(** The two candidates of [closeTab]'s fallback, for a tab that is open:
    the candidate at [idx - 1] is the left neighbour of the removed tab in
    the list before the removal; it is missing only when the removed tab
    was the first one, and when both candidates are missing nothing is
    left. *)
Lemma fallback_facts (tabId : SectionId) (prev : list OpenTab) :
  tabId ∈ tab_id <$> prev →
  let idx := findIndex tabId prev in
  let next := without_id tabId prev in
  (∃ t, at_index prev idx = Some t ∧ tab_id t = tabId) ∧
  at_index next (idx - 1) = at_index prev (idx - 1) ∧
  (at_index next (idx - 1) = None → idx = 0%Z) ∧
  (at_index next (idx - 1) = None → at_index next idx = None → next = []).
Proof.
  intros Hin idx next.
  destruct (findIndex_present _ _ Hin) as (i & t & Hi & Hlook & Ht & Hbefore).
  fold idx in Hi.
  assert (Hnext : next = take i prev ++ without_id tabId (drop (S i) prev))
    by by eapply without_id_split.
  assert (Hlen : i < length prev) by by eapply lookup_lt_Some.
  assert (Hleft : at_index next (idx - 1) = at_index prev (idx - 1)).
  { rewrite Hi. destruct i as [|j]; [done|].
    replace (Z.of_nat (S j) - 1)%Z with (Z.of_nat j) by lia.
    rewrite !at_index_nat, Hnext.
    rewrite lookup_app_l by (rewrite length_take; lia).
    apply lookup_take_lt. lia. }
  assert (Hfirst : at_index next (idx - 1) = None → idx = 0%Z).
  { rewrite Hleft, Hi. destruct i as [|j]; [done|].
    replace (Z.of_nat (S j) - 1)%Z with (Z.of_nat j) by lia.
    rewrite at_index_nat. intros Hnone%lookup_ge_None. lia. }
  split_and!; [by exists t; rewrite Hi, at_index_nat|done..|].
  intros Hl Hr. rewrite (Hfirst Hl) in Hr.
  change 0%Z with (Z.of_nat 0) in Hr. rewrite at_index_nat in Hr. by destruct next.
Qed.

(** C1. When [closeTab] removes the active tab of a group, the new active
    tab is the left neighbour of the removed tab (the same tab in the list
    before and after the removal); without a left neighbour it is the tab
    that now sits at the removed tab's index; when nothing is left it is
    [home] on the left group, whose list is reset to the home tab, and
    [null] on the right group.  From [home, about, skills] with [skills]
    active, closing [skills] makes [about] active. *)
Theorem closeTab_active_fallback :
  (∀ (g : Group) (s : AppState) (tabId : SectionId),
     tabId ∈ tab_id <$> openTabs g s →
     activeTabId g s = Some tabId →
     let prev := openTabs g s in
     let idx := findIndex tabId prev in
     let next := without_id tabId prev in
     let s' := closeTab tabId g s in
     (∃ t, at_index prev idx = Some t ∧ tab_id t = tabId) ∧
     at_index next (idx - 1) = at_index prev (idx - 1) ∧
     openTabs g s' = (if next is [] then emptied g else next) ∧
     match at_index next (idx - 1), at_index next idx with
     | Some l, _ => activeTabId g s' = Some (tab_id l)
     | None, Some r => idx = 0%Z ∧ activeTabId g s' = Some (tab_id r)
     | None, None =>
         next = [] ∧
         activeTabId g s' = match g with GLeft => Some home | GRight => None end
     end)
  ∧ (tab_id <$> leftOpenTabs threeTabs = [home; about; skills]
     ∧ leftActiveTabId threeTabs = skills
     ∧ leftActiveTabId (closeTab skills GLeft threeTabs) = about
     ∧ tab_id <$> leftOpenTabs (closeTab skills GLeft threeTabs) = [home; about]).
Proof.
  split; [|by vm_compute].
  intros g s tabId Hin Hact prev idx next s'.
  destruct (fallback_facts _ _ Hin) as (Hat & Hleft & Hfirst & Hnone).
  fold prev idx next in Hat, Hleft, Hfirst, Hnone.
  split; [done|]. split; [done|].
  subst s'. rewrite (closeTab_present _ _ _ Hin). fold prev idx next.
  rewrite decide_True by done.
  destruct (at_index next (idx - 1)) as [l|] eqn:Hl.
  { rewrite openTabs_setOpen. split; [done|]. by destruct g. }
  destruct (at_index next idx) as [r|] eqn:Hr.
  { rewrite openTabs_setOpen. split; [done|]. split; [by apply Hfirst|]. by destruct g. }
  rewrite openTabs_setOpen, (Hnone eq_refl eq_refl).
  split; [done|]. split; [done|]. by destruct g.
Qed.

(** The scenario of C1, obtained from the general rule. *)
Lemma closeTab_active_fallback_witness :
  leftActiveTabId (closeTab skills GLeft threeTabs) = about.
Proof.
  pose proof (proj1 closeTab_active_fallback GLeft threeTabs skills) as H.
  assert (Hin : skills ∈ tab_id <$> openTabs GLeft threeTabs)
    by (vm_compute; apply list_elem_of_In; simpl; tauto).
  specialize (H Hin eq_refl). destruct H as (_ & _ & _ & H).
  change (Some (leftActiveTabId (closeTab skills GLeft threeTabs)) = Some about) in H.
  exact (f_equal (default home) H).
Defined.

(** ** Invariants of opening and closing *)

Lemma append_if_absent_elem (tabId : SectionId) (title : string) (prev : list OpenTab) :
  tabId ∈ tab_id <$> append_if_absent tabId title prev.
Proof.
  unfold append_if_absent, some_id. case_bool_decide as Hsome.
  - apply Exists_exists in Hsome as (t & Hin & Ht).
    apply list_elem_of_fmap. by exists t.
  - rewrite fmap_app. apply elem_of_app. right. by apply list_elem_of_singleton.
Qed.

Lemma append_if_absent_keeps (a tabId : SectionId) (title : string) (prev : list OpenTab) :
  a ∈ tab_id <$> prev → a ∈ tab_id <$> append_if_absent tabId title prev.
Proof.
  unfold append_if_absent. destruct (some_id tabId prev); [done|].
  rewrite fmap_app. intros. apply elem_of_app. by left.
Qed.

Lemma append_if_absent_nonempty (tabId : SectionId) (title : string) (prev : list OpenTab) :
  append_if_absent tabId title prev ≠ [].
Proof.
  pose proof (append_if_absent_elem tabId title prev) as Hin.
  intros Hnil. rewrite Hnil in Hin. by apply not_elem_of_nil in Hin.
Qed.

Lemma openSection_active_is_open (section : Section) (target g : Group) (s : AppState) :
  active_is_open g s → active_is_open g (openSection section target s).
Proof.
  intros Hok a. destruct target, g; simpl.
  - intros [= <-]. apply append_if_absent_elem.
  - apply Hok.
  - apply Hok.
  - intros [= <-]. apply append_if_absent_elem.
Qed.

Lemma openSection_left_nonempty (section : Section) (target : Group) (s : AppState) :
  leftOpenTabs s ≠ [] → leftOpenTabs (openSection section target s) ≠ [].
Proof. destruct target; simpl; [intros _; apply append_if_absent_nonempty|done]. Qed.

(** [closeTab] on one group leaves the other group as it is. *)
Lemma closeTab_other_group (tabId : SectionId) (g g' : Group) (s : AppState) :
  g ≠ g' →
  openTabs g' (closeTab tabId g s) = openTabs g' s
  ∧ activeTabId g' (closeTab tabId g s) = activeTabId g' s.
Proof.
  intros Hne. unfold closeTab.
  repeat (case_decide || case_match); by destruct g, g'.
Qed.

(** The list [closeTab] leaves in a group where the tab was open. *)
Lemma closeTab_openTabs (tabId : SectionId) (g : Group) (s : AppState) :
  tabId ∈ tab_id <$> openTabs g s →
  let next := without_id tabId (openTabs g s) in
  openTabs g (closeTab tabId g s) = if next is [] then emptied g else next.
Proof.
  intros Hin next. rewrite (closeTab_present _ _ _ Hin). fold next.
  destruct (fallback_facts _ _ Hin) as (_ & _ & _ & Hnone). fold next in Hnone.
  case_decide; [|by rewrite openTabs_setOpen].
  destruct (at_index next _) eqn:Hl; [by rewrite openTabs_setOpen|].
  destruct (at_index next (findIndex _ _)) eqn:Hr; rewrite openTabs_setOpen; [done|].
  by rewrite (Hnone eq_refl eq_refl).
Qed.

Lemma closeTab_left_nonempty (tabId : SectionId) (g : Group) (s : AppState) :
  leftOpenTabs s ≠ [] → leftOpenTabs (closeTab tabId g s) ≠ [].
Proof.
  intros Hne. destruct g.
  - destruct (decide (tabId ∈ tab_id <$> openTabs GLeft s)) as [Hin|Hnot].
    + change (openTabs GLeft (closeTab tabId GLeft s) ≠ []).
      rewrite (closeTab_openTabs _ _ _ Hin). by case_match.
    + by rewrite closeTab_absent.
  - change (openTabs GLeft (closeTab tabId GRight s) ≠ []).
    by rewrite (proj1 (closeTab_other_group tabId GRight GLeft s ltac:(done))).
Qed.

Lemma elem_of_kept (a : SectionId) (g : Group) (next : list OpenTab) :
  a ∈ tab_id <$> next → a ∈ tab_id <$> (if next is [] then emptied g else next).
Proof. destruct next; [|done]. by intros ?%not_elem_of_nil. Qed.

Lemma closeTab_active_is_open (tabId : SectionId) (g g' : Group) (s : AppState) :
  active_is_open g' s → active_is_open g' (closeTab tabId g s).
Proof.
  intros Hok. destruct (decide (g = g')) as [<-|Hne]; last first.
  { intros a. destruct (closeTab_other_group tabId g g' s Hne) as [-> ->]. apply Hok. }
  destruct (decide (tabId ∈ tab_id <$> openTabs g s)) as [Hin|Hnot];
    [|by rewrite closeTab_absent].
  intros a. rewrite (closeTab_openTabs _ _ _ Hin).
  rewrite (closeTab_present _ _ _ Hin).
  destruct (fallback_facts _ _ Hin) as (_ & _ & _ & Hnone).
  set (next := without_id tabId (openTabs g s)) in *.
  case_decide as Hact.
  - destruct (at_index next _) as [l|] eqn:Hl.
    { replace (activeTabId g _) with (Some (tab_id l)) by by destruct g.
      intros [= <-]. by eapply elem_of_kept, at_index_elem. }
    destruct (at_index next (findIndex _ _)) as [r|] eqn:Hr.
    { replace (activeTabId g _) with (Some (tab_id r)) by by destruct g.
      intros [= <-]. by eapply elem_of_kept, at_index_elem. }
    rewrite (Hnone eq_refl eq_refl). destruct g; simpl; [|done].
    intros [= <-]. by apply list_elem_of_singleton.
  - rewrite activeTabId_setOpen. intros Ha.
    apply elem_of_kept, without_id_elem; [by apply Hok|]. congruence.
Qed.

(** The left group after any sequence of [openSection] and [closeTab]
    calls: it has a tab, and its active tab is one of its tabs. *)
Lemma applyOps_left_invariant (os : list TabOp) (s : AppState) :
  leftOpenTabs s ≠ [] ∧ active_is_open GLeft s →
  leftOpenTabs (applyOps os s) ≠ [] ∧ active_is_open GLeft (applyOps os s).
Proof.
  revert s. induction os as [|o os IH]; intros s [Hne Hok]; [done|].
  apply IH. destruct o; simpl.
  - split; [by apply openSection_left_nonempty|by apply openSection_active_is_open].
  - split; [by apply closeTab_left_nonempty|by apply closeTab_active_is_open].
Qed.

Lemma initialState_left_invariant :
  leftOpenTabs initialState ≠ [] ∧ active_is_open GLeft initialState.
Proof.
  split; [done|]. intros a [= <-]. by apply list_elem_of_singleton.
Qed.

(** C3. After any finite sequence of [openSection] and [closeTab] calls
    from the initial state the left group has at least one tab; closing
    its last remaining tab resets the list to the home tab alone and makes
    [home] the active tab. *)
Theorem left_group_never_empty (os : list TabOp) :
  let s := applyOps os initialState in
  leftOpenTabs s ≠ [] ∧
  ∀ t, leftOpenTabs s = [t] →
       leftOpenTabs (closeTab (tab_id t) GLeft s) = [homeTab]
       ∧ leftActiveTabId (closeTab (tab_id t) GLeft s) = home.
Proof.
  intros s.
  destruct (applyOps_left_invariant os initialState initialState_left_invariant)
    as [Hne Hok].
  fold s in Hne, Hok. split; [done|]. intros t Hsingle.
  assert (Hact : leftActiveTabId s = tab_id t).
  { specialize (Hok (leftActiveTabId s) eq_refl). simpl in Hok.
    rewrite Hsingle in Hok. by apply list_elem_of_singleton in Hok. }
  assert (Hin : tab_id t ∈ tab_id <$> openTabs GLeft s).
  { simpl. rewrite Hsingle. by apply list_elem_of_singleton. }
  rewrite (closeTab_present _ _ _ Hin). simpl. rewrite Hsingle, Hact.
  rewrite decide_True by done.
  unfold without_id. rewrite filter_cons_False by naive_solver.
  rewrite filter_nil. by unfold at_index; repeat case_decide.
Qed.

(** The scenario of the specification: after [open(contact)] and
    [close(home)] the left group holds [contact] alone, and closing it
    restores the home tab. *)
Lemma left_group_never_empty_witness :
  leftOpenTabs (closeTab contact GLeft (applyOps contactOnly initialState)) = [homeTab]
  ∧ leftActiveTabId (closeTab contact GLeft (applyOps contactOnly initialState)) = home.
Proof.
  exact (proj2 (left_group_never_empty contactOnly)
               (mkTab contact "Contact") eq_refl).
Defined.

(** ** Drag and drop of left tabs *)

Lemma splice_in_Permutation {A} (i : nat) (x : A) (arr : list A) :
  splice_in i x arr ≡ₚ x :: arr.
Proof.
  unfold splice_in. rewrite <- Permutation_middle. by rewrite take_drop.
Qed.

Lemma splice_in_lookup {A} (i : nat) (x : A) (arr : list A) :
  i ≤ length arr → splice_in i x arr !! i = Some x.
Proof.
  intros Hi. unfold splice_in. apply list_lookup_middle. by rewrite length_take_le.
Qed.

Lemma splice_in_delete {A} (i : nat) (x : A) (arr : list A) :
  i ≤ length arr → delete i (splice_in i x arr) = arr.
Proof.
  intros Hi. unfold splice_in.
  rewrite <- (length_take_le arr i Hi) at 1.
  by rewrite delete_middle, take_drop.
Qed.

(** A drop that completes, with the dragged tab resolved. *)
Lemma handleTabDrop_moved (index d : nat) (moved : OpenTab) (s : AppState) :
  dragIndex s = Some d → leftOpenTabs s !! d = Some moved → index ≠ d →
  handleTabDrop index s =
    Some (setDragOverIndex None (setDragIndex None
            (setLeftOpenTabs
               (splice_in (if decide (d < index) then index - 1 else index) moved
                          (delete d (leftOpenTabs s))) s))).
Proof.
  intros Hd Hm Hne. unfold handleTabDrop, splice_out.
  rewrite Hd, Hm. by rewrite decide_False.
Qed.

(** C5. With both indices in range, dropping the tab dragged from
    [dragIndex] onto the tab at [index] permutes the left list: the dragged
    tab ends at the insertion index ([index - 1] when it came from before
    the target, [index] otherwise), the list without it is the old list
    without it, so the other tabs keep their order, and dropping a tab
    onto itself changes nothing. *)
Theorem handleTabDrop_permutation (s : AppState) (d index : nat) :
  dragIndex s = Some d →
  d < length (leftOpenTabs s) →
  index < length (leftOpenTabs s) →
  ∃ s' moved,
    handleTabDrop index s = Some s'
    ∧ leftOpenTabs s !! d = Some moved
    ∧ leftOpenTabs s' ≡ₚ leftOpenTabs s
    ∧ tab_id <$> leftOpenTabs s' ≡ₚ tab_id <$> leftOpenTabs s
    ∧ (index = d → leftOpenTabs s' = leftOpenTabs s)
    ∧ (index ≠ d →
       let insertIndex := if decide (d < index) then index - 1 else index in
       leftOpenTabs s' !! insertIndex = Some moved
       ∧ delete insertIndex (leftOpenTabs s') = delete d (leftOpenTabs s)).
Proof.
  intros Hd Hdlt Hilt.
  destruct (lookup_lt_is_Some_2 _ _ Hdlt) as [moved Hm].
  destruct (decide (index = d)) as [->|Hne].
  { exists (setDragOverIndex None (setDragIndex None s)), moved.
    unfold handleTabDrop. rewrite Hd, decide_True by done.
    by split_and!. }
  set (next := splice_in (if decide (d < index) then index - 1 else index) moved
                         (delete d (leftOpenTabs s))).
  exists (setDragOverIndex None (setDragIndex None (setLeftOpenTabs next s))), moved.
  change (leftOpenTabs (setDragOverIndex None _)) with next.
  assert (Hperm : next ≡ₚ leftOpenTabs s).
  { subst next. rewrite splice_in_Permutation. symmetry. by apply delete_Permutation. }
  split_and!; [by apply handleTabDrop_moved|done..|by rewrite Hperm|done|].
  intros _ insertIndex. subst next. fold insertIndex.
  assert (insertIndex ≤ length (delete d (leftOpenTabs s))).
  { rewrite length_delete by done. subst insertIndex. case_decide; lia. }
  split; [by apply splice_in_lookup|by apply splice_in_delete].
Qed.

(** C5 on [home, about, skills]: dragging [home] onto [skills] gives
    [about, home, skills]. *)
Lemma handleTabDrop_permutation_witness :
  ∃ s', handleTabDrop 2 draggingFirst = Some s'
        ∧ tab_id <$> leftOpenTabs s' = [about; home; skills]
        ∧ leftOpenTabs s' ≡ₚ leftOpenTabs draggingFirst.
Proof.
  destruct (handleTabDrop_permutation draggingFirst 0 2 eq_refl)
    as (s' & moved & Hdrop & _ & Hperm & _); [vm_compute; lia..|].
  exists s'. split; [done|]. split; [|done].
  vm_compute in Hdrop. by injection Hdrop as <-.
Defined.

(** C10. A drop that completes changes the order of the left tabs and
    clears the two drag indices; the left active tab, the right group, the
    split ratio and every other cell are what they were. *)
Theorem handleTabDrop_frame (index : nat) (s s' : AppState) :
  handleTabDrop index s = Some s' →
  leftActiveTabId s' = leftActiveTabId s
  ∧ rightOpenTabs s' = rightOpenTabs s
  ∧ rightActiveTabId s' = rightActiveTabId s
  ∧ splitRatio s' = splitRatio s
  ∧ query s' = query s
  ∧ contextMenu s' = contextMenu s
  ∧ isResizing s' = isResizing s
  ∧ dragOffsetPx s' = dragOffsetPx s
  ∧ leftOpenTabs s' ≡ₚ leftOpenTabs s.
Proof.
  unfold handleTabDrop, splice_out. intros Hdrop.
  destruct (dragIndex s) as [d|]; [|by injection Hdrop as <-].
  case_decide; [by injection Hdrop as <-|].
  destruct (leftOpenTabs s !! d) as [moved|] eqn:Hm; [|done].
  injection Hdrop as <-. simpl. split_and!; try done.
  rewrite splice_in_Permutation. symmetry. by apply delete_Permutation.
Qed.

Lemma handleTabDrop_frame_witness :
  ∃ s', handleTabDrop 2 draggingFirst = Some s'
        ∧ leftActiveTabId s' = skills
        ∧ rightOpenTabs s' = []
        ∧ rightActiveTabId s' = None
        ∧ splitRatio s' = splitRatio draggingFirst.
Proof.
  destruct (handleTabDrop 2 draggingFirst) as [s'|] eqn:Hdrop; [|by vm_compute in Hdrop].
  destruct (handleTabDrop_frame 2 draggingFirst s' Hdrop) as (H1 & H2 & H3 & H4 & _).
  exists s'. by rewrite H1, H2, H3, H4.
Defined.

(** ** Search *)

Lemma prefix_spec (a b : string) :
  String.prefix a b = true ↔ ∃ post, b = a +:+ post.
Proof.
  revert b. induction a as [|c a IH]; intros b; simpl.
  - split; [intros _; by exists b|by destruct b].
  - destruct b as [|c' b]; simpl.
    + split; [done|]. by intros [post Hpost].
    + destruct (ascii_dec c c') as [->|Hne].
      * rewrite IH. split; intros [post Hpost]; exists post; [by rewrite Hpost|].
        by injection Hpost.
      * split; [done|]. intros [post Hpost]. injection Hpost as ??. congruence.
Qed.

Lemma includes_spec (hay needle : string) :
  includes hay needle = true ↔ ∃ pre post, hay = pre +:+ needle +:+ post.
Proof.
  induction hay as [|c hay IH]; cbn [includes].
  - rewrite orb_false_r, prefix_spec. split.
    + intros [post Hpost]. by exists EmptyString, post.
    + intros (pre & post & Hpre). destruct pre; [by exists post|done].
  - rewrite orb_true_iff, prefix_spec, IH. split.
    + intros [[post Hpost]|(pre & post & Hpre)].
      * by exists EmptyString, post.
      * exists (String c pre), post. by rewrite Hpre.
    + intros (pre & post & Hpre). destruct pre as [|c' pre].
      * left. by exists post.
      * right. exists pre, post. by injection Hpre.
Qed.

Lemma rev_app_chars (s1 s2 : string) :
  list_ascii_of_string (String.rev_app s1 s2)
  = reverse (list_ascii_of_string s1) ++ list_ascii_of_string s2.
Proof.
  revert s2. induction s1 as [|c s1 IH]; intros s2; simpl; [done|].
  by rewrite IH, reverse_cons, <- app_assoc.
Qed.

Lemma rev_chars (s : string) :
  list_ascii_of_string (String.rev s) = reverse (list_ascii_of_string s).
Proof. unfold String.rev. by rewrite rev_app_chars, app_nil_r. Qed.

Lemma chars_nil (s : string) : list_ascii_of_string s = [] → s = EmptyString.
Proof. by destruct s. Qed.

Lemma trimStart_empty (s : string) :
  trimStart s = EmptyString ↔ whitespace_only s.
Proof.
  unfold whitespace_only. induction s as [|c s IH]; simpl.
  - split; [|done]. by intros _ c ?%not_elem_of_nil.
  - destruct (is_js_space c) eqn:Hc.
    + rewrite IH. split.
      * intros Hall c' [->|Hin]%elem_of_cons; auto.
      * intros Hall c' Hin. apply Hall. by right.
    + split; [done|]. intros Hall.
      rewrite Hall in Hc by by left. done.
Qed.

(** What [trimStart] returns does not start with white space. *)
Lemma trimStart_head (s : string) (c : ascii) (r : string) :
  trimStart s = String c r → is_js_space c = false.
Proof.
  induction s as [|c' s IH]; simpl; [done|].
  destruct (is_js_space c') eqn:Hc; [done|]. by intros [= <- <-].
Qed.

Lemma is_blank_spec (q : string) : is_blank q = true ↔ whitespace_only q.
Proof.
  rewrite <- trimStart_empty. unfold is_blank, trim. split.
  - intros Hblank.
    destruct (String.rev (trimStart (String.rev (trimStart q)))) eqn:Hrev; [|done].
    apply (f_equal list_ascii_of_string) in Hrev. rewrite rev_chars in Hrev.
    apply (f_equal reverse) in Hrev. rewrite reverse_involutive in Hrev.
    apply chars_nil, trimStart_empty in Hrev.
    destruct (trimStart q) as [|c r] eqn:Hq; [done|].
    apply trimStart_head in Hq. rewrite Hrev in Hq; [done|].
    rewrite rev_chars, elem_of_reverse. by left.
  - by intros ->.
Qed.

Lemma filter_sublist {A} (f : A → bool) (l : list A) : List.filter f l `sublist_of` l.
Proof.
  induction l as [|x l IH]; simpl; [done|].
  destruct (f x); [by apply sublist_skip|by apply sublist_cons].
Qed.

(** *** The search on UTF-16 strings *)

Lemma trimStart16_empty (s : JS.JSString) :
  JS.trimStart s = [] ↔ whitespace_only16 s.
Proof.
  unfold whitespace_only16. induction s as [|c s IH]; simpl; [done|].
  destruct (JS.isWhiteSpace c) eqn:Hc.
  - rewrite IH. split; [by constructor|]. by intros [_ ?]%Forall_cons.
  - split; [done|]. intros [Hc' _]%Forall_cons. congruence.
Qed.

Lemma trimStart16_head (s : JS.JSString) (c : N) (r : JS.JSString) :
  JS.trimStart s = c :: r → JS.isWhiteSpace c = false.
Proof.
  induction s as [|c' s IH]; simpl; [done|].
  destruct (JS.isWhiteSpace c') eqn:Hc; [done|]. by intros [= <- <-].
Qed.

(** [trim] leaves the empty string exactly of a string of white space. *)
Lemma trim16_empty (q : JS.JSString) : JS.trim q = [] ↔ whitespace_only16 q.
Proof.
  rewrite <- trimStart16_empty. unfold JS.trim. split; [|by intros ->].
  intros Hrev. apply (f_equal reverse) in Hrev.
  rewrite reverse_involutive, reverse_nil in Hrev.
  apply trimStart16_empty in Hrev.
  destruct (JS.trimStart q) as [|c r] eqn:Hq; [done|].
  apply trimStart16_head in Hq. unfold whitespace_only16 in Hrev.
  rewrite reverse_cons, Forall_app, Forall_singleton in Hrev. destruct Hrev. congruence.
Qed.

Lemma startsWith_spec (hay needle : JS.JSString) :
  JS.startsWith hay needle = true ↔ ∃ post, hay = needle ++ post.
Proof.
  revert hay. induction needle as [|c needle IH]; intros hay; simpl.
  - split; [intros _; by exists hay|done].
  - destruct hay as [|d hay]; [split; [done|by intros [post ?]]|].
    rewrite andb_true_iff, N.eqb_eq, IH. split.
    + intros [-> [post ->]]. by exists post.
    + intros [post [= -> ->]]. split; [done|by exists post].
Qed.

Lemma includes16_spec (hay needle : JS.JSString) :
  JS.includes hay needle = true ↔ ∃ pre post, hay = pre ++ needle ++ post.
Proof.
  induction hay as [|c hay IH]; cbn [JS.includes].
  - rewrite orb_false_r, startsWith_spec. split.
    + intros [post Hpost]. by exists [], post.
    + intros (pre & post & Hpre). destruct pre; [by exists post|done].
  - rewrite orb_true_iff, startsWith_spec, IH. split.
    + intros [[post Hpost]|(pre & post & Hpre)].
      * by exists [], post.
      * exists (c :: pre), post. by rewrite Hpre.
    + intros (pre & post & Hpre). destruct pre as [|c' pre].
      * left. by exists post.
      * right. injection Hpre as _ Hpre. by exists pre, post.
Qed.

(** On strings of ASCII characters the two embeddings of the search agree. *)
Lemma ofAscii_app (a b : string) : JS.ofAscii (a +:+ b) = JS.ofAscii a ++ JS.ofAscii b.
Proof.
  unfold JS.ofAscii. rewrite <- fmap_app. f_equal.
  induction a as [|c a IH]; simpl; [done|]. by rewrite <- IH.
Qed.

Lemma N_of_ascii_inj (c d : ascii) : N_of_ascii c = N_of_ascii d → c = d.
Proof. intros Heq. by rewrite <- (ascii_N_embedding c), Heq, ascii_N_embedding. Qed.

Lemma ofAscii_inj (a b : string) : JS.ofAscii a = JS.ofAscii b → a = b.
Proof.
  revert b. induction a as [|c a IH]; intros [|d b]; try done.
  intros [= Hc%N_of_ascii_inj Hrest]. f_equal; [done|by apply IH].
Qed.

Lemma ofAscii_prefix (hay pre post : string) (rest : JS.JSString) :
  JS.ofAscii hay = JS.ofAscii pre ++ rest → ∃ post, hay = pre +:+ post ∧ rest = JS.ofAscii post.
Proof.
  revert hay. induction pre as [|c pre IH]; intros hay; simpl.
  - intros <-. by exists hay.
  - destruct hay as [|d hay]; [done|].
    intros [= ->%N_of_ascii_inj Hrest]. destruct (IH hay Hrest) as (p & -> & ->).
    by exists p.
Qed.

Lemma includes_ofAscii (hay needle : string) :
  JS.includes (JS.ofAscii hay) (JS.ofAscii needle) = includes hay needle.
Proof.
  apply eq_true_iff_eq. rewrite includes16_spec, includes_spec. split.
  - intros (pre & post & Hhay). revert hay Hhay.
    induction pre as [|c pre IH]; intros hay Hhay.
    + destruct (ofAscii_prefix hay needle EmptyString post Hhay) as (p & -> & _).
      by exists EmptyString, p.
    + destruct hay as [|d hay]; [done|]. injection Hhay as Hd Hhay.
      destruct (IH hay Hhay) as (pre' & post' & ->).
      by exists (String d pre'), post'.
  - intros (pre & post & ->). exists (JS.ofAscii pre), (JS.ofAscii post).
    by rewrite !ofAscii_app.
Qed.

Lemma isWhiteSpace_ascii (c : ascii) :
  (N_of_ascii c < 128)%N → JS.isWhiteSpace (N_of_ascii c) = is_js_space c.
Proof. by destruct c as [[] [] [] [] [] [] [] []]. Qed.

Lemma is_ascii_cons (c : ascii) (s : string) :
  is_ascii (String c s) ↔ (N_of_ascii c < 128)%N ∧ is_ascii s.
Proof.
  unfold is_ascii. simpl. split.
  - intros Hall. split; [by apply Hall; left|]. intros d Hd. by apply Hall; right.
  - intros [Hc Hs] d [->|Hd]%elem_of_cons; auto.
Qed.

Lemma whitespace_only_ofAscii (q : string) :
  is_ascii q → whitespace_only16 (JS.ofAscii q) ↔ whitespace_only q.
Proof.
  unfold whitespace_only16, whitespace_only, JS.ofAscii.
  induction q as [|c q IH]; simpl.
  - intros _. split; [by intros _ c ?%not_elem_of_nil|by constructor].
  - intros [Hc Hq]%is_ascii_cons. rewrite Forall_cons, (IH Hq), isWhiteSpace_ascii by done.
    split.
    + intros [Hws Hall] d [->|Hd]%elem_of_cons; auto.
    + intros Hall. split; [by apply Hall; left|]. intros d Hd. by apply Hall; right.
Qed.

(** Every title and file path of the catalog is a string of ASCII
    characters. *)
Lemma SECTIONS_ascii (s : Section) :
  s ∈ SECTIONS → is_ascii (sec_title s) ∧ is_ascii (sec_filePath s).
Proof.
  intros Hin. apply list_elem_of_In in Hin. simpl in Hin.
  repeat destruct Hin as [<-|Hin]; try done;
    (split; intros c Hc; apply list_elem_of_In in Hc; simpl in Hc;
     repeat destruct Hc as [<-|Hc]; done).
Qed.

Lemma toLowerCase_is_ascii (s : string) : is_ascii s → is_ascii (toLowerCase s).
Proof.
  induction s as [|c s IH]; simpl; [done|].
  intros [Hc Hs]%is_ascii_cons. apply is_ascii_cons. split; [|by apply IH].
  revert Hc. by destruct c as [[] [] [] [] [] [] [] []].
Qed.

Lemma foldUnits_folds_ascii : folds_ascii JS.foldUnits.
Proof.
  intros s _. unfold JS.foldUnits, JS.ofAscii.
  induction s as [|c s IH]; simpl; [done|]. f_equal; [|done].
  by destruct c as [[] [] [] [] [] [] [] []].
Qed.

Section SearchProperties.

Variable lower : JS.JSString → JS.JSString.
Hypothesis lower_folds_ascii : folds_ascii lower.

Lemma matches_query_ascii (q : string) (s : Section) :
  s ∈ SECTIONS →
  JS.matches_query lower (JS.ofAscii q) s = matches_query q s.
Proof.
  intros [Htitle Hpath]%SECTIONS_ascii. unfold JS.matches_query, matches_query.
  by rewrite !lower_folds_ascii, !includes_ofAscii.
Qed.

(** On a query of ASCII characters the search on UTF-16 strings returns
    what the search on byte strings returns. *)
Lemma filteredSections_ascii (q : string) :
  is_ascii q → JS.filteredSections lower (JS.ofAscii q) = filteredSections q.
Proof.
  intros Hq. unfold JS.filteredSections, filteredSections.
  destruct (is_blank q) eqn:Hblank.
  - apply is_blank_spec, (whitespace_only_ofAscii q Hq), trim16_empty in Hblank.
    by rewrite Hblank.
  - destruct (JS.trim (JS.ofAscii q)) eqn:Htrim.
    + apply trim16_empty, (whitespace_only_ofAscii q Hq), is_blank_spec in Htrim.
      congruence.
    + rewrite lower_folds_ascii by done.
      assert (Hall : ∀ l : list Section, (∀ s, s ∈ l → s ∈ SECTIONS) →
                List.filter (JS.matches_query lower (JS.ofAscii (toLowerCase q))) l
                = List.filter (matches_query (toLowerCase q)) l).
      { induction l as [|s l IH]; intros Hsub; simpl; [done|].
        rewrite matches_query_ascii by (apply Hsub; by left).
        rewrite IH; [done|]. intros s' Hs'. apply Hsub. by right. }
      by apply Hall.
Qed.

(** C9. [filteredSections] returns the whole catalog, eight sections, for
    an empty query and for a query of white space only (the white space of
    ECMAScript, NO-BREAK SPACE and the other space characters of Unicode
    included); for any other query it returns, in catalog order, exactly
    the sections whose title or file path contains the query once the
    engine's [toLowerCase] is applied to both; a query that matches no
    section yields the empty list, and Enter on an empty result list
    changes nothing: no tab is opened and the query stays. *)
Theorem filteredSections_spec :
  (∀ q, whitespace_only16 q → JS.filteredSections lower q = SECTIONS)
  ∧ (∀ q, ¬ whitespace_only16 q →
       JS.filteredSections lower q `sublist_of` SECTIONS
       ∧ ∀ s, s ∈ JS.filteredSections lower q ↔
              s ∈ SECTIONS
              ∧ (contains_ci16 lower (JS.ofAscii (sec_title s)) q
                 ∨ contains_ci16 lower (JS.ofAscii (sec_filePath s)) q))
  ∧ (∀ q, ¬ whitespace_only16 q →
       (∀ s, s ∈ SECTIONS →
             ¬ contains_ci16 lower (JS.ofAscii (sec_title s)) q
             ∧ ¬ contains_ci16 lower (JS.ofAscii (sec_filePath s)) q) →
       JS.filteredSections lower q = [])
  ∧ length SECTIONS = 8
  ∧ JS.filteredSections lower [] = SECTIONS
  ∧ JS.filteredSections lower (JS.ofAscii "xyz-no-match") = []
  ∧ (∀ q s, JS.filteredSections lower q = [] →
            searchKeyDownOn (JS.filteredSections lower q) Enter s = s).
Proof.
  assert (Hexact : ∀ q, ¬ whitespace_only16 q → ∀ s,
            s ∈ JS.filteredSections lower q ↔
            s ∈ SECTIONS
            ∧ (contains_ci16 lower (JS.ofAscii (sec_title s)) q
               ∨ contains_ci16 lower (JS.ofAscii (sec_filePath s)) q)).
  { intros q Hq s. unfold JS.filteredSections.
    destruct (JS.trim q) eqn:Htrim; [by apply trim16_empty in Htrim|].
    rewrite !list_elem_of_In, filter_In. unfold JS.matches_query, contains_ci16.
    by rewrite orb_true_iff, !includes16_spec. }
  split_and!; [| | |done..| |].
  - intros q Hq%trim16_empty. unfold JS.filteredSections. by rewrite Hq.
  - intros q Hq. split; [|by apply Hexact]. unfold JS.filteredSections.
    destruct (JS.trim q); [done|apply filter_sublist].
  - intros q Hq Hnone. apply elem_of_nil_inv. intros s [Hin Hs]%Hexact; [|done].
    destruct (Hnone s Hin) as [Ht Hp]. by destruct Hs.
  - rewrite filteredSections_ascii; [done|].
    intros c Hc. apply list_elem_of_In in Hc. simpl in Hc.
    repeat destruct Hc as [<-|Hc]; done.
  - intros q s Hnone. unfold searchKeyDownOn. by rewrite Hnone.
Qed.

End SearchProperties.

(** C9 with a lower-casing that folds [A-Z] and the KELVIN SIGN: a query of
    a NO-BREAK SPACE and a SPACE returns the whole catalog, the query of a
    KELVIN SIGN finds the skills section, and Enter after a query that
    matches nothing leaves the state as it is. *)
Lemma filteredSections_spec_witness :
  JS.filteredSections JS.foldUnits [0xA0; 0x20]%N = SECTIONS
  ∧ (mkSection skills "Skills" "skills.ts" ∈ JS.filteredSections JS.foldUnits [0x212A]%N)
  ∧ searchKeyDownOn (JS.filteredSections JS.foldUnits (JS.ofAscii "xyz-no-match"))
      Enter initialState
    = initialState.
Proof.
  destruct (filteredSections_spec JS.foldUnits foldUnits_folds_ascii)
    as (Hblank & Hmatch & _ & _ & _ & Hnone & Henter).
  split_and!.
  - apply Hblank. by repeat constructor.
  - apply Hmatch.
    + by intros [Hws _]%Forall_cons.
    + split; [apply list_elem_of_In; simpl; tauto|].
      left. by exists [0x73]%N, (JS.ofAscii "ills").
  - by apply Henter.
Defined.

(** ** Content loading and the home section *)

Section ContentProperties.
Context {Resume : Type}.
Variable network : string → FetchOutcome Resume.
Variable linesFromLoaded : Resume → SectionId → option (list string).

(** The four ways [load] can go, by what the two sources deliver. *)
Lemma loaded_cases :
  loaded network =
    match delivers (network primary) with
    | Some data => (mkContent (Some data) false, [primary])
    | None => (mkContent (delivers (network fallback)) false, [primary; fallback])
    end.
Proof.
  unfold loaded, load, try_finally, try_catch, fetch, json, setResume,
    setResumeLoading, throw, delivers, mbind, mret, Async_bind, Async_ret.
  simpl.
  destruct (network primary) as [|[] []]; simpl; try done;
    by destruct (network fallback) as [|[] []].
Qed.

(** C7. [load] requests the primary source first and, when that source
    fails in any way, the fallback source; when both fail the document is
    [null]; in every case the loading flag is off once [load] has settled,
    and with the document at [null] the home section then renders the
    static copy, which starts with the name and the job title, and not the
    loading placeholder that is shown before. *)
Theorem load_falls_through :
  let c := (loaded network).1 in
  let log := (loaded network).2 in
  resumeLoading c = false
  ∧ match delivers (network primary) with
    | Some data => resume c = Some data ∧ log = [primary]
    | None => resume c = delivers (network fallback) ∧ log = [primary; fallback]
    end
  ∧ (delivers (network primary) = None → delivers (network fallback) = None →
     resume c = None
     ∧ renderEditorContent linesFromLoaded c home = staticLines home
     ∧ take 2 (renderEditorContent linesFromLoaded c home)
       = ["# Lalit Sharma"; "Software Engineer"]
     ∧ renderEditorContent linesFromLoaded c home ≠ loadingLines)
  ∧ renderEditorContent linesFromLoaded initialContent home = loadingLines.
Proof.
  intros c log. subst c log. rewrite loaded_cases.
  split_and!.
  - by destruct (delivers (network primary)).
  - by destruct (delivers (network primary)).
  - by intros -> ->.
  - done.
Qed.
End ContentProperties.

(** C7 with every request rejected: both URLs are tried, in order, and the
    home section shows the static copy. *)
Lemma load_falls_through_witness :
  (loaded offline).2 = [primary; fallback]
  ∧ renderEditorContent (λ r _, match r : Empty_set with end) (loaded offline).1 home
    = staticLines home.
Proof.
  destruct (load_falls_through offline (λ r _, match r with end))
    as (_ & Hlog & Hboth & _).
  split; [apply Hlog|]. by apply Hboth.
Defined.

(** ** Splitter drag *)

Lemma SFcompare_antisym (x y : spec_float) :
  SFcompare y x = option_map CompOpp (SFcompare x y).
Proof.
  destruct x as [sx|sx| |sx mx ex], y as [sy|sy| |sy my ey]; simpl;
    try done; try (by destruct sx); try (by destruct sy);
    try (by destruct sx, sy).
  f_equal. rewrite (Z.compare_antisym ex ey).
  destruct sx, sy; try done; destruct (ex ?= ey)%Z; simpl; try done;
    by rewrite (Pos.compare_cont_antisym mx my Eq).
Qed.

Lemma not_nan_Prim2SF (a : float) : is_nan a = false → Prim2SF a ≠ S754_nan.
Proof.
  unfold is_nan. rewrite negb_false_iff, FloatAxioms.eqb_spec. unfold SFeqb.
  by intros Heq Hnan; rewrite Hnan in Heq.
Qed.

Lemma SFeqb_refl (x : spec_float) : x ≠ S754_nan → SFeqb x x = true.
Proof.
  destruct x as [[]|[]| |[] m e]; try done; intros _; unfold SFeqb, SFcompare;
    by rewrite Z.compare_refl, Pos.compare_cont_refl.
Qed.

Lemma Prim2SF_not_nan (a : float) : Prim2SF a ≠ S754_nan → is_nan a = false.
Proof.
  intros Ha. unfold is_nan. by rewrite negb_false_iff, FloatAxioms.eqb_spec, SFeqb_refl.
Qed.

Lemma not_nan_compare (a b : float) :
  is_nan a = false → is_nan b = false →
  is_Some (SFcompare (Prim2SF a) (Prim2SF b)).
Proof.
  intros Ha%not_nan_Prim2SF Hb%not_nan_Prim2SF.
  destruct (Prim2SF a) as [?|?| |? ? ?], (Prim2SF b) as [?|?| |? ? ?];
    simpl; by eauto.
Qed.

Lemma leb_not_nan (a b : float) :
  (a <=? b)%float = true → is_nan a = false ∧ is_nan b = false.
Proof.
  rewrite FloatAxioms.leb_spec. unfold SFleb. intros Hle.
  split; apply Prim2SF_not_nan; intros Hnan; rewrite Hnan in Hle;
    [done|by destruct (Prim2SF a)].
Qed.

(** Two numbers are ordered one way, the other way, or compare equal. *)
Lemma float_trichotomy (a b : float) :
  is_nan a = false → is_nan b = false →
  ((a <? b)%float = true ∧ (a <=? b)%float = true)
  ∨ ((a <? b)%float = false ∧ (b <? a)%float = true ∧ (b <=? a)%float = true)
  ∨ ((a <? b)%float = false ∧ (b <? a)%float = false
     ∧ (a <=? b)%float = true ∧ (b <=? a)%float = true).
Proof.
  intros Ha Hb. destruct (not_nan_compare a b Ha Hb) as [c Hc].
  rewrite !FloatAxioms.ltb_spec, !FloatAxioms.leb_spec. unfold SFltb, SFleb.
  rewrite (SFcompare_antisym (Prim2SF a) (Prim2SF b)), Hc.
  destruct c; simpl; auto 10.
Qed.

Lemma float_le_refl (a : float) : is_nan a = false → (a <=? a)%float = true.
Proof.
  intros Ha. destruct (float_trichotomy a a Ha Ha) as [[_ ?]|[(_ & _ & ?)|(_ & _ & ? & _)]]; done.
Qed.

Lemma Math_max_spec (a b : float) :
  is_nan a = false → is_nan b = false →
  (Math_max a b = a ∨ Math_max a b = b)
  ∧ (a <=? Math_max a b)%float = true ∧ (b <=? Math_max a b)%float = true.
Proof.
  intros Ha Hb. unfold Math_max. rewrite Ha, Hb. simpl.
  pose proof (float_le_refl a Ha). pose proof (float_le_refl b Hb).
  destruct (float_trichotomy a b Ha Hb)
    as [[-> ?]|[(-> & -> & ?)|(-> & -> & ? & ?)]]; [auto..|].
  destruct (get_sign a); auto.
Qed.

Lemma Math_min_spec (a b : float) :
  is_nan a = false → is_nan b = false →
  (Math_min a b = a ∨ Math_min a b = b)
  ∧ (Math_min a b <=? a)%float = true ∧ (Math_min a b <=? b)%float = true.
Proof.
  intros Ha Hb. unfold Math_min. rewrite Ha, Hb. simpl.
  pose proof (float_le_refl a Ha). pose proof (float_le_refl b Hb).
  destruct (float_trichotomy a b Ha Hb)
    as [[-> ?]|[(-> & -> & ?)|(-> & -> & ? & ?)]]; [auto..|].
  destruct (get_sign a); auto.
Qed.

(** [Math.min(Math.max(x, lo), hi)] lies between [lo] and [hi] whenever
    [lo] is at most [hi] and [x] is a number. *)
Lemma clamp_between (x lo hi : float) :
  is_nan x = false → (lo <=? hi)%float = true →
  (lo <=? Math_min (Math_max x lo) hi)%float = true
  ∧ (Math_min (Math_max x lo) hi <=? hi)%float = true.
Proof.
  intros Hx Hle. destruct (leb_not_nan _ _ Hle) as [Hlo Hhi].
  destruct (Math_max_spec x lo Hx Hlo) as (Hmax & _ & Hge).
  assert (is_nan (Math_max x lo) = false) as Hm by (by destruct Hmax as [-> | ->]).
  destruct (Math_min_spec (Math_max x lo) hi Hm Hhi) as (Hmin & _ & Hlehi).
  split; [|done]. by destruct Hmin as [-> | ->].
Qed.

(** Two numbers that compare equal are the same value, or both are zeros
    (of either sign). *)
Lemma SFcompare_Eq (x y : spec_float) :
  SFcompare x y = Some Eq →
  x = y ∨ (∃ s s', x = S754_zero s ∧ y = S754_zero s').
Proof.
  destruct x as [sx|sx| |sx mx ex], y as [sy|sy| |sy my ey]; simpl;
    try done; try (by destruct sx); try (by destruct sy).
  - intros _. right. by eexists _, _.
  - destruct sx, sy; (done || by left).
  - destruct sx, sy; try done; destruct (ex ?= ey)%Z eqn:He; try done;
      apply Z.compare_eq in He as ->; intros [= Hm]; left; f_equal;
      apply Pos.compare_eq; unfold Pos.compare;
      by destruct (Pos.compare_cont Eq mx my).
Qed.

(** Where [a <= b] holds, [a < b] holds, or the two compare equal. *)
Lemma float_le_cases (a b : float) :
  (a <=? b)%float = true →
  ((a <? b)%float = true ∧ (b <? a)%float = false)
  ∨ ((a <? b)%float = false ∧ (b <? a)%float = false
     ∧ (a = b ∨ ((a =? 0)%float = true ∧ (b =? 0)%float = true))).
Proof.
  intros Hle. destruct (leb_not_nan _ _ Hle) as [Ha Hb].
  destruct (not_nan_compare a b Ha Hb) as [c Hc]. revert Hle.
  rewrite !FloatAxioms.ltb_spec, !FloatAxioms.leb_spec, !FloatAxioms.eqb_spec.
  unfold SFltb, SFleb, SFeqb.
  rewrite (SFcompare_antisym (Prim2SF a) (Prim2SF b)), Hc.
  destruct c; simpl; try done; [|by left]. intros _. right. split_and!; [done..|].
  destruct (SFcompare_Eq _ _ Hc) as [Heq|(sa & sb & Hza & Hzb)].
  - left. by apply FloatAxioms.Prim2SF_inj.
  - right. rewrite Hza, Hzb. by destruct sa, sb.
Qed.

(** A number that is at least a positive number is not a zero. *)
Lemma float_pos_le (lo x : float) :
  (0 <? lo)%float = true → (lo <=? x)%float = true → (x =? 0)%float = false.
Proof.
  rewrite FloatAxioms.ltb_spec, FloatAxioms.leb_spec, FloatAxioms.eqb_spec.
  unfold SFltb, SFleb, SFeqb. change (Prim2SF 0) with (S754_zero false).
  destruct (Prim2SF lo) as [[]|[]| |[] ? ?], (Prim2SF x) as [[]|[]| |[] ? ?];
    simpl; done.
Qed.

Lemma ltb_not_nan (a b : float) :
  (a <? b)%float = true → is_nan a = false ∧ is_nan b = false.
Proof.
  rewrite FloatAxioms.ltb_spec. unfold SFltb. intros Hlt.
  split; apply Prim2SF_not_nan; intros Hnan; rewrite Hnan in Hlt;
    [done|by destruct (Prim2SF a)].
Qed.

Lemma float_pos_nonzero (lo : float) :
  (0 <? lo)%float = true → (lo =? 0)%float = false.
Proof.
  intros Hpos. apply (float_pos_le lo lo Hpos), float_le_refl.
  by destruct (ltb_not_nan _ _ Hpos).
Qed.

(** [Math.max] and [Math.min] of two ordered numbers that are not both
    zeros. *)
Lemma Math_max_le (a b : float) :
  (a <=? b)%float = true → (a =? 0)%float = false ∨ (b =? 0)%float = false →
  Math_max a b = b ∧ Math_max b a = b.
Proof.
  intros Hle Hnz. destruct (leb_not_nan _ _ Hle) as [Ha Hb].
  unfold Math_max. rewrite Ha, Hb. simpl.
  destruct (float_le_cases a b Hle) as [[-> ->]|(-> & -> & [->|[Hza Hzb]])].
  - done.
  - by destruct (get_sign b).
  - rewrite Hza, Hzb in Hnz. by destruct Hnz.
Qed.

Lemma Math_min_le (a b : float) :
  (a <=? b)%float = true → (a =? 0)%float = false ∨ (b =? 0)%float = false →
  Math_min a b = a ∧ Math_min b a = a.
Proof.
  intros Hle Hnz. destruct (leb_not_nan _ _ Hle) as [Ha Hb].
  unfold Math_min. rewrite Ha, Hb. simpl.
  destruct (float_le_cases a b Hle) as [[-> ->]|(-> & -> & [->|[Hza Hzb]])].
  - done.
  - by destruct (get_sign b).
  - rewrite Hza, Hzb in Hnz. by destruct Hnz.
Qed.

Lemma Math_nan (a b : float) :
  is_nan a = true ∨ is_nan b = true → Math_max a b = nan ∧ Math_min a b = nan.
Proof.
  intros Hnan. unfold Math_max, Math_min.
  by assert (is_nan a || is_nan b = true) as -> by (by apply orb_true_iff).
Qed.

Lemma SFleb_trans (x y z : spec_float) :
  SFleb x y = true → SFleb y z = true → SFleb x z = true.
Proof.
  unfold SFleb.
  destruct x as [[]|[]| |[] mx ex], y as [[]|[]| |[] my ey], z as [[]|[]| |[] mz ez];
    simpl; try done;
    change (Pos.compare_cont Eq ?a ?b) with (Pos.compare a b);
    destruct (Z.compare_spec ex ey), (Z.compare_spec ey ez), (Z.compare_spec ex ez);
    simpl; try done; try lia;
    destruct (Pos.compare_spec mx my), (Pos.compare_spec my mz), (Pos.compare_spec mx mz);
    simpl; try done; lia.
Qed.

Lemma float_le_trans (a b c : float) :
  (a <=? b)%float = true → (b <=? c)%float = true → (a <=? c)%float = true.
Proof. rewrite !FloatAxioms.leb_spec. apply SFleb_trans. Qed.

Lemma float_le_total (a b : float) :
  is_nan a = false → is_nan b = false →
  (a <=? b)%float = true ∨ (b <=? a)%float = true.
Proof.
  intros Ha Hb.
  destruct (float_trichotomy a b Ha Hb) as [[_ ?]|[(_ & _ & ?)|(_ & _ & ? & _)]]; auto.
Qed.

(** [Math.min(Math.max(x, lo), hi)] for a positive [lo], case by case.
    Where [lo] is at most [hi], an [x] within the bounds is kept, a lower
    one is raised to [lo] and a higher one lowered to [hi].  The outer
    [Math.min] has the last word: where [hi] is at most [lo], the result is
    [hi] for every number [x].  NaN gives NaN. *)
Lemma clamp_cases (x lo hi : float) :
  (0 <? lo)%float = true →
  let c := Math_min (Math_max x lo) hi in
  ((lo <=? x)%float = true → (x <=? hi)%float = true → c = x)
  ∧ ((x <=? lo)%float = true → (lo <=? hi)%float = true → c = lo)
  ∧ ((lo <=? hi)%float = true → (hi <=? x)%float = true → c = hi)
  ∧ ((hi <=? lo)%float = true → is_nan x = false → c = hi)
  ∧ (is_nan x = true ∨ is_nan hi = true → c = nan).
Proof.
  intros Hpos c. subst c. pose proof (float_pos_nonzero lo Hpos) as Hlo.
  destruct (ltb_not_nan _ _ Hpos) as [_ Hnum].
  assert (Hhigh : (lo <=? x)%float = true → (hi <=? x)%float = true →
                  Math_min (Math_max x lo) hi = hi).
  { intros Hlox Hhix. pose proof (float_pos_le lo x Hpos Hlox) as Hx.
    destruct (Math_max_le lo x Hlox) as [_ ->]; [by left|].
    destruct (Math_min_le hi x Hhix) as [_ ->]; [by right|done]. }
  split_and!.
  - intros Hlox Hxhi. pose proof (float_pos_le lo x Hpos Hlox) as Hx.
    destruct (Math_max_le lo x Hlox) as [_ ->]; [by left|].
    destruct (Math_min_le x hi Hxhi) as [-> _]; [by left|done].
  - intros Hxlo Hlohi.
    destruct (Math_max_le x lo Hxlo) as [-> _]; [by right|].
    destruct (Math_min_le lo hi Hlohi) as [-> _]; [by left|done].
  - intros Hlohi Hhix. apply Hhigh; [|done]. by apply (float_le_trans lo hi x).
  - intros Hhilo Hx. destruct (float_le_total x lo Hx Hnum) as [Hxlo|Hlox].
    + destruct (Math_max_le x lo Hxlo) as [-> _]; [by right|].
      destruct (Math_min_le hi lo Hhilo) as [_ ->]; [by right|done].
    + apply Hhigh; [done|]. by apply (float_le_trans hi lo x).
  - intros [Hx|Hhi].
    + destruct (Math_nan x lo) as [-> _]; [by left|]. by apply Math_nan; left.
    + by apply Math_nan; right.
Qed.

(** C8. [onMove] stores
    [Math.min(Math.max(clampedX / width, 0.2), 0.8)] for
    [clampedX = Math.min(Math.max(rawX, 100), width - 100)] and
    [rawX = clientX - left - offset], where [offset] is the grab offset
    the listener holds (0 when it is null).  On a container of at least
    200 px the first clamp keeps a position between 100 and [width - 100],
    raises a lower one to 100 and lowers a higher one to [width - 100]; on
    a narrower container the result is [width - 100], at most 100, for
    every position.  The second clamp keeps a quotient between 0.2 and 0.8,
    raises a lower one to 0.2 and lowers a higher one to 0.8.  NaN passes
    through both clamps.  On a 1000 px container a position of 50 px is
    raised to 100 px, the quotient is 0.1, and the stored ratio is 0.2. *)
Theorem onMove_clamps :
  (∀ offset clientX rect s,
     let rawX := (clientX - rect_left rect - default 0 offset)%float in
     let ratio := (clampX rawX (rect_width rect) / rect_width rect)%float in
     onMove true offset clientX (Some rect) s = setSplitRatio (clampRatio ratio) s
     ∧ (resizeListeners s = Some offset →
        handle (MouseMove clientX (Some rect)) s
        = Some (setSplitRatio (clampRatio ratio) s)))
  ∧ (∀ rawX width,
       let hi := (width - 100)%float in
       ((100 <=? hi)%float = true →
          ((100 <=? rawX)%float = true → (rawX <=? hi)%float = true →
             clampX rawX width = rawX)
          ∧ ((rawX <=? 100)%float = true → clampX rawX width = 100%float)
          ∧ ((hi <=? rawX)%float = true → clampX rawX width = hi)
          ∧ (is_nan rawX = false →
               (100 <=? clampX rawX width)%float = true
               ∧ (clampX rawX width <=? hi)%float = true))
       ∧ ((hi <=? 100)%float = true → is_nan rawX = false →
            clampX rawX width = hi)
       ∧ (is_nan rawX = true ∨ is_nan hi = true → clampX rawX width = nan))
  ∧ (∀ ratio,
       ((0.2 <=? ratio)%float = true → (ratio <=? 0.8)%float = true →
          clampRatio ratio = ratio)
       ∧ ((ratio <=? 0.2)%float = true → clampRatio ratio = 0.2%float)
       ∧ ((0.8 <=? ratio)%float = true → clampRatio ratio = 0.8%float)
       ∧ (is_nan ratio = true → clampRatio ratio = nan))
  ∧ (clampX 50 1000 = 100%float
     ∧ (100 / 1000)%float = 0.1%float
     ∧ clampRatio 0.1 = 0.2%float
     ∧ run (grabSplitter ++ [pointerAt50]) initialState
       = setSplitRatio 0.2 <$> run grabSplitter initialState
     ∧ splitRatio <$> run (grabSplitter ++ [pointerAt50]) initialState
       = Some 0.2%float).
Proof.
  split_and!.
  - intros offset clientX rect s rawX ratio. split; [done|]. intros Hlisten.
    unfold handle, resizeEffect. simpl. rewrite Hlisten. simpl.
    by rewrite bool_decide_eq_true_2.
  - intros rawX width hi.
    destruct (clamp_cases rawX 100 hi eq_refl) as (Hkeep & Hlow & Hhigh & Hnarrow & Hnan).
    split_and!; [|done..]. intros Hwide. split_and!.
    + done.
    + intros Hbelow. by apply Hlow.
    + by apply Hhigh.
    + intros HrawX. by apply clamp_between.
  - intros ratio.
    destruct (clamp_cases ratio 0.2 0.8 eq_refl) as (Hkeep & Hlow & Hhigh & _ & Hnan).
    split_and!.
    + done.
    + intros Hbelow. by apply Hlow.
    + by apply Hhigh.
    + intros Hnum. by apply Hnan; left.
  - by vm_compute.
  - by vm_compute.
  - by vm_compute.
  - by vm_compute.
  - by vm_compute.
Qed.

(** C8 on a 1000 px container: 400 px is kept and gives the ratio 0.4,
    950 px is lowered to 900 px and its ratio 0.9 to 0.8. *)
Lemma onMove_clamps_witness :
  clampX 400 1000 = 400%float
  ∧ clampRatio (400 / 1000) = (400 / 1000)%float
  ∧ clampX 950 1000 = (1000 - 100)%float
  ∧ clampRatio (900 / 1000) = 0.8%float.
Proof.
  destruct onMove_clamps as (_ & Hpx & Hratio & _).
  destruct (Hpx 400%float 1000%float) as (Hwide & _).
  destruct (Hwide eq_refl) as (Hkeep & _ & Hlower & _).
  destruct (Hpx 950%float 1000%float) as (Hwide' & _).
  destruct (Hwide' eq_refl) as (_ & _ & Hlower' & _).
  destruct (Hratio (400 / 1000)%float) as (Hsame & _).
  destruct (Hratio (900 / 1000)%float) as (_ & _ & Hmax & _).
  split_and!; [by apply Hkeep|by apply Hsame|by apply Hlower'|by apply Hmax].
Defined.

(** The first clamp does not keep 100 px on either side of the position:
    on a container 150 px wide it yields [150 - 100], which is 50 px,
    whatever the position.  In a session: the splitter is grabbed on a
    container of 1000 px, the container narrows to 150 px while the button
    is held, and the pointer moves to 140 px; the position is lowered to
    50 px and the ratio stored is a third. *)
Lemma clampX_below_100_on_narrow_container :
  clampX 140 150 = 50%float
  ∧ (clampX 140 150 <? 100)%float = true
  ∧ clampX 20 150 = 50%float
  ∧ splitRatio <$> run (grabSplitter ++ [MouseMove 140 (Some (mkRect 0 150))]) initialState
    = Some (50 / 150)%float.
Proof. by vm_compute. Qed.

(** ** Moving a tab to the other group *)

Lemma SECTIONS_find (tabId : SectionId) :
  ∃ section, List.find (λ sec, bool_decide (sec_id sec = tabId)) SECTIONS = Some section
             ∧ sec_id section = tabId ∧ section ∈ SECTIONS.
Proof.
  destruct tabId; eexists; (split; [reflexivity|]); (split; [reflexivity|]);
    apply list_elem_of_In; simpl; tauto.
Qed.

Lemma some_id_spec (tabId : SectionId) (arr : list OpenTab) :
  some_id tabId arr = true ↔ tabId ∈ tab_id <$> arr.
Proof.
  unfold some_id. rewrite bool_decide_eq_true, Exists_exists, list_elem_of_fmap.
  split; intros (t & Ht1 & Ht2); by exists t.
Qed.

Lemma append_if_absent_present (tabId : SectionId) (title : string) (prev : list OpenTab) :
  tabId ∈ tab_id <$> prev → append_if_absent tabId title prev = prev.
Proof. intros Hin%some_id_spec. unfold append_if_absent. by rewrite Hin. Qed.

Lemma append_if_absent_fresh (tabId : SectionId) (title : string) (prev : list OpenTab) :
  tabId ∉ tab_id <$> prev → append_if_absent tabId title prev = prev ++ [mkTab tabId title].
Proof.
  intros Hnot. unfold append_if_absent.
  destruct (some_id tabId prev) eqn:Hsome; [|done]. by apply some_id_spec in Hsome.
Qed.

Lemma append_if_absent_idemp (tabId : SectionId) (title : string) (prev : list OpenTab) :
  append_if_absent tabId title (append_if_absent tabId title prev)
  = append_if_absent tabId title prev.
Proof. apply append_if_absent_present, append_if_absent_elem. Qed.

Lemma append_if_absent_NoDup (tabId : SectionId) (title : string) (prev : list OpenTab) :
  NoDup (tab_id <$> prev) → NoDup (tab_id <$> append_if_absent tabId title prev).
Proof.
  intros Hnd. destruct (decide (tabId ∈ tab_id <$> prev)) as [Hin|Hnot].
  - by rewrite append_if_absent_present.
  - rewrite append_if_absent_fresh, fmap_app by done. apply NoDup_app.
    split_and!; [done| |apply NoDup_singleton].
    intros a Ha ->%list_elem_of_singleton. done.
Qed.

Lemma without_id_NoDup (tabId : SectionId) (arr : list OpenTab) :
  NoDup (tab_id <$> arr) → NoDup (tab_id <$> without_id tabId arr).
Proof.
  intros Hnd. eapply sublist_NoDup; [done|]. apply fmap_sublist, sublist_filter.
Qed.

(** [arr.find(t => t.id !== tabId)] is the first tab that the matching
    [filter] keeps. *)
Lemma find_other_head (tabId : SectionId) (arr : list OpenTab) :
  find_other tabId arr = head (without_id tabId arr).
Proof.
  unfold find_other, without_id. induction arr as [|t arr IH]; [done|].
  cbn [list_find]. rewrite filter_cons. case_decide; [done|].
  rewrite <- IH. by destruct (list_find _ arr) as [[??]|].
Qed.

(** With distinct ids, a list of at least two tabs keeps a tab when those
    with one id are removed. *)
Lemma without_id_two (tabId : SectionId) (arr : list OpenTab) :
  NoDup (tab_id <$> arr) → 2 ≤ length arr → without_id tabId arr ≠ [].
Proof.
  destruct arr as [|t1 [|t2 arr]]; simpl; [lia..|]. intros Hnd _ Hnil.
  apply NoDup_cons in Hnd as [Hnotin _].
  assert (tab_id t1 = tabId ∧ tab_id t2 = tabId) as [H1 H2].
  { unfold without_id in Hnil.
    split; apply dec_stable; intros Hne;
      eapply (filter_nil_not_elem_of _ _ _ Hnil Hne); [by left|by right; left]. }
  apply Hnotin. rewrite H1, <- H2. by left.
Qed.

(** [splitTab] in terms of the two groups, with the catalog lookup
    resolved. *)
Lemma splitTab_spec (tabId : SectionId) (dest src : Group) (s : AppState) :
  ∃ section,
    section ∈ SECTIONS ∧ sec_id section = tabId
    ∧ openTabs dest (splitTab tabId dest src s)
      = append_if_absent tabId (sec_title section) (openTabs dest s)
    ∧ activeTabId dest (splitTab tabId dest src s) = Some tabId
    ∧ (src ≠ dest →
       openTabs src (splitTab tabId dest src s) = without_id tabId (openTabs src s)
       ∧ activeTabId src (splitTab tabId dest src s)
         = if decide (activeTabId src s = Some tabId)
           then match src with
                | GLeft => Some (default home (tab_id <$> find_other tabId (openTabs src s)))
                | GRight => tab_id <$> find_other tabId (openTabs src s)
                end
           else activeTabId src s).
Proof.
  destruct (SECTIONS_find tabId) as (section & Hfind & Hid & Hin).
  exists section. unfold splitTab. rewrite Hfind.
  destruct dest, src; simpl; repeat case_decide; simpl;
    (split_and!; [done..|]); intros Hne; try done; congruence.
Qed.

(** The source group of a move that the menu offers: with distinct ids and
    at least two tabs it keeps a tab, and its active tab is one of its
    tabs. *)
Lemma splitTab_source_ok (tabId : SectionId) (dest src : Group) (s : AppState) :
  src ≠ dest →
  NoDup (tab_id <$> openTabs src s) → 2 ≤ length (openTabs src s) →
  active_is_open src s →
  openTabs src (splitTab tabId dest src s) ≠ []
  ∧ active_is_open src (splitTab tabId dest src s).
Proof.
  intros Hne Hnd Htwo Hok.
  destruct (splitTab_spec tabId dest src s) as (_ & _ & _ & _ & _ & Hsrc).
  destruct (Hsrc Hne) as [Htabs Hactive].
  pose proof (without_id_two tabId _ Hnd Htwo) as Hkept.
  split; [by rewrite Htabs|].
  intros a. rewrite Htabs, Hactive, find_other_head. case_decide as Hwas.
  - destruct (without_id tabId (openTabs src s)) as [|first rest]; [done|].
    destruct src; simpl; intros [= <-]; by left.
  - intros Ha. apply without_id_elem; [by apply Hok|]. congruence.
Qed.

(** C4, as amended.  [splitTab] appends the tab to the destination list
    exactly when no tab of that id is there, so distinct ids stay distinct
    and a second move changes nothing there, and makes it the destination's
    active tab.  When the source is the other group, the tab is removed
    from the source list; if it was the source's active tab, the first tab
    that remains becomes active, and the right group is left empty with no
    active tab when none remains; any other active tab stays.  The menu
    offers the move only while the source holds at least two tabs: the
    source then keeps a tab, and its active tab is one of its tabs. *)
Theorem splitTab_moves (tabId : SectionId) (dest src : Group) (s : AppState) :
  let s' := splitTab tabId dest src s in
  (tabId ∈ tab_id <$> openTabs dest s → openTabs dest s' = openTabs dest s)
  ∧ (tabId ∉ tab_id <$> openTabs dest s →
     ∃ section, section ∈ SECTIONS ∧ sec_id section = tabId
                ∧ openTabs dest s' = openTabs dest s ++ [mkTab tabId (sec_title section)])
  ∧ (NoDup (tab_id <$> openTabs dest s) → NoDup (tab_id <$> openTabs dest s'))
  ∧ openTabs dest (splitTab tabId dest src s') = openTabs dest s'
  ∧ activeTabId dest s' = Some tabId
  ∧ (src ≠ dest →
     openTabs src s' = without_id tabId (openTabs src s)
     ∧ (activeTabId src s ≠ Some tabId → activeTabId src s' = activeTabId src s)
     ∧ (activeTabId src s = Some tabId →
        match head (openTabs src s') with
        | Some first => activeTabId src s' = Some (tab_id first)
        | None => src = GRight → activeTabId src s' = None
        end)
     ∧ (NoDup (tab_id <$> openTabs src s) → 2 ≤ length (openTabs src s) →
        active_is_open src s →
        openTabs src s' ≠ [] ∧ active_is_open src s')).
Proof.
  intros s'. subst s'.
  destruct (splitTab_spec tabId dest src s) as (section & Hin & Hid & Hdest & Hact & Hsrc).
  destruct (splitTab_spec tabId dest src (splitTab tabId dest src s))
    as (section' & Hin' & Hid' & Hdest' & _).
  split_and!.
  - intros Hpresent. by rewrite Hdest, append_if_absent_present.
  - intros Hfresh. exists section. by rewrite Hdest, append_if_absent_fresh.
  - intros Hnd. rewrite Hdest. by apply append_if_absent_NoDup.
  - rewrite Hdest', Hdest. apply append_if_absent_present, append_if_absent_elem.
  - done.
  - intros Hne. destruct (Hsrc Hne) as [Htabs Hactive]. rewrite Htabs, Hactive.
    rewrite find_other_head. split_and!; [done|..].
    + intros Hother. by rewrite decide_False.
    + intros Hwas. rewrite decide_True by done.
      destruct (head _) as [first|]; [by destruct src|]. by intros ->.
    + intros Hnd Htwo Hok.
      destruct (splitTab_source_ok tabId dest src s Hne Hnd Htwo Hok) as [Hkept Hok'].
      by rewrite Htabs in Hkept.
Qed.

(** C4 on [home, about, skills] with [skills] active: moved to the right,
    [skills] is the right group's only and active tab, and [home], the
    first tab that remains on the left, becomes active there. *)
Lemma splitTab_moves_witness :
  tab_id <$> rightOpenTabs (splitTab skills GRight GLeft threeTabs) = [skills]
  ∧ tab_id <$> leftOpenTabs (splitTab skills GRight GLeft threeTabs) = [home; about]
  ∧ leftActiveTabId (splitTab skills GRight GLeft threeTabs) = home.
Proof.
  destruct (splitTab_moves skills GRight GLeft threeTabs)
    as (_ & Hfresh & _ & _ & _ & Hsrc).
  destruct Hfresh as (section & _ & _ & Hright); [by intros ?%not_elem_of_nil|].
  destruct Hsrc as (Hleft & _ & Hfirst & _); [done|].
  specialize (Hfirst eq_refl).
  change (openTabs GRight (splitTab skills GRight GLeft threeTabs))
    with (rightOpenTabs (splitTab skills GRight GLeft threeTabs)) in Hright.
  change (openTabs GLeft (splitTab skills GRight GLeft threeTabs))
    with (leftOpenTabs (splitTab skills GRight GLeft threeTabs)) in Hleft, Hfirst.
  rewrite Hright. rewrite Hleft in Hfirst |- *.
  split; [done|]. split; [done|].
  exact (f_equal (default home) Hfirst).
Defined.

(** C4 as stated fails: with [skills] active in [home, about, skills],
    closing [skills] makes its left neighbour [about] active, while moving
    it to the right group makes [home] active; and moving the only tab out
    of the left group leaves the left list empty instead of resetting it to
    the home tab. *)
Lemma splitTab_is_not_the_close_rule :
  leftActiveTabId (closeTab skills GLeft threeTabs) = about
  ∧ leftActiveTabId (splitTab skills GRight GLeft threeTabs) = home
  ∧ leftActiveTabId (splitTab skills GRight GLeft threeTabs)
    ≠ leftActiveTabId (closeTab skills GLeft threeTabs)
  ∧ tab_id <$> leftOpenTabs (applyOps contactOnly initialState) = [contact]
  ∧ leftOpenTabs (splitTab contact GRight GLeft (applyOps contactOnly initialState)) = []
  ∧ leftOpenTabs (splitTab contact GRight GLeft (applyOps contactOnly initialState))
    ≠ [homeTab].
Proof. by vm_compute. Qed.

(** ** Close Others and Close to the Right on a tab that is not open on the left *)

Lemma closeToRight_absent (tabId : SectionId) (s : AppState) :
  tabId ∉ tab_id <$> leftOpenTabs s →
  closeToRight tabId s = setLeftActiveTabId tabId (setLeftOpenTabs (leftOpenTabs s) s).
Proof.
  intros Hnot. unfold closeToRight. rewrite (findIndex_absent _ _ Hnot).
  by rewrite decide_True.
Qed.

Lemma closeOthers_absent (tabId : SectionId) (s : AppState) :
  tabId ∉ tab_id <$> leftOpenTabs s →
  closeOthers tabId s = setLeftActiveTabId tabId (setLeftOpenTabs [] s).
Proof.
  intros Hnot. unfold closeOthers, only_id. f_equal. f_equal.
  apply elem_of_nil_inv. intros t [Ht Hin]%list_elem_of_filter.
  apply Hnot, list_elem_of_fmap. by exists t.
Qed.

(** C6, the code at a failing input.  The context menu is open on [about],
    which is a tab of the right group and not of the left one.  Its entry
    Close to the Right calls [closeToRight about]: the left list stays
    [home], but the left active tab changes from [home] to [about]. *)
Theorem closeToRight_absent_changes_state :
  ∃ s, run menuOnRightAbout initialState = Some s
       ∧ (about ∉ tab_id <$> leftOpenTabs s)
       ∧ leftActiveTabId s = home
       ∧ handle (MenuClick MenuCloseRight) s = Some (closeMenu (closeToRight about s))
       ∧ leftOpenTabs (closeToRight about s) = leftOpenTabs s
       ∧ leftActiveTabId (closeToRight about s) = about
       ∧ closeToRight about s ≠ s.
Proof.
  eexists. split; [by vm_compute|].
  split_and!; try done.
  by intros ?%list_elem_of_singleton.
Qed.

(** C2, the code at a failing input.  In the same state the left and the
    right group both have their active tab among their tabs.  Close to the
    Right then leaves the left group with the tab [home] and the active
    tab [about]; Close Others leaves it with no tab at all and the active
    tab [about]. *)
Theorem menu_on_right_tab_breaks_active_is_open :
  ∃ s, run menuOnRightAbout initialState = Some s
       ∧ active_is_open GLeft s ∧ active_is_open GRight s
       ∧ (∃ s1, handle (MenuClick MenuCloseRight) s = Some s1
                ∧ leftOpenTabs s1 = [homeTab] ∧ leftActiveTabId s1 = about
                ∧ ¬ active_is_open GLeft s1)
       ∧ (∃ s2, handle (MenuClick MenuCloseOthers) s = Some s2
                ∧ leftOpenTabs s2 = [] ∧ leftActiveTabId s2 = about
                ∧ ¬ active_is_open GLeft s2).
Proof.
  eexists. split; [by vm_compute|].
  split_and!.
  - intros a [= <-]. by left.
  - intros a [= <-]. by left.
  - eexists. split; [by vm_compute|]. split_and!; [done..|].
    intros Hok. specialize (Hok about eq_refl).
    by apply list_elem_of_singleton in Hok.
  - eexists. split; [by vm_compute|]. split_and!; [done..|].
    intros Hok. specialize (Hok about eq_refl).
    by apply not_elem_of_nil in Hok.
Qed.

(** ** Well-formedness of the workspace along a session *)

(** Well-formedness only reads the four workspace cells. *)
Lemma workspace_ok_ext (s s' : AppState) :
  leftOpenTabs s' = leftOpenTabs s → leftActiveTabId s' = leftActiveTabId s →
  rightOpenTabs s' = rightOpenTabs s → rightActiveTabId s' = rightActiveTabId s →
  workspace_ok s → workspace_ok s'.
Proof.
  unfold workspace_ok, group_ok, active_is_open. simpl.
  by intros -> -> -> ->.
Qed.

Lemma initialState_ok : workspace_ok initialState.
Proof.
  split; [done|]. split; (split; [|intros a [= <-]; by left]).
  - apply NoDup_singleton.
  - by apply NoDup_nil.
Qed.

Lemma openSection_ok (section : Section) (target : Group) (s : AppState) :
  workspace_ok s → workspace_ok (openSection section target s).
Proof.
  intros (Hne & [Hndl Hokl] & [Hndr Hokr]). unfold workspace_ok, group_ok. split_and!.
  - by apply openSection_left_nonempty.
  - destruct target; simpl; [by apply append_if_absent_NoDup|done].
  - by apply openSection_active_is_open.
  - destruct target; simpl; [done|by apply append_if_absent_NoDup].
  - by apply openSection_active_is_open.
Qed.

Lemma emptied_NoDup (g : Group) : NoDup (tab_id <$> emptied g).
Proof. destruct g; simpl; [apply NoDup_singleton|by apply NoDup_nil]. Qed.

Lemma closeTab_NoDup (tabId : SectionId) (g g' : Group) (s : AppState) :
  NoDup (tab_id <$> openTabs g' s) → NoDup (tab_id <$> openTabs g' (closeTab tabId g s)).
Proof.
  intros Hnd. destruct (decide (g = g')) as [<-|Hne];
    [|by rewrite (proj1 (closeTab_other_group tabId g g' s Hne))].
  destruct (decide (tabId ∈ tab_id <$> openTabs g s)) as [Hin|Hnot];
    [|by rewrite closeTab_absent].
  rewrite (closeTab_openTabs _ _ _ Hin).
  pose proof (without_id_NoDup tabId _ Hnd). pose proof (emptied_NoDup g).
  by destruct (without_id tabId (openTabs g s)).
Qed.

Lemma closeTab_ok (tabId : SectionId) (g : Group) (s : AppState) :
  workspace_ok s → workspace_ok (closeTab tabId g s).
Proof.
  intros (Hne & [Hndl Hokl] & [Hndr Hokr]). unfold workspace_ok, group_ok. split_and!.
  - by apply closeTab_left_nonempty.
  - by apply (closeTab_NoDup tabId g GLeft).
  - by apply closeTab_active_is_open.
  - by apply (closeTab_NoDup tabId g GRight).
  - by apply closeTab_active_is_open.
Qed.

Lemma only_id_elem (tabId : SectionId) (arr : list OpenTab) :
  tabId ∈ tab_id <$> arr → tabId ∈ tab_id <$> only_id tabId arr.
Proof.
  intros (t & Ht & Hin)%list_elem_of_fmap. apply list_elem_of_fmap.
  exists t. split; [done|]. by apply list_elem_of_filter.
Qed.

Lemma nonempty_elem (a : SectionId) (tabs : list OpenTab) :
  a ∈ tab_id <$> tabs → tabs ≠ [].
Proof. intros Hin ->. by apply not_elem_of_nil in Hin. Qed.

(** Replacing the left list and the left active tab together. *)
Lemma left_update_ok (tabs : list OpenTab) (a : SectionId) (s : AppState) :
  NoDup (tab_id <$> tabs) → a ∈ tab_id <$> tabs → group_ok GRight s →
  workspace_ok (setLeftActiveTabId a (setLeftOpenTabs tabs s)).
Proof.
  intros Hnd Hin Hright. split; [by eapply nonempty_elem|]. split; [|done].
  split; [done|]. by intros ? [= <-].
Qed.

Lemma closeOthers_ok (tabId : SectionId) (s : AppState) :
  tabId ∈ tab_id <$> leftOpenTabs s →
  workspace_ok s → workspace_ok (closeOthers tabId s).
Proof.
  intros Hin (Hne & [Hndl Hokl] & Hright). apply left_update_ok; [| |done].
  - eapply sublist_NoDup; [exact Hndl|]. apply fmap_sublist, sublist_filter.
  - by apply only_id_elem.
Qed.

Lemma closeToRight_ok (tabId : SectionId) (s : AppState) :
  tabId ∈ tab_id <$> leftOpenTabs s →
  workspace_ok s → workspace_ok (closeToRight tabId s).
Proof.
  intros Hin (Hne & [Hndl Hokl] & Hright).
  destruct (findIndex_present _ _ Hin) as (i & t & Hi & Hlook & Ht & _).
  unfold closeToRight. rewrite Hi, decide_False by lia.
  apply left_update_ok; [| |done].
  - eapply sublist_NoDup; [exact Hndl|]. apply fmap_sublist, sublist_take.
  - apply list_elem_of_fmap. exists t. split; [done|].
    apply elem_of_take. exists i. split; [done|lia].
Qed.

Lemma closeAllTabs_ok (s : AppState) : workspace_ok (closeAllTabs s).
Proof. apply initialState_ok. Qed.

(** A move within one group leaves the other group as it is. *)
Lemma splitTab_same_group (tabId : SectionId) (g g' : Group) (s : AppState) :
  g' ≠ g →
  openTabs g' (splitTab tabId g g s) = openTabs g' s
  ∧ activeTabId g' (splitTab tabId g g s) = activeTabId g' s.
Proof.
  intros Hne. destruct (SECTIONS_find tabId) as (section & Hfind & _).
  unfold splitTab. rewrite Hfind. by destruct g, g'.
Qed.

Lemma splitTab_dest_ok (tabId : SectionId) (dest src : Group) (s : AppState) :
  NoDup (tab_id <$> openTabs dest s) →
  openTabs dest (splitTab tabId dest src s) ≠ []
  ∧ group_ok dest (splitTab tabId dest src s).
Proof.
  intros Hnd.
  destruct (splitTab_spec tabId dest src s) as (section & _ & _ & Htabs & Hact & _).
  pose proof (append_if_absent_elem tabId (sec_title section) (openTabs dest s)) as Hin.
  unfold group_ok. split_and!; rewrite ?Htabs.
  - by eapply nonempty_elem.
  - by apply append_if_absent_NoDup.
  - intros a. rewrite Htabs, Hact. by intros [= <-].
Qed.

(** A move the menu offers: the group the menu was opened on has at least
    two tabs. *)
Lemma splitTab_ok (tabId : SectionId) (dest src : Group) (s : AppState) :
  2 ≤ length (openTabs src s) →
  workspace_ok s → workspace_ok (splitTab tabId dest src s).
Proof.
  intros Htwo (Hne & Hleft & Hright).
  assert (Hall : ∀ g, group_ok g s) by by intros [].
  set (s' := splitTab tabId dest src s).
  assert (Hper : ∀ g, (g = GLeft → openTabs g s' ≠ []) ∧ group_ok g s').
  { intros g. subst s'. destruct (decide (g = dest)) as [->|Hg].
    - by destruct (splitTab_dest_ok tabId dest src s (proj1 (Hall dest))).
    - destruct (decide (src = dest)) as [->|Hdiff].
      + destruct (splitTab_same_group tabId dest g s Hg) as [Ht Ha].
        unfold group_ok, active_is_open. rewrite Ht, Ha.
        split; [by intros ->|apply Hall].
      + assert (g = src) as -> by by destruct g, src, dest.
        destruct (Hall src) as [Hnd Hok].
        destruct (splitTab_source_ok tabId dest src s Hdiff Hnd Htwo Hok) as [Hkept Hok'].
        destruct (splitTab_spec tabId dest src s) as (_ & _ & _ & _ & _ & Hs).
        split; [done|]. split; [|done].
        rewrite (proj1 (Hs Hdiff)). by apply without_id_NoDup. }
  split; [by apply (Hper GLeft)|]. split; apply Hper.
Qed.

Lemma handleTabDrop_workspace (index : nat) (s s' : AppState) :
  handleTabDrop index s = Some s' →
  leftOpenTabs s' ≡ₚ leftOpenTabs s ∧ leftActiveTabId s' = leftActiveTabId s
  ∧ rightOpenTabs s' = rightOpenTabs s ∧ rightActiveTabId s' = rightActiveTabId s.
Proof.
  unfold handleTabDrop, splice_out. intros Hdrop.
  destruct (dragIndex s) as [d|]; [|by injection Hdrop as <-].
  case_decide; [by injection Hdrop as <-|].
  destruct (leftOpenTabs s !! d) as [moved|] eqn:Hm; [|done].
  injection Hdrop as <-. simpl. split_and!; try done.
  rewrite splice_in_Permutation. symmetry. by apply delete_Permutation.
Qed.

Lemma handleTabDrop_ok (index : nat) (s s' : AppState) :
  handleTabDrop index s = Some s' → workspace_ok s → workspace_ok s'.
Proof.
  intros (Hperm & Hact & Htabs & Hract)%handleTabDrop_workspace.
  unfold workspace_ok, group_ok, active_is_open. simpl.
  rewrite Hact, Htabs, Hract. intros (Hne & [Hnd Hok] & [Hndr Hokr]).
  split_and!; [| | |done..].
  - intros Hnil. rewrite Hnil in Hperm. by apply Permutation_nil_l in Hperm.
  - by rewrite Hperm.
  - intros a Ha. rewrite Hperm. by apply Hok.
Qed.

Lemma select_tab_ok (g : Group) (i : nat) (tab : OpenTab) (s : AppState) :
  openTabs g s !! i = Some tab →
  workspace_ok s →
  workspace_ok (match g with
                | GLeft => setLeftActiveTabId (tab_id tab) s
                | GRight => setRightActiveTabId (Some (tab_id tab)) s
                end).
Proof.
  intros Hlook (Hne & [Hndl Hokl] & [Hndr Hokr]).
  assert (tab_id tab ∈ tab_id <$> openTabs g s) as Hin.
  { apply list_elem_of_fmap. exists tab. split; [done|]. by eapply list_elem_of_lookup_2. }
  destruct g; (split; [done|]); split; split; try done; by intros a [= <-].
Qed.

(** The cells outside the workspace do not matter to well-formedness. *)
Ltac same_workspace base :=
  apply (workspace_ok_ext base); [reflexivity..|].

Lemma searchKeyDown_ok (k : Key) (s : AppState) :
  workspace_ok s → workspace_ok (searchKeyDown k s).
Proof.
  intros Hok. unfold searchKeyDown, searchKeyDownOn. destruct k; try done.
  destruct (filteredSections (query s) !! 0) as [first|]; [|done].
  same_workspace (openSection first GLeft s). by apply openSection_ok.
Qed.

Lemma menuClick_ok (a : MenuAction) (s : AppState) :
  ¬ stray_left_action (MenuClick a) s →
  workspace_ok s → workspace_ok (menuClick a s).
Proof.
  intros Hstray Hok. unfold menuClick, stray_left_action in *.
  destruct (contextMenu s) as [m|]; [|done].
  destruct a.
  - same_workspace (closeTab (menu_tabId m) (menu_group m) s). by apply closeTab_ok.
  - same_workspace (closeOthers (menu_tabId m) s).
    apply closeOthers_ok; [by apply dec_stable|done].
  - same_workspace (closeToRight (menu_tabId m) s).
    apply closeToRight_ok; [by apply dec_stable|done].
  - same_workspace (closeAllTabs s). apply closeAllTabs_ok.
  - unfold showSplit. case_bool_decide; [|done].
    same_workspace (splitTab (menu_tabId m) GLeft (menu_group m) s). by apply splitTab_ok.
  - unfold showSplit. case_bool_decide; [|done].
    same_workspace (splitTab (menu_tabId m) GRight (menu_group m) s). by apply splitTab_ok.
Qed.

(** Every handler keeps the workspace well formed, the two stray menu
    entries apart. *)
Lemma dispatch_ok (e : Event) (s s' : AppState) :
  ¬ stray_left_action e s →
  dispatch e s = Some s' → workspace_ok s → workspace_ok s'.
Proof.
  intros Hstray Hhandle Hok.
  destruct e; simpl in Hhandle; try (injection Hhandle as <-).
  - destruct (SECTIONS !! i) as [sec|]; [|done].
    same_workspace (openSection sec GLeft s). by apply openSection_ok.
  - done.
  - assert (workspace_ok (searchKeyDown k s)) by by apply searchKeyDown_ok.
    by destruct k.
  - destruct (is_blank (query s)); [done|].
    destruct (filteredSections (query s) !! i) as [sec|]; [|done].
    same_workspace (openSection sec GLeft s). by apply openSection_ok.
  - destruct (openTabs g s !! i) as [tab|] eqn:Hlook; [|done].
    pose proof (select_tab_ok g i tab s Hlook Hok) as Hsel. by destruct g.
  - destruct (openTabs g s !! i) as [tab|]; [|done]. by apply closeTab_ok.
  - by destruct (openTabs g s !! i) as [tab|].
  - by apply menuClick_ok.
  - done.
  - by destruct (leftOpenTabs s !! i).
  - destruct (leftOpenTabs s !! i); [|done].
    unfold handleTabDragOver. by case_decide.
  - destruct (leftOpenTabs s !! i); [by eapply handleTabDrop_ok|].
    by injection Hhandle as <-.
  - done.
  - destruct (rightOpenTabs s) eqn:Hright; [done|].
    unfold onSplitterMouseDown. by destruct current.
  - destruct (resizeListeners s) as [offset|]; [|done].
    unfold onMove. by destruct current.
  - by destruct (resizeListeners s).
Qed.

(** What a handler returns is what the event leaves, up to the listeners
    the effect installs or removes. *)
Lemma handle_dispatch (e : Event) (s s' : AppState) :
  handle e s = Some s' →
  ∃ s1, dispatch e s = Some s1
        ∧ (s' = s1 ∨ ∃ listeners, s' = setResizeListeners listeners s1).
Proof.
  unfold handle. destruct (dispatch e s) as [s1|]; [|done].
  intros [= <-]. exists s1. split; [done|].
  unfold resizeEffect. case_bool_decide; [by left|right; by eexists].
Qed.

Lemma handle_ok (e : Event) (s s' : AppState) :
  ¬ stray_left_action e s →
  handle e s = Some s' → workspace_ok s → workspace_ok s'.
Proof.
  intros Hstray (s1 & Hstep & Heffect)%handle_dispatch Hok.
  pose proof (dispatch_ok e s s1 Hstray Hstep Hok) as Hok1.
  by destruct Heffect as [->|[listeners ->]].
Qed.

(** X1. A session without stray menu entries ends in a well-formed
    workspace: in both groups the tab ids are distinct and the active tab
    is one of the open tabs, and the left group has a tab. *)
Lemma run_ok (es : list Event) (s s' : AppState) :
  no_stray es s → run es s = Some s' → workspace_ok s → workspace_ok s'.
Proof.
  revert s. induction es as [|e es IH]; intros s Hno Hrun Hok; simpl in *.
  - by injection Hrun as <-.
  - destruct Hno as [Hstray Hrest].
    destruct (handle e s) as [s1|] eqn:Hstep; [|done]. simpl in Hrun.
    eapply IH; [by apply Hrest|done|]. by eapply handle_ok.
Qed.


(** X1 on the session that opens [about], splits it to the right and grabs
    the splitter. *)
Lemma run_ok_witness :
  ∃ s', run grabSplitter initialState = Some s' ∧ workspace_ok s'.
Proof.
  destruct (run grabSplitter initialState) as [s'|] eqn:Hrun; [|by vm_compute in Hrun].
  exists s'. split; [done|].
  apply (run_ok grabSplitter initialState s'); [|done|apply initialState_ok].
  clear Hrun.
  repeat (split; [by vm_compute; intros []|intros ? Hstep; vm_compute in Hstep; injection Hstep as <-]).
  done.
Defined.

(** * Further properties of the handlers *)

(** ** Opening and closing *)

(** X2. [openSection] is idempotent: opening a section a second time
    changes nothing.  It makes the section the active tab of the target
    group, keeps every tab that was open in its place and adds at most one
    tab at the end, and leaves the other group as it is. *)
Theorem openSection_idempotent (section : Section) (g : Group) (s : AppState) :
  let s1 := openSection section g s in
  openSection section g s1 = s1
  ∧ activeTabId g s1 = Some (sec_id section)
  ∧ (∃ added, openTabs g s1 = openTabs g s ++ added ∧ length added ≤ 1)
  ∧ openTabs (otherGroup g) s1 = openTabs (otherGroup g) s
  ∧ activeTabId (otherGroup g) s1 = activeTabId (otherGroup g) s.
Proof.
  intros s1. subst s1. split_and!.
  - destruct g; unfold openSection; simpl; by rewrite append_if_absent_idemp.
  - by destruct g.
  - assert (∃ added, append_if_absent (sec_id section) (sec_title section) (openTabs g s)
                     = openTabs g s ++ added ∧ length added ≤ 1) as Hgrow.
    { unfold append_if_absent. destruct (some_id _ _).
      - exists []. split; [by rewrite app_nil_r|simpl; lia].
      - exists [mkTab (sec_id section) (sec_title section)]. split; [done|]. simpl. lia. }
    by destruct g.
  - by destruct g.
  - by destruct g.
Qed.

(** X3. Closing an open tab that is not the active one removes every tab
    of that id from the group and keeps the active tab, which stays one of
    the group's tabs. *)
Theorem closeTab_inactive (tabId a : SectionId) (g : Group) (s : AppState) :
  tabId ∈ tab_id <$> openTabs g s →
  activeTabId g s = Some a → a ≠ tabId → a ∈ tab_id <$> openTabs g s →
  let s' := closeTab tabId g s in
  openTabs g s' = without_id tabId (openTabs g s)
  ∧ activeTabId g s' = Some a
  ∧ (a ∈ tab_id <$> openTabs g s')
  ∧ (tabId ∉ tab_id <$> openTabs g s')
  ∧ length (openTabs g s') < length (openTabs g s).
Proof.
  intros Hin Hact Hne Ha s'. subst s'.
  assert (Hkept : a ∈ tab_id <$> without_id tabId (openTabs g s))
    by by apply without_id_elem.
  assert (Htabs : openTabs g (closeTab tabId g s) = without_id tabId (openTabs g s)).
  { rewrite (closeTab_openTabs _ _ _ Hin).
    destruct (without_id tabId (openTabs g s)); [|done].
    by apply not_elem_of_nil in Hkept. }
  rewrite Htabs. split_and!; [done| |done|apply without_id_not_elem|].
  - rewrite (closeTab_present _ _ _ Hin), Hact, decide_False by congruence.
    by rewrite activeTabId_setOpen.
  - destruct (findIndex_present _ _ Hin) as (i & t & _ & Hlook & Ht & Hbefore).
    rewrite (without_id_split _ _ _ _ Hlook Ht Hbefore), length_app.
    assert (length (openTabs g s)
            = length (take i (openTabs g s)) + S (length (drop (S i) (openTabs g s))))
      as Hlen by by rewrite <- (take_drop_middle _ _ _ Hlook) at 1; rewrite length_app.
    pose proof (length_filter (λ u, tab_id u ≠ tabId) (drop (S i) (openTabs g s))) as Hle.
    unfold without_id. lia.
Qed.

(** X3 on [home, about, skills] with [skills] active: closing [home] leaves
    [about, skills] and [skills] active. *)
Lemma closeTab_inactive_witness :
  tab_id <$> leftOpenTabs (closeTab home GLeft threeTabs) = [about; skills]
  ∧ leftActiveTabId (closeTab home GLeft threeTabs) = skills.
Proof.
  destruct (closeTab_inactive home skills GLeft threeTabs) as (Htabs & Hact & _);
    [by left|done|done|by right; right; left|].
  change (openTabs GLeft (closeTab home GLeft threeTabs))
    with (leftOpenTabs (closeTab home GLeft threeTabs)) in Htabs.
  split; [by rewrite Htabs|]. exact (f_equal (default home) Hact).
Defined.

Lemma openSection_spec (section : Section) (g : Group) (s : AppState) :
  openTabs g (openSection section g s)
  = append_if_absent (sec_id section) (sec_title section) (openTabs g s)
  ∧ activeTabId g (openSection section g s) = Some (sec_id section)
  ∧ openTabs (otherGroup g) (openSection section g s) = openTabs (otherGroup g) s
  ∧ activeTabId (otherGroup g) (openSection section g s) = activeTabId (otherGroup g) s.
Proof. by destruct g. Qed.

Lemma otherGroup_ne (g : Group) : g ≠ otherGroup g.
Proof. by destruct g. Qed.

(** X4. Opening a section that is not open in a group and closing it again
    restores the group's tab list, but not its active tab: the last tab of
    the list becomes active.  On an empty group the round trip ends in the
    emptied group, [home] alone on the left and nothing on the right.  The
    other group is left as it was. *)
Theorem open_then_close (section : Section) (g : Group) (s : AppState) :
  sec_id section ∉ tab_id <$> openTabs g s →
  let s' := closeTab (sec_id section) g (openSection section g s) in
  openTabs g s' = (if openTabs g s is [] then emptied g else openTabs g s)
  ∧ activeTabId g s'
    = match last (openTabs g s) with
      | Some t => Some (tab_id t)
      | None => match g with GLeft => Some home | GRight => None end
      end
  ∧ openTabs (otherGroup g) s' = openTabs (otherGroup g) s
  ∧ activeTabId (otherGroup g) s' = activeTabId (otherGroup g) s.
Proof.
  intros Hfresh s'. subst s'.
  destruct (openSection_spec section g s) as (Htabs & Hact & Hotabs & Hoact).
  set (s1 := openSection section g s) in *.
  set (l := openTabs g s) in *.
  rewrite append_if_absent_fresh in Htabs by done.
  assert (Hin : sec_id section ∈ tab_id <$> openTabs g s1).
  { rewrite Htabs, fmap_app. apply elem_of_app. right. by left. }
  assert (Hall : Forall (λ u, tab_id u ≠ sec_id section) l).
  { apply Forall_forall. intros u Hu Heq. apply Hfresh, list_elem_of_fmap. by exists u. }
  assert (Hnext : without_id (sec_id section) (openTabs g s1) = l).
  { rewrite Htabs. unfold without_id. rewrite filter_app.
    fold (without_id (sec_id section) l). rewrite (without_id_all _ _ Hall).
    rewrite filter_cons_False by naive_solver. by rewrite app_nil_r. }
  assert (Hidx : findIndex (sec_id section) (openTabs g s1) = Z.of_nat (length l)).
  { destruct (findIndex_present _ _ Hin) as (i & t & -> & Hlook & Ht & _).
    rewrite Htabs in Hlook. f_equal.
    apply lookup_app_Some in Hlook as [Hlook|[Hge Hlook]].
    - exfalso. apply Hfresh, list_elem_of_fmap. exists t. split; [done|].
      by eapply list_elem_of_lookup_2.
    - apply lookup_lt_Some in Hlook. simpl in Hlook. lia. }
  destruct (closeTab_other_group (sec_id section) g (otherGroup g) s1 (otherGroup_ne g))
    as [-> ->].
  split_and!; [|..|done|done].
  - by rewrite (closeTab_openTabs _ _ _ Hin), Hnext.
  - rewrite (closeTab_present _ _ _ Hin), Hnext, Hidx, Hact, decide_True by done.
    rewrite last_lookup. destruct l as [|t0 l0] eqn:Hl.
    + simpl. by destruct g.
    + replace (Z.of_nat (length (t0 :: l0)) - 1)%Z with (Z.of_nat (length l0))
        by (simpl; lia).
      rewrite at_index_nat. simpl.
      destruct (lookup_lt_is_Some_2 (t0 :: l0) (length l0)) as [t Ht]; [simpl; lia|].
      rewrite Ht. by destruct g.
Qed.

(** X4 on [home, about, skills] with [skills] active: [contact] opened and
    closed again leaves the three tabs and [skills], the last one, active;
    on the empty right group the round trip leaves it empty. *)
Lemma open_then_close_witness :
  let contactSec := mkSection contact "Contact" "contact.tsx" in
  leftOpenTabs (closeTab contact GLeft (openSection contactSec GLeft threeTabs))
  = leftOpenTabs threeTabs
  ∧ rightOpenTabs (closeTab contact GRight (openSection contactSec GRight threeTabs)) = [].
Proof.
  intros contactSec.
  destruct (open_then_close contactSec GLeft threeTabs) as (Hl & _).
  { vm_compute. intros Hin. apply list_elem_of_In in Hin. simpl in Hin.
    by destruct Hin as [|[|[|[]]]]. }
  destruct (open_then_close contactSec GRight threeTabs) as (Hr & _).
  { by intros ?%not_elem_of_nil. }
  split; [exact Hl|exact Hr].
Defined.

Lemma only_id_single (l : list OpenTab) (i : nat) (t : OpenTab) :
  NoDup (tab_id <$> l) → l !! i = Some t → only_id (tab_id t) l = [t].
Proof.
  unfold only_id. revert i. induction l as [|u l IH]; intros i Hnd Hlook; [done|].
  rewrite fmap_cons in Hnd. apply NoDup_cons in Hnd as [Hu Hnd].
  destruct i as [|i]; simpl in Hlook.
  - injection Hlook as ->. rewrite filter_cons_True by done. f_equal.
    apply elem_of_nil_inv. intros v [Hv Hin]%list_elem_of_filter.
    apply Hu. rewrite <- Hv. by apply list_elem_of_fmap_2.
  - rewrite filter_cons_False; [by eapply IH|].
    intros Heq. apply Hu. rewrite Heq. apply list_elem_of_fmap_2.
    by eapply list_elem_of_lookup_2.
Qed.

(** X5. With distinct tab ids on the left, Close Others on an open left tab
    leaves exactly that tab, makes it active, and does not touch the right
    group. *)
Theorem closeOthers_single (s : AppState) (i : nat) (t : OpenTab) :
  NoDup (tab_id <$> leftOpenTabs s) → leftOpenTabs s !! i = Some t →
  leftOpenTabs (closeOthers (tab_id t) s) = [t]
  ∧ leftActiveTabId (closeOthers (tab_id t) s) = tab_id t
  ∧ rightOpenTabs (closeOthers (tab_id t) s) = rightOpenTabs s
  ∧ rightActiveTabId (closeOthers (tab_id t) s) = rightActiveTabId s.
Proof.
  intros Hnd Hlook. unfold closeOthers. simpl.
  by rewrite (only_id_single _ _ _ Hnd Hlook).
Qed.

Lemma closeOthers_single_witness :
  leftOpenTabs (closeOthers about threeTabs) = [mkTab about "About"].
Proof.
  apply (closeOthers_single threeTabs 1 (mkTab about "About")); [|done].
  apply (bool_decide_unpack _). by vm_compute.
Defined.

Lemma findIndex_NoDup (l : list OpenTab) (i : nat) (t : OpenTab) :
  NoDup (tab_id <$> l) → l !! i = Some t → findIndex (tab_id t) l = Z.of_nat i.
Proof.
  intros Hnd Hlook.
  assert (Hin : tab_id t ∈ tab_id <$> l)
    by (apply list_elem_of_fmap_2; by eapply list_elem_of_lookup_2).
  destruct (findIndex_present _ _ Hin) as (j & u & -> & Hj & Hu & _).
  f_equal. eapply NoDup_lookup; [done|..].
  - by rewrite list_lookup_fmap, Hj; simpl; rewrite Hu.
  - by rewrite list_lookup_fmap, Hlook.
Qed.

(** X6. With distinct tab ids on the left, Close to the Right on the left
    tab at index [i] keeps the tabs up to and including it, in order, so
    that it becomes the last tab, and makes it active; the right group is
    not touched, and doing it a second time changes nothing. *)
Theorem closeToRight_prefix (s : AppState) (i : nat) (t : OpenTab) :
  NoDup (tab_id <$> leftOpenTabs s) → leftOpenTabs s !! i = Some t →
  let s' := closeToRight (tab_id t) s in
  leftOpenTabs s' = take (S i) (leftOpenTabs s)
  ∧ last (leftOpenTabs s') = Some t
  ∧ leftActiveTabId s' = tab_id t
  ∧ rightOpenTabs s' = rightOpenTabs s
  ∧ rightActiveTabId s' = rightActiveTabId s
  ∧ closeToRight (tab_id t) s' = s'.
Proof.
  intros Hnd Hlook s'.
  assert (Hs' : s' = setLeftActiveTabId (tab_id t)
                       (setLeftOpenTabs (take (S i) (leftOpenTabs s)) s)).
  { subst s'. unfold closeToRight. rewrite (findIndex_NoDup _ _ _ Hnd Hlook).
    rewrite decide_False by lia. unfold slice0. do 3 f_equal. lia. }
  assert (Hlen : i < length (leftOpenTabs s)) by by eapply lookup_lt_Some.
  rewrite Hs'. simpl. split_and!; try done.
  - rewrite last_lookup, length_take_le by lia. simpl.
    by rewrite lookup_take_lt by lia.
  - unfold closeToRight. simpl.
    rewrite (findIndex_NoDup _ i t).
    + rewrite decide_False by lia. unfold slice0.
      replace (Z.to_nat (Z.of_nat i + 1)) with (S i) by lia.
      by rewrite take_take, Nat.min_id.
    + eapply sublist_NoDup; [exact Hnd|]. apply fmap_sublist, sublist_take.
    + by rewrite lookup_take_lt by lia.
Qed.

Lemma closeToRight_prefix_witness :
  tab_id <$> leftOpenTabs (closeToRight about threeTabs) = [home; about].
Proof.
  destruct (closeToRight_prefix threeTabs 1 (mkTab about "About")) as [Htabs _];
    [apply (bool_decide_unpack _); by vm_compute|done|].
  exact (f_equal (fmap tab_id) Htabs).
Defined.

(** ** Drag and drop, continued *)

(** X7. A drop onto another tab inserts the dragged tab immediately before
    the tab it was dropped on: the target tab follows it in the new list.
    The dragged tab therefore never becomes the last tab, and dropping a
    tab onto its right neighbour leaves the order as it was. *)
Theorem handleTabDrop_before_target (s : AppState) (d index : nat) :
  dragIndex s = Some d →
  d < length (leftOpenTabs s) → index < length (leftOpenTabs s) → index ≠ d →
  ∃ s', handleTabDrop index s = Some s'
        ∧ let insertIndex := if decide (d < index) then index - 1 else index in
          leftOpenTabs s' !! insertIndex = leftOpenTabs s !! d
          ∧ leftOpenTabs s' !! S insertIndex = leftOpenTabs s !! index
          ∧ S insertIndex < length (leftOpenTabs s')
          ∧ (index = S d → leftOpenTabs s' = leftOpenTabs s).
Proof.
  intros Hd Hdlt Hilt Hne.
  destruct (lookup_lt_is_Some_2 _ _ Hdlt) as [moved Hm].
  eexists. split; [by apply handleTabDrop_moved|]. simpl.
  set (l := leftOpenTabs s) in *.
  set (ii := if decide (d < index) then index - 1 else index).
  assert (Hii : ii ≤ length (delete d l))
    by (rewrite length_delete by done; subst ii; case_decide; lia).
  assert (Hnext : splice_in ii moved (delete d l) !! S ii = l !! index).
  { unfold splice_in.
    rewrite lookup_app_r by (rewrite length_take_le by done; lia).
    rewrite length_take_le by done. replace (S ii - ii) with 1 by lia. simpl.
    rewrite lookup_drop, Nat.add_0_r. subst ii. case_decide.
    - rewrite list_lookup_delete_ge by lia. f_equal. lia.
    - rewrite list_lookup_delete_lt by lia. done. }
  split_and!.
  - rewrite Hm. by apply splice_in_lookup.
  - done.
  - apply lookup_lt_is_Some. rewrite Hnext. by apply lookup_lt_is_Some_2.
  - intros ->. subst ii. rewrite decide_True by lia.
    replace (S d - 1) with d by lia. unfold splice_in.
    rewrite delete_take_drop.
    rewrite take_app_le, take_take, Nat.min_id by (rewrite length_take_le; lia).
    rewrite drop_app_length' by (rewrite length_take_le; lia).
    by apply take_drop_middle.
Qed.

(** X7 on [home, about, skills]: [home] dropped onto [skills] lands between
    [about] and [skills]; dropped onto [about] it stays first. *)
Lemma handleTabDrop_before_target_witness :
  (∃ s', handleTabDrop 2 draggingFirst = Some s'
         ∧ tab_id <$> leftOpenTabs s' !! 1 = Some home
         ∧ tab_id <$> leftOpenTabs s' !! 2 = Some skills)
  ∧ (∃ s', handleTabDrop 1 draggingFirst = Some s'
           ∧ leftOpenTabs s' = leftOpenTabs draggingFirst).
Proof.
  split.
  - destruct (handleTabDrop_before_target draggingFirst 0 2 eq_refl)
      as (s' & Hdrop & Hat & Hnext & _); [vm_compute; lia..|].
    exists s'. split; [done|]. simpl in Hat, Hnext. by rewrite Hat, Hnext.
  - destruct (handleTabDrop_before_target draggingFirst 0 1 eq_refl)
      as (s' & Hdrop & _ & _ & _ & Hsame); [vm_compute; lia..|].
    exists s'. split; [done|]. by apply Hsame.
Defined.

(** X8. A drop ends the drag: whenever [handleTabDrop] completes, no drag
    index is left, and any further drop changes nothing until a new drag
    starts; [handleTabDragEnd] ends the drag in the same way. *)
Theorem handleTabDrop_ends_drag (index : nat) (s s' : AppState) :
  handleTabDrop index s = Some s' →
  dragIndex s' = None
  ∧ (∀ j, handleTabDrop j s' = Some s')
  ∧ (∀ j, handleTabDrop j (handleTabDragEnd s) = Some (handleTabDragEnd s)).
Proof.
  intros Hdrop.
  assert (Hnone : dragIndex s' = None).
  { unfold handleTabDrop, splice_out in Hdrop.
    destruct (dragIndex s) as [d|] eqn:Hd; [|by injection Hdrop as <-].
    case_decide; [by injection Hdrop as <-|].
    destruct (leftOpenTabs s !! d); [|done]. by injection Hdrop as <-. }
  split_and!; [done|..]; intros j; unfold handleTabDrop; [by rewrite Hnone|done].
Qed.

Lemma handleTabDrop_ends_drag_witness :
  ∃ s', handleTabDrop 2 draggingFirst = Some s' ∧ handleTabDrop 0 s' = Some s'.
Proof.
  destruct (handleTabDrop 2 draggingFirst) as [s'|] eqn:Hdrop; [|by vm_compute in Hdrop].
  exists s'. split; [done|].
  by destruct (handleTabDrop_ends_drag 2 draggingFirst s' Hdrop) as (_ & Hagain & _).
Defined.

(** ** The split ratio along a session *)

Lemma clampRatio_in_range (ratio : float) :
  is_nan ratio = false → ratio_in_range (clampRatio ratio).
Proof. intros Hnum. by apply clamp_between. Qed.

Lemma clampRatio_nan (ratio : float) :
  is_nan ratio = true → is_nan (clampRatio ratio) = true.
Proof.
  intros Hnan. unfold clampRatio.
  destruct (Math_nan ratio 0.2) as [-> _]; [by left|].
  by destruct (Math_nan nan 0.8) as [_ ->]; [left|].
Qed.

Lemma closeTab_splitRatio (tabId : SectionId) (g : Group) (s : AppState) :
  splitRatio (closeTab tabId g s) = splitRatio s.
Proof. unfold closeTab. repeat (case_decide || case_match); by destruct g. Qed.

Lemma splitTab_splitRatio (tabId : SectionId) (dest src : Group) (s : AppState) :
  splitRatio (splitTab tabId dest src s) = splitRatio s.
Proof. unfold splitTab. by repeat (case_decide || case_match). Qed.

Lemma menuClick_splitRatio (a : MenuAction) (s : AppState) :
  splitRatio (menuClick a s) = splitRatio s.
Proof.
  unfold menuClick. destruct (contextMenu s) as [m|]; [|done].
  destruct a; try done; simpl.
  - apply closeTab_splitRatio.
  - destruct (showSplit m s); [apply splitTab_splitRatio|done].
  - destruct (showSplit m s); [apply splitTab_splitRatio|done].
Qed.

(** Only [onMove] writes the split ratio, and what it writes is the
    clamped quotient. *)
Lemma dispatch_splitRatio (e : Event) (s s' : AppState) :
  dispatch e s = Some s' →
  (moveQuotient e s = None ∧ splitRatio s' = splitRatio s)
  ∨ ∃ q, moveQuotient e s = Some q ∧ splitRatio s' = clampRatio q.
Proof.
  intros Hhandle. unfold moveQuotient.
  destruct e; simpl in Hhandle; try (injection Hhandle as <-).
  - left. by destruct (SECTIONS !! i).
  - by left.
  - left. unfold searchKeyDown, searchKeyDownOn. destruct k; try done.
    by destruct (filteredSections (query s) !! 0).
  - left. destruct (is_blank (query s)); [done|].
    by destruct (filteredSections (query s) !! i).
  - left. destruct (openTabs g s !! i); [by destruct g|done].
  - left. split; [done|].
    destruct (openTabs g s !! i); [apply closeTab_splitRatio|done].
  - left. by destruct (openTabs g s !! i).
  - left. split; [done|]. apply menuClick_splitRatio.
  - by left.
  - left. by destruct (leftOpenTabs s !! i).
  - left. destruct (leftOpenTabs s !! i); [|done].
    unfold handleTabDragOver. by case_decide.
  - left. split; [done|].
    destruct (leftOpenTabs s !! i); [|by injection Hhandle as <-].
    unfold handleTabDrop, splice_out in Hhandle.
    destruct (dragIndex s) as [d|]; [|by injection Hhandle as <-].
    case_decide; [by injection Hhandle as <-|].
    destruct (leftOpenTabs s !! d); [|done]. by injection Hhandle as <-.
  - by left.
  - left. split; [done|]. destruct (rightOpenTabs s); [done|].
    unfold onSplitterMouseDown. by destruct current.
  - destruct (resizeListeners s) as [offset|], current as [rect|];
      [right; by eexists|by left..].
  - left. split; [done|]. by destruct (resizeListeners s).
Qed.

Lemma handle_splitRatio (e : Event) (s s' : AppState) :
  handle e s = Some s' →
  (moveQuotient e s = None ∧ splitRatio s' = splitRatio s)
  ∨ ∃ q, moveQuotient e s = Some q ∧ splitRatio s' = clampRatio q.
Proof.
  intros (s1 & Hstep & Heffect)%handle_dispatch.
  assert (splitRatio s' = splitRatio s1) as ->
    by (by destruct Heffect as [->|[listeners ->]]).
  by apply dispatch_splitRatio.
Qed.

(** X9. A session in which every quotient [clampedX / width] that a mouse
    move computes is a number ends with a split ratio that is a number
    between 0.2 and 0.8: the ratio starts at 0.5 and only [onMove] writes
    it.  The condition is needed: a move whose quotient is NaN stores
    NaN. *)
Theorem splitRatio_stays_in_range (es : list Event) (s' : AppState) :
  (numeric_moves es initialState → run es initialState = Some s' →
   ratio_in_range (splitRatio s'))
  ∧ (∀ s e q s1,
       moveQuotient e s = Some q → is_nan q = true → handle e s = Some s1 →
       is_nan (splitRatio s1) = true).
Proof.
  split.
  - assert (Hgen : ∀ s, ratio_in_range (splitRatio s) → numeric_moves es s →
                        run es s = Some s' → ratio_in_range (splitRatio s')).
    { induction es as [|e es IH]; intros s Hin Hnum Hrun; simpl in Hrun.
      - by injection Hrun as <-.
      - destruct Hnum as [Hq Hrest].
        destruct (handle e s) as [s1|] eqn:Hstep; [|done]. simpl in Hrun.
        apply (IH s1); [|by apply Hrest|done].
        destruct (handle_splitRatio e s s1 Hstep) as [[_ ->]|(q & Hmove & ->)];
          [done|]. apply clampRatio_in_range. by apply Hq. }
    apply Hgen. by vm_compute.
  - intros s e q s1 Hmove Hnan Hstep.
    destruct (handle_splitRatio e s s1 Hstep) as [[Hnone _]|(q' & Hmove' & ->)].
    + by rewrite Hnone in Hmove.
    + rewrite Hmove in Hmove'. injection Hmove' as <-. by apply clampRatio_nan.
Qed.

(** X9 on the session that splits [about] to the right, grabs the splitter
    and moves the pointer to 50 px: the ratio ends at 0.2. *)
Lemma splitRatio_stays_in_range_witness :
  ∃ s', run (grabSplitter ++ [pointerAt50]) initialState = Some s'
        ∧ ratio_in_range (splitRatio s').
Proof.
  destruct (run (grabSplitter ++ [pointerAt50]) initialState) as [s'|] eqn:Hrun;
    [|by vm_compute in Hrun].
  exists s'. split; [done|].
  apply (splitRatio_stays_in_range (grabSplitter ++ [pointerAt50]) s'); [|done].
  clear Hrun.
  repeat (split; [by vm_compute; intros ? [= <-]
                 |intros ? Hstep; vm_compute in Hstep; injection Hstep as <-]).
  done.
Defined.

(** ** Search, continued *)

Lemma lower_upper_ascii (c : ascii) : lower_ascii (upper_ascii c) = lower_ascii c.
Proof. by destruct c as [[] [] [] [] [] [] [] []]. Qed.

Lemma lower_lower_ascii (c : ascii) : lower_ascii (lower_ascii c) = lower_ascii c.
Proof. by destruct c as [[] [] [] [] [] [] [] []]. Qed.

Lemma space_lower_ascii (c : ascii) : is_js_space (lower_ascii c) = is_js_space c.
Proof. by destruct c as [[] [] [] [] [] [] [] []]. Qed.

Lemma toLowerCase_toUpperCase (q : string) : toLowerCase (toUpperCase q) = toLowerCase q.
Proof. induction q as [|c q IH]; simpl; [done|]. by rewrite lower_upper_ascii, IH. Qed.

Lemma toLowerCase_idemp (q : string) : toLowerCase (toLowerCase q) = toLowerCase q.
Proof. induction q as [|c q IH]; simpl; [done|]. by rewrite lower_lower_ascii, IH. Qed.

Lemma toLowerCase_app (a b : string) :
  toLowerCase (a +:+ b) = toLowerCase a +:+ toLowerCase b.
Proof. induction a as [|c a IH]; simpl; [done|]. by rewrite IH. Qed.

(** Lower-casing does not change which characters are white space. *)
Lemma whitespace_only_toLowerCase (q : string) :
  whitespace_only (toLowerCase q) ↔ whitespace_only q.
Proof.
  unfold whitespace_only. induction q as [|c q IH]; simpl; [reflexivity|].
  split; intros Hall c' [->|Hin]%elem_of_cons.
  - rewrite <- space_lower_ascii. apply Hall. by left.
  - apply (proj1 IH); [|done]. intros c'' Hc''. apply Hall. by right.
  - rewrite space_lower_ascii. apply Hall. by left.
  - apply (proj2 IH); [|done]. intros c'' Hc''. apply Hall. by right.
Qed.

Lemma is_blank_toLowerCase (q : string) : is_blank (toLowerCase q) = is_blank q.
Proof.
  pose proof (whitespace_only_toLowerCase q) as Hws.
  rewrite <- !is_blank_spec in Hws.
  destruct (is_blank (toLowerCase q)), (is_blank q); try done.
  - by destruct Hws as [-> _].
  - by destruct Hws as [_ ->].
Qed.

Lemma filteredSections_toLowerCase (q : string) :
  filteredSections (toLowerCase q) = filteredSections q.
Proof.
  unfold filteredSections. by rewrite is_blank_toLowerCase, toLowerCase_idemp.
Qed.

Lemma toUpperCase_is_ascii (s : string) : is_ascii s → is_ascii (toUpperCase s).
Proof.
  induction s as [|c s IH]; simpl; [done|].
  intros [Hc Hs]%is_ascii_cons. apply is_ascii_cons. split; [|by apply IH].
  revert Hc. by destruct c as [[] [] [] [] [] [] [] []].
Qed.

(** X10. On queries of ASCII characters the search ignores the case of the
    letters: two such queries that agree once their letters [A-Z] are
    lowered give the same result list, and so do such a query and its
    upper-case form. *)
Theorem filteredSections_ignores_case (lower : JS.JSString → JS.JSString)
    (q q' : string) :
  folds_ascii lower → is_ascii q → is_ascii q' →
  toLowerCase q = toLowerCase q' →
  JS.filteredSections lower (JS.ofAscii q) = JS.filteredSections lower (JS.ofAscii q')
  ∧ JS.filteredSections lower (JS.ofAscii (toUpperCase q))
    = JS.filteredSections lower (JS.ofAscii q').
Proof.
  intros Hfold Hq Hq' Hsame.
  rewrite !(filteredSections_ascii lower Hfold) by auto using toUpperCase_is_ascii.
  rewrite <- (filteredSections_toLowerCase q), <- (filteredSections_toLowerCase q').
  rewrite <- (filteredSections_toLowerCase (toUpperCase q)).
  by rewrite toLowerCase_toUpperCase, Hsame.
Qed.

Lemma filteredSections_ignores_case_witness :
  JS.filteredSections JS.foldUnits (JS.ofAscii "SkIlLs.TS")
  = JS.filteredSections JS.foldUnits (JS.ofAscii "skills.ts").
Proof.
  apply (filteredSections_ignores_case JS.foldUnits "SkIlLs.TS" "skills.ts");
    [apply foldUnits_folds_ascii| | |reflexivity];
    intros c Hc; apply list_elem_of_In in Hc; simpl in Hc;
    repeat destruct Hc as [<-|Hc]; done.
Defined.

Lemma List_filter_sublist_impl {A} (f g : A → bool) (l : list A) :
  (∀ x, f x = true → g x = true) → List.filter f l `sublist_of` List.filter g l.
Proof.
  intros Himpl. induction l as [|x l IH]; simpl; [done|].
  destruct (f x) eqn:Hf.
  - rewrite (Himpl x Hf). by apply sublist_skip.
  - destruct (g x); [by apply sublist_cons|done].
Qed.

Lemma whitespace_only_app (a b : string) :
  whitespace_only (a +:+ b) → whitespace_only a ∧ whitespace_only b.
Proof.
  unfold whitespace_only. induction a as [|c a IH]; simpl.
  - intros Hall. split; [by intros c ?%not_elem_of_nil|done].
  - intros Hall. destruct IH as [Ha Hb]; [intros c' Hc'; apply Hall; by right|].
    split; [|done]. intros c' [->|Hin]%elem_of_cons; [apply Hall; by left|by apply Ha].
Qed.

Lemma string_app_assoc (a b c : string) : (a +:+ b) +:+ c = a +:+ (b +:+ c).
Proof.
  induction a as [|x a IH]; [done|].
  change (String x ((a +:+ b) +:+ c) = String x (a +:+ (b +:+ c))). by rewrite IH.
Qed.

Lemma includes_narrow (hay pre q post : string) :
  includes hay (pre +:+ q +:+ post) = true → includes hay q = true.
Proof.
  rewrite !includes_spec. intros (a & b & Hhay).
  exists (a +:+ pre), (post +:+ b). rewrite Hhay.
  by rewrite !string_app_assoc.
Qed.

(** X11. Typing more never adds results: the results for a query that
    contains [q] are, in order, among the results for [q]. *)
Theorem filteredSections_narrows (pre q post : string) :
  filteredSections (pre +:+ q +:+ post) `sublist_of` filteredSections q.
Proof.
  unfold filteredSections.
  destruct (is_blank q) eqn:Hq.
  { destruct (is_blank (pre +:+ q +:+ post)); [reflexivity|apply filter_sublist]. }
  destruct (is_blank (pre +:+ q +:+ post)) eqn:Hlong.
  { apply is_blank_spec, whitespace_only_app in Hlong as [_ Hlong].
    apply whitespace_only_app in Hlong as [Hblank _].
    apply is_blank_spec in Hblank. congruence. }
  apply List_filter_sublist_impl. intros s. unfold matches_query.
  rewrite !toLowerCase_app, !orb_true_iff.
  intros [Ht|Hp]; [left|right]; by eapply includes_narrow.
Qed.

(** X12. Every section of the catalog is found by its own file path and by
    its own title, in any case, as the first result: typing either and
    pressing Enter makes that section the active tab of the left group,
    open there, and clears the query. *)
Theorem search_opens_by_path_or_title :
  Forall (λ sec, ∀ q s,
            toLowerCase q = toLowerCase (sec_filePath sec)
            ∨ toLowerCase q = toLowerCase (sec_title sec) →
            let s1 := searchKeyDown Enter (setQuery q s) in
            leftActiveTabId s1 = sec_id sec
            ∧ (sec_id sec ∈ tab_id <$> leftOpenTabs s1)
            ∧ query s1 = EmptyString) SECTIONS.
Proof.
  assert (Hfirst : Forall (λ sec, ∀ q,
            toLowerCase q = toLowerCase (sec_filePath sec)
            ∨ toLowerCase q = toLowerCase (sec_title sec) →
            filteredSections q !! 0 = Some sec) SECTIONS).
  { repeat apply Forall_cons_2; [..|apply Forall_nil_2]; intros q Hq;
      rewrite <- (filteredSections_toLowerCase q);
      by destruct Hq as [-> | ->]. }
  rewrite Forall_forall in Hfirst. apply Forall_forall.
  intros sec Hin q s Hq s1. subst s1. unfold searchKeyDown, searchKeyDownOn. simpl.
  rewrite (Hfirst sec Hin q Hq). simpl. split_and!; [done| |done].
  apply append_if_absent_elem.
Qed.

(** X12 for [skills.ts] typed in capitals. *)
Lemma search_opens_by_path_or_title_witness :
  leftActiveTabId (searchKeyDown Enter (setQuery "SKILLS.TS" initialState)) = skills.
Proof.
  pose proof search_opens_by_path_or_title as Hall. rewrite Forall_forall in Hall.
  assert (Hin : mkSection skills "Skills" "skills.ts" ∈ SECTIONS)
    by (apply list_elem_of_In; simpl; tauto).
  by destruct (Hall _ Hin "SKILLS.TS" initialState (or_introl eq_refl)) as [Hactive _].
Defined.

(** ** File icons *)

Example catalog_icons :
  FileIcon <$> (sec_filePath <$> SECTIONS)
  = [IconMarkdown; IconMarkdown; IconTypeScript; IconJson; IconTypeScript;
     IconMarkdown; IconMarkdown; IconReact].
Proof. by vm_compute. Qed.

Example other_icons :
  FileIcon "Vite.Config.JS" = IconVite
  ∧ FileIcon "vite.config.ts" = IconTypeScript
  ∧ FileIcon "tsconfig.app.json" = IconTsconfig
  ∧ FileIcon "package.json" = IconNpm
  ∧ FileIcon ".eslintrc.cjs" = IconEslint
  ∧ FileIcon "notes.txt" = IconDefault "TXT" 6.5
  ∧ FileIcon "data.yaml" = IconDefault "YAML" 5.5
  ∧ FileIcon "Makefile" = IconDefault "MAKEFILE" 5.5
  ∧ FileIcon "archive." = IconDefault EmptyString 6.5.
Proof. by vm_compute. Qed.

Lemma split_dot_nonempty (s : string) : split_dot s ≠ [].
Proof.
  induction s as [|c s IH]; simpl; [done|].
  destruct (Ascii.eqb c "."); [done|]. by destruct (split_dot s).
Qed.

(** A name without a dot is a single segment. *)
Lemma split_dot_plain (e : string) :
  (∀ c, c ∈ list_ascii_of_string e → c ≠ "."%char) → split_dot e = [e].
Proof.
  induction e as [|c e IH]; simpl; [done|]. intros Hplain.
  destruct (Ascii.eqb_spec c "."%char) as [->|_].
  - by destruct (Hplain "."%char); [left|].
  - rewrite IH; [done|]. intros c' Hc'. apply Hplain. by right.
Qed.

(** What follows the last dot is the last segment. *)
Lemma split_dot_suffix (pre e : string) :
  (∀ c, c ∈ list_ascii_of_string e → c ≠ "."%char) →
  ∃ segments, split_dot (pre +:+ String "." e) = segments ++ [e] ∧ segments ≠ [].
Proof.
  intros Hplain. induction pre as [|c pre (segments & IH & Hne)].
  - exists [EmptyString]. change (EmptyString +:+ String "." e) with (String "." e).
    simpl. by rewrite (split_dot_plain e Hplain).
  - change (String c pre +:+ String "." e) with (String c (pre +:+ String "." e)).
    simpl. rewrite IH. destruct (Ascii.eqb c ".").
    + by exists (EmptyString :: segments).
    + destruct segments as [|h t]; [done|]. by exists (String c h :: t).
Qed.

Lemma fileExt_suffix (pre e : string) :
  (∀ c, c ∈ list_ascii_of_string e → c ≠ "."%char) →
  fileExt (pre +:+ String "." e) = e.
Proof.
  intros Hplain. unfold fileExt.
  destruct (split_dot_suffix pre e Hplain) as (segments & -> & _).
  by rewrite last_snoc.
Qed.

Lemma endsWith_spec (s suffix : string) :
  endsWith s suffix = true ↔ ∃ pre, s = pre +:+ suffix.
Proof.
  induction s as [|c s IH]; cbn [endsWith].
  - rewrite orb_false_r, String.eqb_eq. split; [intros <-; by exists EmptyString|].
    intros [pre Hpre]. destruct pre; [done|discriminate Hpre].
  - rewrite orb_true_iff, String.eqb_eq, IH. split.
    + intros [<-|[pre ->]]; [by exists EmptyString|by exists (String c pre)].
    + intros [[|c' pre] Hpre]; [by left|right].
      injection Hpre as -> ->. by exists pre.
Qed.

Lemma endsWith_jsx (name : string) : endsWith name ".jsx" = true → fileExt name = "jsx".
Proof.
  intros [pre ->]%endsWith_spec. apply (fileExt_suffix pre "jsx").
  intros c Hc. apply list_elem_of_In in Hc. simpl in Hc.
  by destruct Hc as [<-|[<-|[<-|[]]]].
Qed.

(** Resolves the chain of tests of [FileIcon] into its branches, each with
    the outcomes of the tests before it. *)
Ltac icon_branches :=
  unfold FileIcon;
  repeat match goal with
         | |- context [if ?b then _ else _] =>
             let Hb := fresh "Hb" in destruct b eqn:Hb
         end.

(** X13. The Vite icon is drawn for [vite.config.js] only (in any case):
    [vite.config.ts], which the Vite test also names, is caught before by
    the test for the extension [ts] and gets the TypeScript icon. *)
Theorem FileIcon_vite (filePath : string) :
  FileIcon filePath = IconVite ↔ toLowerCase filePath = "vite.config.js".
Proof.
  split.
  - icon_branches; try discriminate. intros _.
    apply orb_true_iff in Hb1 as [Hts|Hjs]; apply String.eqb_eq in Hts || apply String.eqb_eq in Hjs;
      [|done].
    rewrite Hts in Hb0. by vm_compute in Hb0.
  - intros Hname. unfold FileIcon. by rewrite Hname.
Qed.

Lemma FileIcon_vite_witness : FileIcon "VITE.config.js" = IconVite.
Proof. by apply FileIcon_vite. Defined.

(** A test on the whole name that holds fixes the extension. *)
Ltac name_fixes_ext Hext :=
  repeat match goal with
         | H : _ || _ = true |- _ => apply orb_true_iff in H as [H|H]
         | H : _ && _ = true |- _ => apply andb_true_iff in H as [? H]
         | H : endsWith _ ".jsx" = true |- _ =>
             apply endsWith_jsx in H; rewrite H in Hext; discriminate Hext
         | H : String.eqb (toLowerCase _) _ = true |- _ =>
             apply String.eqb_eq in H; rewrite H in Hext; by vm_compute in Hext
         | H : String.eqb _ _ = true |- _ => by vm_compute in H
         end.

(** Decides [FileIcon] from the extension [Hext] gives. *)
Ltac icon_by_ext Hext :=
  unfold FileIcon; rewrite ?Hext;
  repeat match goal with
         | |- context [if ?b then _ else _] =>
             let Hb := fresh "Hb" in destruct b eqn:Hb; try name_fixes_ext Hext
         end; try done.

Ltac dot_free :=
  let c := fresh "c" in
  let Hc := fresh "Hc" in
  intros c Hc; apply list_elem_of_In in Hc; simpl in Hc;
  repeat destruct Hc as [<-|Hc]; done.

(** X14. For a file whose name ends in [.tsx], [.jsx], [.ts], [.md],
    [.html] or [.css], the extension written in any mix of upper and lower
    case ([suffix] is any string that lower-cases to it), the icon depends
    on that extension alone: whatever stands before the last dot, it is
    the React, the TypeScript, the Markdown, the HTML or the CSS icon. *)
Theorem FileIcon_by_extension (base suffix : string) :
  (toLowerCase suffix = ".tsx" → FileIcon (base +:+ suffix) = IconReact)
  ∧ (toLowerCase suffix = ".jsx" → FileIcon (base +:+ suffix) = IconReact)
  ∧ (toLowerCase suffix = ".ts" → FileIcon (base +:+ suffix) = IconTypeScript)
  ∧ (toLowerCase suffix = ".md" → FileIcon (base +:+ suffix) = IconMarkdown)
  ∧ (toLowerCase suffix = ".html" → FileIcon (base +:+ suffix) = IconHtml)
  ∧ (toLowerCase suffix = ".css" → FileIcon (base +:+ suffix) = IconCss).
Proof.
  assert (Hext : ∀ e,
            toLowerCase suffix = String "." e →
            (∀ c, c ∈ list_ascii_of_string e → c ≠ "."%char) →
            fileExt (toLowerCase (base +:+ suffix)) = e).
  { intros e Hsuffix Hplain. rewrite toLowerCase_app, Hsuffix.
    by apply fileExt_suffix. }
  split_and!; intros Hsuffix.
  - pose proof (Hext "tsx" Hsuffix ltac:(dot_free)) as H. icon_by_ext H.
  - unfold FileIcon.
    assert (endsWith (toLowerCase (base +:+ suffix)) ".jsx" = true) as ->;
      [|by rewrite orb_true_r].
    apply endsWith_spec. exists (toLowerCase base). by rewrite toLowerCase_app, Hsuffix.
  - pose proof (Hext "ts" Hsuffix ltac:(dot_free)) as H. icon_by_ext H.
  - pose proof (Hext "md" Hsuffix ltac:(dot_free)) as H. icon_by_ext H.
  - pose proof (Hext "html" Hsuffix ltac:(dot_free)) as H. icon_by_ext H.
  - pose proof (Hext "css" Hsuffix ltac:(dot_free)) as H. icon_by_ext H.
Qed.

(** X14 on three spellings: [.TSX], [.Html] and [.mD]. *)
Lemma FileIcon_by_extension_witness :
  FileIcon "App.test.TSX" = IconReact
  ∧ FileIcon "index.Html" = IconHtml
  ∧ FileIcon "README.mD" = IconMarkdown.
Proof.
  destruct (FileIcon_by_extension "App.test" ".TSX") as (Htsx & _).
  destruct (FileIcon_by_extension "index" ".Html") as (_ & _ & _ & _ & Hhtml & _).
  destruct (FileIcon_by_extension "README" ".mD") as (_ & _ & _ & Hmd & _).
  split_and!; [exact (Htsx eq_refl)|exact (Hhtml eq_refl)|exact (Hmd eq_refl)].
Defined.

(** ** Placement of the context menu *)

(** X15. The context menu is placed at the pointer, moved left and up as
    far as needed to start no further right than [innerWidth - 200] and no
    lower than [innerHeight - 160]; it is never moved right or down, and
    nothing keeps it from a negative position in a small window. *)
Theorem menuStyle_bounds (x y innerWidth innerHeight : float) :
  is_nan x = false → is_nan y = false →
  is_nan (innerWidth - 200) = false → is_nan (innerHeight - 160) = false →
  let style := menuStyle x y innerWidth innerHeight in
  (style.1 = x ∨ style.1 = (innerWidth - 200)%float)
  ∧ (style.1 <=? x)%float = true ∧ (style.1 <=? innerWidth - 200)%float = true
  ∧ (style.2 = y ∨ style.2 = (innerHeight - 160)%float)
  ∧ (style.2 <=? y)%float = true ∧ (style.2 <=? innerHeight - 160)%float = true.
Proof.
  intros Hx Hy Hw Hh. unfold menuStyle. simpl.
  destruct (Math_min_spec x (innerWidth - 200) Hx Hw) as (? & ? & ?).
  destruct (Math_min_spec y (innerHeight - 160) Hy Hh) as (? & ? & ?).
  done.
Qed.

(** X15 in a 1280 by 720 window, with the pointer near the right edge. *)
Lemma menuStyle_bounds_witness :
  ((menuStyle 1200 100 1280 720).1 <=? 1280 - 200)%float = true
  ∧ ((menuStyle 1200 100 1280 720).2 <=? 100)%float = true.
Proof.
  destruct (menuStyle_bounds 1200 100 1280 720 eq_refl eq_refl eq_refl eq_refl)
    as (_ & _ & Hleft & _ & Htop & _).
  done.
Defined.

(** ** The live rendering of a loaded document *)

Example live_experience_example :
  liveLines (λ _, EmptyString) oneJob experience
  = Some [ "# Work Experience"; EmptyString;
           "Software Engineer — Magic EdTech (07/2022 – Present)";
           "• Led the migration"; "• Built components"; EmptyString ].
Proof. by vm_compute. Qed.

Lemma foldl_append_each {A} (f : A → string) (out : list string) (l : list A) :
  foldl (λ o x, o ++ [f x]) out l = out ++ (f <$> l).
Proof.
  revert out. induction l as [|x l IH]; intros out; simpl; [by rewrite app_nil_r|].
  by rewrite IH, <- app_assoc.
Qed.

Lemma pushWork_app (out : list string) (w : Work) : pushWork out w = out ++ jobLines w.
Proof.
  unfold pushWork, jobLines.
  rewrite (foldl_append_each (String.append "• ")).
  by rewrite <- !app_assoc.
Qed.

(** A loop of [push] calls only appends to what is there. *)
Lemma foldl_push_app {A} (push : list string → A → list string)
    (lines : A → list string) (init : list string) (l : list A) :
  (∀ out x, push out x = out ++ lines x) →
  foldl push init l = init ++ (l ≫= lines).
Proof.
  intros Hpush. revert init. induction l as [|x l IH]; intros init; simpl.
  - by rewrite app_nil_r.
  - by rewrite IH, Hpush, <- app_assoc.
Qed.

(** X16. Once a document of the shape of the type [Resume] is loaded, no
    section falls back to the static copy, whichever of the fields that
    the code guards are missing and however short the lists are: every
    section is rendered from the document and opens with its heading (for
    [home], with the document's name, or the built-in one when the name is
    missing).  For a document with no field at all, [home] is the built-in
    name and label, [about] is its heading alone, and each other section
    is its heading and an empty line. *)
Theorem liveLines_never_static (numberToString : float → string)
    (r : Resume) (id : SectionId) :
  ∃ lines,
    liveLines numberToString r id = Some lines
    ∧ head lines
      = Some (if id is home
              then "# " +:+ default "Lalit Sharma" (res_basics r ≫= basics_name)
              else heading id)
    ∧ (∀ loading,
         getSectionLines (liveLines numberToString) (mkContent (Some r) loading) id
         = lines)
    ∧ liveLines numberToString emptyResume id
      = Some (match id with
              | home => ["# Lalit Sharma"; "Software Engineer"]
              | about => ["# About"]
              | _ => [heading id; EmptyString]
              end).
Proof.
  assert (Hhead : ∀ A (push : list string → A → list string) lines h l,
            (∀ out x, push out x = out ++ lines x) →
            head (foldl push [h; EmptyString] l) = Some h).
  { intros A push lines h l Hpush. by rewrite (foldl_push_app push lines). }
  destruct id; (eexists; split; [reflexivity|]); (split_and!; [|done..]).
  - done.
  - done.
  - by apply (Hhead _ _ jobLines), pushWork_app.
  - by eapply (Hhead _ _ (λ p, [_])).
  - by eapply (Hhead _ _ (λ k, [_])).
  - by eapply (Hhead _ _ (λ e, [_])).
  - by eapply (Hhead _ _ (λ c, [_])).
  - by eapply (Hhead _ _ (λ p, [_])).
Qed.

Lemma filter_Boolean_nonempty (arr : list string) :
  Forall (λ line, line ≠ EmptyString) (filter_Boolean arr).
Proof.
  apply Forall_forall. intros line Hin. apply list_elem_of_In in Hin.
  apply filter_In in Hin as [_ Htruthy]. by intros ->.
Qed.

(** X17. The live [home] and [about] sections never show an empty line:
    [filter(Boolean)] removes the blank spacer line together with a
    missing or empty label or summary, so that [home] is the name line
    followed by the label and the summary that are present, and [about]
    is its heading followed by the summary if there is one. *)
Theorem live_home_about_no_blank_line (numberToString : float → string) (r : Resume) :
  let name := default "Lalit Sharma" (res_basics r ≫= basics_name) in
  let label := default "Software Engineer" (res_basics r ≫= basics_label) in
  let summary := default EmptyString (res_basics r ≫= basics_summary) in
  liveLines numberToString r home
  = Some (("# " +:+ name) :: filter_Boolean [label; summary])
  ∧ liveLines numberToString r about = Some ("# About" :: filter_Boolean [summary])
  ∧ Forall (λ line, line ≠ EmptyString)
           (default [] (liveLines numberToString r home))
  ∧ Forall (λ line, line ≠ EmptyString)
           (default [] (liveLines numberToString r about)).
Proof.
  intros name label summary. split_and!; try done.
  - apply filter_Boolean_nonempty.
  - apply filter_Boolean_nonempty.
Qed.

Lemma jobLines_length (work : list Work) :
  length (work ≫= jobLines)
  = sum_list ((λ w, 2 + length (default [] (work_highlights w))) <$> work).
Proof.
  induction work as [|w work IH]; [done|].
  rewrite bind_cons, length_app, IH, fmap_cons. unfold jobLines at 1.
  cbn [sum_list sum_list_with length]. rewrite length_app, length_fmap.
  cbn [length]. unfold id. lia.
Qed.

(** X18. The live [experience] section is the heading and a blank line
    followed, job by job in the document's order, by the job's header, one
    bullet line per highlight and a blank line; a document without [work]
    gives the heading and the blank line alone. *)
Theorem live_experience_layout (numberToString : float → string) (r : Resume) :
  let work := default [] (res_work r) in
  liveLines numberToString r experience
  = Some (["# Work Experience"; EmptyString] ++ (work ≫= jobLines))
  ∧ length (default [] (liveLines numberToString r experience))
    = 2 + sum_list ((λ w, 2 + length (default [] (work_highlights w))) <$> work).
Proof.
  intros work.
  assert (Hlines : liveLines numberToString r experience
                   = Some (["# Work Experience"; EmptyString] ++ (work ≫= jobLines))).
  { unfold liveLines. f_equal. apply foldl_push_app, pushWork_app. }
  split; [done|]. rewrite Hlines.
  change (default [] (Some ?l)) with l. rewrite length_app, jobLines_length. done.
Qed.

(** *** Trimmed lines *)

Lemma chars_inj (a b : string) : list_ascii_of_string a = list_ascii_of_string b → a = b.
Proof.
  intros Heq. apply (f_equal string_of_list_ascii) in Heq.
  by rewrite !string_of_list_ascii_of_string in Heq.
Qed.

Lemma rev_rev (s : string) : String.rev (String.rev s) = s.
Proof. apply chars_inj. by rewrite !rev_chars, reverse_involutive. Qed.

(** [trimStart] returns a suffix. *)
Lemma trimStart_suffix (s : string) :
  ∃ pre, list_ascii_of_string s = pre ++ list_ascii_of_string (trimStart s).
Proof.
  induction s as [|c s [pre IH]]; simpl; [by exists []|].
  destruct (is_js_space c); [|by exists []].
  exists (c :: pre). by rewrite IH.
Qed.

Lemma trim_trimmed (s : string) : trimmed (trim s).
Proof.
  unfold trim.
  set (Y := trimStart s). set (X := trimStart (String.rev Y)).
  split; intros c r Hshape.
  - apply (f_equal list_ascii_of_string) in Hshape. rewrite rev_chars in Hshape.
    apply (f_equal reverse) in Hshape.
    rewrite reverse_involutive in Hshape. simpl in Hshape. rewrite reverse_cons in Hshape.
    destruct (trimStart_suffix (String.rev Y)) as [pre Hpre]. fold X in Hpre.
    rewrite Hshape, rev_chars in Hpre.
    apply (f_equal reverse) in Hpre.
    rewrite reverse_involutive, app_assoc, reverse_snoc in Hpre.
    destruct Y as [|c' Y'] eqn:HY; [done|].
    simpl in Hpre. injection Hpre as -> _. by eapply (trimStart_head s).
  - rewrite rev_rev in Hshape. by eapply trimStart_head.
Qed.

Lemma trimmed_literal (s : string) :
  (if s is String c _ then is_js_space c else false) = false →
  (if String.rev s is String c _ then is_js_space c else false) = false →
  trimmed s.
Proof.
  intros Hfirst Hlast. split; intros c r Hshape; by rewrite Hshape in *.
Qed.

(** X19. Every line of the live [projects] and [education] sections is
    trimmed: it neither starts nor ends with white space, whichever
    fields of an entry are missing or empty. *)
Theorem live_projects_education_trimmed (numberToString : float → string) (r : Resume) :
  Forall trimmed (default [] (liveLines numberToString r projects))
  ∧ Forall trimmed (default [] (liveLines numberToString r education)).
Proof.
  assert (Hloop : ∀ A (push : list string → A → list string) (line : A → string) h l,
            (∀ out x, push out x = out ++ [trim (line x)]) →
            trimmed h → Forall trimmed (foldl push [h; EmptyString] l)).
  { intros A push line h l Hpush Hh.
    rewrite (foldl_push_app push (λ x, [trim (line x)])) by done.
    apply Forall_app. split.
    - constructor; [done|]. constructor; [by apply trimmed_literal|constructor].
    - apply Forall_forall. intros x (y & Hx & _)%list_elem_of_bind.
      apply list_elem_of_singleton in Hx as ->. apply trim_trimmed. }
  split; simpl.
  - eapply Hloop; [by intros out p|by apply trimmed_literal].
  - eapply Hloop; [by intros out e|by apply trimmed_literal].
Qed.

(** ** Loading, from any state *)

(** X20. [load] never throws: every failure of a source is caught.  What
    it leaves in the content cells depends on the network alone, not on
    what the cells held before, and it adds its requests, at most two and
    the primary source first, to those made before. *)
Theorem load_never_throws {R : Type} (network : string → FetchOutcome R) (w : World R) :
  (load network w).1 = Returned tt
  ∧ content (load network w).2 = (loaded network).1
  ∧ requested (load network w).2 = requested w ++ (loaded network).2
  ∧ (∃ rest, (loaded network).2 = primary :: rest ∧ length rest ≤ 1).
Proof.
  assert (Hrun : load network w
                 = (Returned tt, mkWorld (loaded network).1
                                         (requested w ++ (loaded network).2))).
  { rewrite loaded_cases.
    unfold load, try_finally, try_catch, fetch, json, setResume,
      setResumeLoading, throw, delivers, mbind, mret, Async_bind, Async_ret.
    simpl.
    destruct (network primary) as [|[] []]; simpl; rewrite <- ?app_assoc; try done;
      by destruct (network fallback) as [|[] []]. }
  rewrite Hrun, loaded_cases. split_and!; try done.
  destruct (delivers (network primary)); eexists; (split; [done|]); simpl; lia.
Qed.

(** ** Moving a tab away and back *)

(** X21. Moving a tab to the right group and back to the left does not
    restore the workspace: the tab returns at the end of the left list and
    is active there, the right list is what it was, but the right group's
    active tab is now its first tab (none if it has no tab). *)
Theorem split_right_then_left (tabId : SectionId) (s : AppState) :
  tabId ∉ tab_id <$> rightOpenTabs s →
  let s2 := splitTab tabId GLeft GRight (splitTab tabId GRight GLeft s) in
  (∃ section, section ∈ SECTIONS ∧ sec_id section = tabId
              ∧ leftOpenTabs s2
                = without_id tabId (leftOpenTabs s) ++ [mkTab tabId (sec_title section)])
  ∧ leftActiveTabId s2 = tabId
  ∧ rightOpenTabs s2 = rightOpenTabs s
  ∧ rightActiveTabId s2 = tab_id <$> head (rightOpenTabs s).
Proof.
  intros Hfresh s2. subst s2.
  destruct (splitTab_spec tabId GRight GLeft s)
    as (sec1 & _ & _ & Hright1 & Hract1 & Hsrc1).
  destruct (Hsrc1 ltac:(done)) as [Hleft1 _].
  set (s1 := splitTab tabId GRight GLeft s) in *.
  destruct (splitTab_spec tabId GLeft GRight s1)
    as (sec2 & Hin2 & Hid2 & Hleft2 & Hlact2 & Hsrc2).
  destruct (Hsrc2 ltac:(done)) as [Hright2 Hract2].
  simpl in *.
  rewrite append_if_absent_fresh in Hright1 by done.
  assert (Hback : without_id tabId (rightOpenTabs s1) = rightOpenTabs s).
  { rewrite Hright1. unfold without_id. rewrite filter_app.
    rewrite filter_cons_False by (intros Hne; by apply Hne).
    rewrite filter_nil, app_nil_r.
    apply without_id_all, Forall_forall. intros u Hu Heq.
    apply Hfresh, list_elem_of_fmap. by exists u. }
  split_and!.
  - exists sec2. split_and!; [done..|].
    rewrite Hleft2, Hleft1. apply append_if_absent_fresh, without_id_not_elem.
  - by injection Hlact2.
  - by rewrite Hright2.
  - rewrite Hract2, Hract1, decide_True by done.
    by rewrite find_other_head, Hback.
Qed.

(** X21 on [home, about, skills]: [about], moved right and back, ends up
    last on the left. *)
Lemma split_right_then_left_witness :
  tab_id <$> leftOpenTabs (splitTab about GLeft GRight (splitTab about GRight GLeft threeTabs))
  = [home; skills; about].
Proof.
  destruct (split_right_then_left about threeTabs) as [(section & _ & _ & Hleft) _];
    [by intros ?%not_elem_of_nil|].
  rewrite Hleft. by rewrite fmap_app.
Defined.

(** ** The listeners of the splitter drag *)

Lemma closeTab_resizeListeners (tabId : SectionId) (g : Group) (s : AppState) :
  resizeListeners (closeTab tabId g s) = resizeListeners s.
Proof. unfold closeTab. repeat (case_decide || case_match); by destruct g. Qed.

Lemma splitTab_resizeListeners (tabId : SectionId) (dest src : Group) (s : AppState) :
  resizeListeners (splitTab tabId dest src s) = resizeListeners s.
Proof. unfold splitTab. by repeat (case_decide || case_match). Qed.

Lemma menuClick_resizeListeners (a : MenuAction) (s : AppState) :
  resizeListeners (menuClick a s) = resizeListeners s.
Proof.
  unfold menuClick. destruct (contextMenu s) as [m|]; [|done].
  destruct a; try done; simpl.
  - apply closeTab_resizeListeners.
  - destruct (showSplit m s); [apply splitTab_resizeListeners|done].
  - destruct (showSplit m s); [apply splitTab_resizeListeners|done].
Qed.

(** No handler touches the listeners: only the effect does. *)
Lemma dispatch_resizeListeners (e : Event) (s s' : AppState) :
  dispatch e s = Some s' → resizeListeners s' = resizeListeners s.
Proof.
  intros Hhandle.
  destruct e; simpl in Hhandle; try (injection Hhandle as <-).
  - by destruct (SECTIONS !! i).
  - done.
  - unfold searchKeyDown, searchKeyDownOn. destruct k; try done.
    by destruct (filteredSections (query s) !! 0).
  - destruct (is_blank (query s)); [done|].
    by destruct (filteredSections (query s) !! i).
  - destruct (openTabs g s !! i); [by destruct g|done].
  - destruct (openTabs g s !! i); [apply closeTab_resizeListeners|done].
  - by destruct (openTabs g s !! i).
  - apply menuClick_resizeListeners.
  - done.
  - by destruct (leftOpenTabs s !! i).
  - destruct (leftOpenTabs s !! i); [|done].
    unfold handleTabDragOver. by case_decide.
  - destruct (leftOpenTabs s !! i); [|by injection Hhandle as <-].
    unfold handleTabDrop, splice_out in Hhandle.
    destruct (dragIndex s) as [d|]; [|by injection Hhandle as <-].
    case_decide; [by injection Hhandle as <-|].
    destruct (leftOpenTabs s !! d); [|done]. by injection Hhandle as <-.
  - done.
  - destruct (rightOpenTabs s); [done|].
    unfold onSplitterMouseDown. by destruct current.
  - destruct (resizeListeners s) as [offset|] eqn:Hl; [|done].
    unfold onMove. by destruct current.
  - by destruct (resizeListeners s) eqn:Hl.
Qed.

(** X22. Along any session the [mousemove] and [mouseup] listeners are on
    the document exactly while [isResizing] is true.  A mouse-down on the
    splitter while a drag is going on stores a new [dragOffsetPx] but the
    effect does not run again, so the listener keeps the offset it
    captured when the drag began and the next move is computed from that
    one. *)
Theorem listener_keeps_first_offset (es : list Event) (s : AppState) :
  run es initialState = Some s →
  (is_Some (resizeListeners s) ↔ isResizing s = true)
  ∧ ∀ offset clientX rect s',
      resizeListeners s = Some offset →
      handle (SplitterMouseDown clientX (Some rect)) s = Some s' →
      resizeListeners s' = Some offset
      ∧ (rightOpenTabs s ≠ [] →
         dragOffsetPx s'
         = Some (clientX - (rect_left rect + splitRatio s * rect_width rect))%float)
      ∧ ∀ x r,
          handle (MouseMove x (Some r)) s'
          = Some (setSplitRatio
                    (clampRatio (clampX (x - rect_left r - default 0 offset) (rect_width r)
                                 / rect_width r)%float) s').
Proof.
  intros Hrun.
  assert (Hinv : is_Some (resizeListeners s) ↔ isResizing s = true).
  { assert (Hgen : ∀ s0, (is_Some (resizeListeners s0) ↔ isResizing s0 = true) →
                         run es s0 = Some s →
                         is_Some (resizeListeners s) ↔ isResizing s = true).
    { clear Hrun. induction es as [|e es IH]; intros s0 Hin Hrun; simpl in Hrun.
      - by injection Hrun as <-.
      - destruct (handle e s0) as [s1|] eqn:Hstep; [|done]. simpl in Hrun.
        apply (IH s1); [|done]. clear IH Hrun.
        unfold handle in Hstep. destruct (dispatch e s0) as [s2|] eqn:Hdis; [|done].
        injection Hstep as <-. unfold resizeEffect. case_bool_decide as Hsame.
        + by rewrite (dispatch_resizeListeners e s0 s2 Hdis), <- Hsame.
        + simpl. destruct (isResizing s2); [by split; eauto|].
          split; [by intros [? ?]|done]. }
    apply (Hgen initialState); [|done]. split; [by intros [? ?]|done]. }
  split; [done|]. intros offset clientX rect s' Hlisten Hdown.
  assert (Hres : isResizing s = true) by (apply Hinv; by rewrite Hlisten).
  assert (Hs' : resizeListeners s' = Some offset ∧ isResizing s' = true
                ∧ (rightOpenTabs s ≠ [] →
                   dragOffsetPx s'
                   = Some (clientX - (rect_left rect + splitRatio s * rect_width rect))%float)).
  { unfold handle in Hdown. simpl in Hdown. injection Hdown as <-.
    unfold resizeEffect. destruct (rightOpenTabs s) eqn:Hright.
    - by rewrite bool_decide_eq_true_2.
    - simpl. by rewrite Hres, bool_decide_eq_true_2. }
  destruct Hs' as (Hkeep & Hres' & Hoffset). split_and!; [done..|].
  intros x r. unfold handle, resizeEffect. simpl. rewrite Hkeep. simpl.
  by rewrite bool_decide_eq_true_2.
Qed.

(** X22 on a session with two mouse-downs: the first at 500 px on the
    splitter at 500 px captures the offset 0, the second at 510 px stores
    the offset 10, and the listener still holds 0. *)
Lemma listener_keeps_first_offset_witness :
  ∃ s s', run grabSplitter initialState = Some s
          ∧ handle (SplitterMouseDown 510 (Some (mkRect 0 1000))) s = Some s'
          ∧ dragOffsetPx s' = Some 10%float
          ∧ resizeListeners s' = Some (Some 0%float).
Proof.
  destruct (run grabSplitter initialState) as [s|] eqn:Hrun; [|by vm_compute in Hrun].
  destruct (handle (SplitterMouseDown 510 (Some (mkRect 0 1000))) s) as [s'|] eqn:Hdown;
    [|by vm_compute in Hdown].
  exists s, s'. split_and!; [done..| |].
  - vm_compute in Hrun. injection Hrun as <-. vm_compute in Hdown.
    by injection Hdown as <-.
  - destruct (listener_keeps_first_offset grabSplitter s Hrun) as [_ Hkeep].
    apply (Hkeep (Some 0%float) 510%float (mkRect 0 1000) s'); [|done].
    vm_compute in Hrun. by injection Hrun as <-.
Defined.
